(** * Discogs Preview for YouTube: the text-matching and page-parsing core

    A shallow embedding of the pure functions of [background.js] and of the
    price-selection logic of [popup.js], followed by the properties the
    specification states about them.

    Conventions of the embedding.
    - A JavaScript string is the list of its UTF-16 code units ([str]); the
      code units are kept as numbers of type [N].
    - The regular expressions of the source are kept as syntax trees
      ([regex]) and run by one backtracking matcher ([rmatch]) that follows
      the ECMAScript rules: leftmost match, ordered alternation, greedy
      quantifiers with backtracking, numbered capture groups.  [match],
      [test], [split], the [g] flag of [replace] and the [exec] loop are all
      read off one left-to-right scan ([scan]).
    - Integers of the source (counts) are [Z]; prices are exact rationals
      ([Q], kept reduced).  The model agrees with the program on integers
      below 2^53 and on decimal amounts up to the binary rounding of
      doubles.  Two places are modelled on doubles, because the result
      depends on them: the extrapolated count [Math.round((a / b) * c)],
      computed with the rounding of each operation ([fl]), and the
      comparison of a scraped price with the sentinel [Infinity], where a
      decimal amount too large for a double counts as [Infinity]
      ([is_Infinity]).
    - [null] and [undefined] are constructors of [jsval]; a nullable number
      is an [option].
    - [fetch] is a parameter: a function from the URL to what the call does
      (it throws, or it answers).  Logging is left out. *)

From Stdlib Require Import String Ascii DecimalString.
From Stdlib Require Import List Bool Arith NArith ZArith QArith Lia.
From Stdlib Require Import Sorted Permutation Lqa Qabs Qround Qpower.
Import ListNotations.


(* ================================================================== *)
(** * Part I. The embedding                                            *)
(* ================================================================== *)

(** ** Strings as lists of UTF-16 code units *)

Definition str := list N.

(** [js "abc"] is the JavaScript string with the same ASCII characters. *)
Definition js (s : string) : str :=
  List.map N_of_ascii (list_ascii_of_string s).

(** The values the string helpers may receive in place of a string. *)
Inductive jsval : Type :=
| Undefined
| Null
| Str (s : str).

(** Truthiness, for [!x] and [x || y] on these values. *)
Definition truthy (v : jsval) : bool :=
  match v with
  | Str (_ :: _) => true
  | _ => false
  end.

(** [(v || "")] *)
Definition or_empty (v : jsval) : str :=
  match v with
  | Str s => s
  | _ => []
  end.

Definition str_eqb (a b : str) : bool :=
  if list_eq_dec N.eq_dec a b then true else false.

Local Open Scope N_scope.

(** *** Character classes *)

Definition in_range (lo hi c : N) : bool := (lo <=? c) && (c <=? hi).

(** [\d] *)
Definition is_digit (c : N) : bool := in_range 48 57 c.
(** [a-z] *)
Definition is_lower (c : N) : bool := in_range 97 122 c.
(** [A-Z] *)
Definition is_upper (c : N) : bool := in_range 65 90 c.

(** [\s], which is also the set [String.prototype.trim] removes:
    TAB, LF, VT, FF, CR, SP, NBSP, U+1680, U+2000..U+200A, LS, PS, U+202F,
    U+205F, U+3000 and the BOM. *)
Definition is_space (c : N) : bool :=
  in_range 9 13 c || (c =? 32) || (c =? 160) || (c =? 5760)
  || in_range 8192 8202 c || (c =? 8232) || (c =? 8233) || (c =? 8239)
  || (c =? 8287) || (c =? 12288) || (c =? 65279).

(** [\w] *)
Definition is_word (c : N) : bool :=
  is_lower c || is_upper c || is_digit c || (c =? 95).

(** [a-z0-9], the characters [normalize] keeps besides white space. *)
Definition is_alnum (c : N) : bool := is_lower c || is_digit c.

(** Canonicalisation of the [i] flag.  Without the [u] flag a code unit
    outside ASCII never canonicalises to an ASCII one, so for the ASCII
    patterns of this program only ASCII letters fold. *)
Definition fold_case (c : N) : N := if is_lower c then c - 32 else c.

(** *** [String.prototype.toLowerCase]

    ASCII capitals map to their small letters.  Two code units outside ASCII
    have a lower case that contains an ASCII letter: U+0130 becomes "i"
    followed by U+0307, and the Kelvin sign U+212A becomes "k".  Every other
    code unit outside ASCII lowers to code units outside [a-z0-9\s]; the
    only caller, [normalize], deletes those at once, so they are left as
    they are. *)
Definition lower_unit (c : N) : str :=
  if is_upper c then [c + 32]
  else if c =? 304 then [105; 775]
  else if c =? 8490 then [107]
  else [c].

Definition toLowerCase (s : str) : str := flat_map lower_unit s.

(** *** [trim], [indexOf], [substring], [split(" ")] *)

Fixpoint drop_while (p : N -> bool) (s : str) : str :=
  match s with
  | c :: s' => if p c then drop_while p s' else s
  | [] => []
  end.

Definition trim (s : str) : str :=
  rev (drop_while is_space (rev (drop_while is_space s))).

Fixpoint is_prefix (p s : str) : bool :=
  match p, s with
  | [], _ => true
  | a :: p', b :: s' => (a =? b) && is_prefix p' s'
  | _ :: _, [] => false
  end.

(** [find_from pat s i]: index of the first occurrence of [pat] in [s],
    counted from [i], the index of the head of [s]. *)
Fixpoint find_from (pat s : str) (i : Z) : option Z :=
  if is_prefix pat s then Some i
  else match s with
       | [] => None
       | _ :: s' => find_from pat s' (i + 1)%Z
       end.

(** [s.indexOf(pat)], with [-1] for "not found". *)
Definition indexOf (s pat : str) : Z :=
  match find_from pat s 0%Z with
  | Some i => i
  | None => (-1)%Z
  end.

(** [s.substring(a, b)] for [0 <= a <= b]. *)
Definition substring (s : str) (a b : Z) : str :=
  firstn (Z.to_nat b - Z.to_nat a) (skipn (Z.to_nat a) s).

(** [s.substring(a)] *)
Definition substring_from (s : str) (a : Z) : str := skipn (Z.to_nat a) s.

(** [s.split(sep)] for a one-unit separator: the pieces between the
    separators, at least one piece. *)
Fixpoint split_on (sep : N) (s : str) : list str :=
  match s with
  | [] => [[]]
  | c :: s' =>
      if c =? sep then [] :: split_on sep s'
      else match split_on sep s' with
           | w :: ws => (c :: w) :: ws
           | [] => [[c]]
           end
  end.

(** [arr.indexOf(x) >= 0] on an array of strings. *)
Definition str_in (x : str) (l : list str) : bool := existsb (str_eqb x) l.

(** ** Regular expressions *)

Inductive regex : Type :=
| Chr (p : N -> bool)          (** one code unit of a class *)
| Eps                          (** the empty pattern *)
| Seq (r1 r2 : regex)          (** [r1 r2] *)
| Alt (r1 r2 : regex)          (** [r1|r2], the left branch first *)
| Star (r : regex)             (** greedy [r*] *)
| Group (i : nat) (r : regex)  (** capture group number [i] *)
| WordB                        (** [\b] *)
| Eoi.                         (** [$] without the [m] flag *)

Definition Plus (r : regex) : regex := Seq r (Star r).
Definition Opt (r : regex) : regex := Alt r Eps.

Fixpoint seq_of (rs : list regex) : regex :=
  match rs with
  | [] => Eps
  | r :: rs' => Seq r (seq_of rs')
  end.

(** A literal, and the same literal under the [i] flag. *)
Definition lit (s : string) : regex :=
  seq_of (List.map (fun c => Chr (N.eqb c)) (js s)).
Definition liti (s : string) : regex :=
  seq_of (List.map (fun c => Chr (fun x => fold_case x =? fold_case c)) (js s)).
Definition lit_units (s : str) : regex :=
  seq_of (List.map (fun c => Chr (N.eqb c)) s).

(** The state of a match: the code unit just before the current position
    (for [\b]), the input still to read, and the captures made so far, the
    newest first. *)
Record mstate : Type := MState {
  before : option N;
  rest : str;
  caps : list (nat * str)
}.

Definition is_word_opt (o : option N) : bool :=
  match o with
  | Some c => is_word c
  | None => false
  end.

Definition cont := mstate -> option mstate.

(** The loop of a greedy star.  An iteration that consumes nothing is
    refused, as in ECMAScript, so [n], the length of the input at entry,
    bounds the number of iterations. *)
Fixpoint star_loop (step : cont -> cont) (n : nat) (k : cont)
    (st : mstate) : option mstate :=
  match n with
  | O => k st
  | S n' =>
      match step (fun st' =>
                    if (length (rest st') <? length (rest st))%nat
                    then star_loop step n' k st' else None) st with
      | Some r => Some r
      | None => k st
      end
  end.

(** The backtracking matcher, in continuation-passing style: [rmatch r k st]
    matches [r] at [st] and hands each candidate end state to [k], in the
    order of preference, until [k] accepts one. *)
Fixpoint rmatch (r : regex) (k : cont) (st : mstate) : option mstate :=
  match r with
  | Chr p =>
      match rest st with
      | c :: s' => if p c then k (MState (Some c) s' (caps st)) else None
      | [] => None
      end
  | Eps => k st
  | Seq r1 r2 => rmatch r1 (rmatch r2 k) st
  | Alt r1 r2 =>
      match rmatch r1 k st with
      | Some x => Some x
      | None => rmatch r2 k st
      end
  | Star r1 => star_loop (rmatch r1) (length (rest st)) k st
  | Group i r1 =>
      rmatch r1
        (fun st' =>
           k (MState (before st') (rest st')
                ((i, firstn (length (rest st) - length (rest st')) (rest st))
                   :: caps st')))
        st
  | WordB =>
      if xorb (is_word_opt (before st)) (is_word_opt (hd_error (rest st)))
      then k st else None
  | Eoi =>
      match rest st with
      | [] => k st
      | _ :: _ => None
      end
  end.

(** A match that starts exactly at the head of [s]: the number of code units
    it consumes and its captures. *)
Definition match_here (r : regex) (prev : option N) (s : str)
  : option (nat * list (nat * str)) :=
  match rmatch r (fun st => Some st) (MState prev s []) with
  | Some st => Some ((length s - length (rest st))%nat, caps st)
  | None => None
  end.

(** The left-to-right cut of a string into matches and the code units
    between them: what the [g] flag, [split] and repeated [exec] walk
    through.  [skip] counts the code units of the current match still to
    pass over. *)
Inductive piece : Type :=
| Lit (c : N)
| Hit (text : str) (groups : list (nat * str)).

Fixpoint scan (r : regex) (prev : option N) (skip : nat) (s : str)
  : list piece :=
  match s with
  | [] =>
      match skip with
      | O => match match_here r prev [] with
             | Some (_, g) => [Hit [] g]
             | None => []
             end
      | S _ => []
      end
  | c :: s' =>
      match skip with
      | S n => scan r (Some c) n s'
      | O =>
          match match_here r prev s with
          | Some (O, g) => Hit [] g :: Lit c :: scan r (Some c) 0 s'
          | Some (S n, g) => Hit (firstn (S n) s) g :: scan r (Some c) n s'
          | None => Lit c :: scan r (Some c) 0 s'
          end
      end
  end.

Definition pieces (r : regex) (s : str) : list piece := scan r None 0 s.

(** [s.replace(/r/g, rep)] for a replacement without [$] patterns. *)
Definition replace_all (r : regex) (rep : str) (s : str) : str :=
  flat_map (fun p => match p with
                     | Lit c => [c]
                     | Hit _ _ => rep
                     end) (pieces r s).

(** A match object: the text before the match (its length is [index]), the
    matched text [m[0]] and the capture groups. *)
Record rmatch_result : Type := MatchResult {
  m_before : str;
  m_text : str;
  m_groups : list (nat * str)
}.

Definition m_index (m : rmatch_result) : Z := Z.of_nat (length (m_before m)).

(** [m[i]] for [i >= 1]; [None] is [undefined]. *)
Fixpoint group (i : nat) (g : list (nat * str)) : option str :=
  match g with
  | [] => None
  | (j, t) :: g' => if Nat.eqb i j then Some t else group i g'
  end.

(** All the matches of a scan with the text that precedes each: the
    successive results of [r.exec(s)] for a [g] regex. *)
Fixpoint hits_of (ps : list piece) (seen : str) : list rmatch_result :=
  match ps with
  | [] => []
  | Lit c :: ps' => hits_of ps' (seen ++ [c])
  | Hit t g :: ps' => MatchResult seen t g :: hits_of ps' (seen ++ t)
  end.

Definition exec_all (r : regex) (s : str) : list rmatch_result :=
  hits_of (pieces r s) [].

(** [s.match(/r/)] without the [g] flag: the leftmost match, if any. *)
Definition match_first (r : regex) (s : str) : option rmatch_result :=
  hd_error (exec_all r s).

(** [/r/.test(s)] *)
Definition test (r : regex) (s : str) : bool :=
  match match_first r s with
  | Some _ => true
  | None => false
  end.

(** [(s.match(/r/g) || []).length] *)
Definition count_matches (r : regex) (s : str) : Z :=
  Z.of_nat (length (exec_all r s)).

(** [s.split(/r/)] for a pattern without capture groups that matches no
    empty string: the texts between the matches. *)
Fixpoint split_pieces (ps : list piece) (cur : str) : list str :=
  match ps with
  | [] => [cur]
  | Lit c :: ps' => split_pieces ps' (cur ++ [c])
  | Hit _ _ :: ps' => cur :: split_pieces ps' []
  end.

Definition split_re (r : regex) (s : str) : list str :=
  split_pieces (pieces r s) [].

(** ** Text normaliser *)

Definition white : regex := Chr is_space.

(** [/[^a-z0-9\s]/g] *)
Definition re_not_alnum_space : regex :=
  Chr (fun c => negb (is_alnum c || is_space c)).

(** [/\s+/g] *)
Definition re_spaces : regex := Plus white.

(** [normalize(s)] *)
Definition normalize (s : jsval) : str :=
  trim (replace_all re_spaces (js " ")
          (replace_all re_not_alnum_space [] (toLowerCase (or_empty s)))).

(** [/\bw\b/g] for a literal [w] *)
Definition re_word (w : string) : regex := Seq WordB (Seq (lit w) WordB).

(** [fuzzyNorm(s)] *)
Definition fuzzyNorm (s : jsval) : str :=
  let s0 := normalize s in
  let s1 := replace_all (re_word "nite") (js "night") s0 in
  let s2 := replace_all (re_word "midnight") (js "midnigh") s1 in
  let s3 := replace_all (re_word "midnite") (js "midnigh") s2 in
  let s4 := replace_all (re_word "mid night") (js "midnigh") s3 in
  let s5 := replace_all (re_word "tha") (js "the") s4 in
  trim (replace_all re_spaces (js " ") s5).


(** ** Query splitter *)

Record ParsedQuery : Type := { artist : str; track : str }.

(** The separators: pipe, hyphen, en dash U+2013, em dash U+2014 (each
    between two blanks) and colon-blank. *)
Definition seps : list str :=
  [js " | "; js " - "; [32; 8211; 32]; [32; 8212; 32]; js ": "].

(** The [for] loop of [parseArtistTrack] over the separators still to try. *)
Fixpoint parseArtistTrack_from (rem : list str) (query : str) : ParsedQuery :=
  match rem with
  | [] => {| artist := []; track := query |}
  | sep :: rem' =>
      let idx := indexOf query sep in
      if (0 <? idx)%Z
      then {| artist := trim (substring query 0 idx);
              track := trim (substring_from query
                               (idx + Z.of_nat (length sep))) |}
      else parseArtistTrack_from rem' query
  end.

(** [parseArtistTrack(query)] *)
Definition parseArtistTrack (query : str) : ParsedQuery :=
  parseArtistTrack_from seps query.

(** ** Track matcher *)

(** [wordsContain(haystack, needle)] *)
Definition wordsContain (haystack needle : str) : bool :=
  let hw := split_on 32 haystack in
  let nw := split_on 32 needle in
  forallb (fun w => str_in w hw) nw.

(** An entry of a tracklist: [type_] and [title] may be missing. *)
Record TracklistEntry : Type := { type_ : jsval; title : jsval }.

(** [t.type_ && t.type_ !== "track"] *)
Definition not_a_track (t : TracklistEntry) : bool :=
  truthy (type_ t) && negb (str_eqb (or_empty (type_ t)) (js "track")).

(** The [for] loop of [tracklistContains]. *)
Fixpoint tracklist_scan (needle needleFuzzy : str) (isShort : bool)
    (tracklist : list TracklistEntry) : bool :=
  match tracklist with
  | [] => false
  | t :: more =>
      if not_a_track t then tracklist_scan needle needleFuzzy isShort more
      else
        let title_n := normalize (title t) in
        match title_n with
        | [] => tracklist_scan needle needleFuzzy isShort more
        | _ :: _ =>
            if isShort then
              if str_eqb title_n needle then true
              else tracklist_scan needle needleFuzzy isShort more
            else if wordsContain title_n needle || wordsContain needle title_n
            then true
            else
              let titleFuzzy := fuzzyNorm (title t) in
              if wordsContain titleFuzzy needleFuzzy
                 || wordsContain needleFuzzy titleFuzzy
              then true
              else tracklist_scan needle needleFuzzy isShort more
        end
  end.

(** [tracklistContains(tracklist, trackName)]; [None] is a missing
    tracklist. *)
Definition tracklistContains (tracklist : option (list TracklistEntry))
    (trackName : jsval) : bool :=
  match tracklist with
  | None => false
  | Some l =>
      if (length l =? 0)%nat || negb (truthy trackName) then false
      else
        let needle := normalize trackName in
        let needleFuzzy := fuzzyNorm trackName in
        if (length needle <? 2)%nat then false
        else tracklist_scan needle needleFuzzy (length needle <=? 3)%nat l
  end.

(** ** Numbers *)

Definition Qltb (a b : Q) : bool := negb (Qle_bool b a).

(** *** Doubles

    The result of an arithmetic operation on doubles is the double nearest
    to the exact result, a tie going to the even significand.  [fl x] is
    that double for a rational [x] whose magnitude lies in the range of the
    normal doubles: the significand [round_even (x / 2^e)] of 53 bits at
    the exponent [e] for which [x / 2^e] lies between [2^52] and [2^53]. *)
Definition pow2 (e : Z) : Q := Qpower 2 e.

(** The integer part of the binary logarithm of a positive rational. *)
Definition floor_log2 (x : Q) : Z :=
  let k := (Z.log2 (Qnum x) - Z.log2 (Zpos (Qden x)))%Z in
  if Qle_bool (pow2 k) x then k else (k - 1)%Z.

(** The integer nearest to [y], a tie going to the even one. *)
Definition round_even (y : Q) : Z :=
  let f := Qfloor y in
  match Qcompare (y - inject_Z f) (1 # 2) with
  | Lt => f
  | Gt => (f + 1)%Z
  | Eq => if Z.even f then f else (f + 1)%Z
  end.

Definition fl_pos (x : Q) : Q :=
  let e := (floor_log2 x - 52)%Z in
  (inject_Z (round_even (x / pow2 e)) * pow2 e)%Q.

Definition fl (x : Q) : Q :=
  match Qnum x with
  | Z0 => 0%Q
  | Zpos _ => fl_pos x
  | Zneg _ => (- fl_pos (- x))%Q
  end.

(** [Math.round(x)]: the integer nearest to [x], a tie going up. *)
Definition Math_round (x : Q) : Z := Qfloor (x + (1 # 2)).

(** The least decimal amount that [parseFloat] reads as [Infinity]:
    [2^1024 - 2^970], half way between the largest double and [2^1024]. *)
Definition DOUBLE_OVERFLOW : Q := inject_Z ((2 ^ 54 - 1) * 2 ^ 970).

Definition is_Infinity (x : Q) : bool := Qle_bool DOUBLE_OVERFLOW x.

(** [x < low] for a variable [low] that starts as [Infinity], which is
    [None] here: a price is below the sentinel unless it is [Infinity]
    itself. *)
Definition below_sentinel (x : Q) (low : option Q) : bool :=
  match low with
  | None => negb (is_Infinity x)
  | Some y => Qltb x y
  end.

(** [arr.sort(function(a, b) { return a - b; })]: ascending and stable. *)
Fixpoint insert_num (x : Q) (l : list Q) : list Q :=
  match l with
  | [] => [x]
  | y :: l' => if Qle_bool x y then x :: l else y :: insert_num x l'
  end.

Definition sort_num (l : list Q) : list Q := fold_right insert_num [] l.

(** [computeMedian(sortedArr)] *)
Definition computeMedian (sortedArr : list Q) : option Q :=
  let n := length sortedArr in
  if (n =? 0)%nat then None
  else if (n mod 2 =? 1)%nat then Some (nth (n / 2) sortedArr 0%Q)
  else Some (Qred ((nth (n / 2 - 1) sortedArr 0%Q + nth (n / 2) sortedArr 0%Q)
                   / 2)%Q).

Fixpoint take_while (p : N -> bool) (s : str) : str :=
  match s with
  | c :: s' => if p c then c :: take_while p s' else []
  | [] => []
  end.

Definition digits_value (ds : str) : Z :=
  fold_left (fun acc d => (acc * 10 + (Z.of_N d - 48))%Z) ds 0%Z.

(** [parseInt(s, 10)] on a string of digits; [None] is [NaN]. *)
Definition parseInt (s : str) : option Z :=
  match take_while is_digit s with
  | [] => None
  | ds => Some (digits_value ds)
  end.

(** [parseFloat(s)] on a string of digits and dots: the longest prefix of
    the form [digits], [digits.], [digits.digits] or [.digits]; [None] is
    [NaN]. *)
Definition parseFloat (s : str) : option Q :=
  let ip := take_while is_digit s in
  let fp := match skipn (length ip) s with
            | c :: r => if c =? 46 then take_while is_digit r else []
            | [] => []
            end in
  match ip ++ fp with
  | [] => None
  | ds => Some (Qred (Qmake (digits_value ds)
                        (Z.to_pos (10 ^ Z.of_nat (length fp)))))
  end.

(** ** Listing page parser *)

(** [GRADE_RANK] *)
Definition GRADE_RANK : list (str * Z) :=
  [ (js "Mint (M)", 1); (js "Near Mint (NM or M-)", 2);
    (js "Very Good Plus (VG+)", 3); (js "Very Good (VG)", 4);
    (js "Good Plus (G+)", 5); (js "Good (G)", 6);
    (js "Fair (F)", 7); (js "Poor (P)", 8) ]%Z.

Fixpoint lookup_rank (grade : str) (table : list (str * Z)) : option Z :=
  match table with
  | [] => None
  | (k, v) :: table' => if str_eqb grade k then Some v else lookup_rank grade table'
  end.

(** [isVGPlusOrBetter(grade)] *)
Definition isVGPlusOrBetter (grade : str) : bool :=
  match lookup_rank grade GRADE_RANK with
  | Some rank => (rank <=? 3)%Z
  | None => false
  end.

Definition digit : regex := Chr is_digit.

(** [/\d+\s*[\u2013\u2014-]\s*\d+\s+of\s+([\d,]+)/] *)
Definition re_count : regex :=
  seq_of [ Plus digit; Star white;
           Chr (fun c => (c =? 8211) || (c =? 8212) || (c =? 45));
           Star white; Plus digit; Plus white; lit "of"; Plus white;
           Group 1 (Plus (Chr (fun c => is_digit c || (c =? 44)))) ].

(** [/No\s+items\s+for\s+sale|0\s+results|Sorry,\s+no\s+results/i] *)
Definition re_no_results : regex :=
  Alt (seq_of [liti "No"; Plus white; liti "items"; Plus white; liti "for";
               Plus white; liti "sale"])
   (Alt (seq_of [liti "0"; Plus white; liti "results"])
        (seq_of [liti "Sorry,"; Plus white; liti "no"; Plus white; liti "results"])).

(** [/Media[\s-]+Condition\s*:/i], also used with the [g] flag *)
Definition re_marker : regex :=
  seq_of [ liti "Media"; Plus (Chr (fun c => is_space c || (c =? 45)));
           liti "Condition"; Star white; liti ":" ].

(** [[\d,.]] *)
Definition is_amount_unit (c : N) : bool :=
  is_digit c || (c =? 44) || (c =? 46).

(** [/\$[\d,.]/] *)
Definition re_has_price : regex := seq_of [lit "$"; Chr is_amount_unit].

(** The run of tags [(?:<[^>]*>\s* )*] (written here with a blank before
    the closing parenthesis). *)
Definition re_tags : regex :=
  Star (seq_of [lit "<"; Star (Chr (fun c => negb (c =? 62))); lit ">";
                Star white]).

(** [condMatch]: optional white space, a run of tags, then one of the eight
    grade labels as group 1, in the order Mint, Near Mint, Very Good Plus,
    Very Good, Good Plus, Good, Fair, Poor. *)
Definition re_condition : regex :=
  seq_of [ Star white; re_tags;
           Group 1
             (Alt (lit "Mint (M)")
             (Alt (lit "Near Mint (NM or M-)")
             (Alt (lit "Very Good Plus (VG+)")
             (Alt (lit "Very Good (VG)")
             (Alt (lit "Good Plus (G+)")
             (Alt (lit "Good (G)")
             (Alt (lit "Fair (F)") (lit "Poor (P)")))))))) ].

(** [/Ships\s+From\s*:/i] *)
Definition re_ships : regex :=
  seq_of [liti "Ships"; Plus white; liti "From"; Star white; liti ":"].

(** [shipMatch]: [Ships\s+From:\s*], a run of tags, then [([A-Za-z\s]+)] as
    group 1, under the [i] flag. *)
Definition re_ships_from : regex :=
  seq_of [ liti "Ships"; Plus white; liti "From:"; Star white; re_tags;
           Group 1 (Plus (Chr (fun c => is_lower c || is_upper c
                                        || is_space c))) ].

(** [/United States/i] *)
Definition re_united_states : regex := liti "United States".

(** [/(\+)?(?:about\s+)?\$([\d,.]+)/g] *)
Definition re_price : regex :=
  seq_of [ Opt (Group 1 (lit "+")); Opt (seq_of [lit "about"; Plus white]);
           lit "$"; Group 2 (Plus (Chr is_amount_unit)) ].

(** [/shipping\s*$/i] *)
Definition re_shipping_end : regex := seq_of [liti "shipping"; Star white; Eoi].

(** [/,/g] *)
Definition re_comma : regex := lit ",".

Definition group_text (i : nat) (m : rmatch_result) : str :=
  match group i (m_groups m) with
  | Some t => t
  | None => []
  end.

(** The [while] loop over [priceRegex.exec(block)]: the value of the first
    match that passes the three [continue] tests and parses to a positive
    number. *)
Fixpoint first_price (block : str) (ms : list rmatch_result) : option Q :=
  match ms with
  | [] => None
  | pm :: ms' =>
      if match group 1 (m_groups pm) with
         | Some t => str_eqb t (js "+")
         | None => false
         end
      then first_price block ms'
      else if (0 <=? indexOf (m_text pm) (js "about"))%Z
      then first_price block ms'
      else
        let before_text :=
          substring block (Z.max 0 (m_index pm - 20)) (m_index pm) in
        if test re_shipping_end before_text then first_price block ms'
        else
          match parseFloat (replace_all re_comma [] (group_text 2 pm)) with
          | Some val => if Qltb 0 val then Some val else first_price block ms'
          | None => first_price block ms'
          end
  end.

Definition listing_price (block : str) : option Q :=
  first_price block (exec_all re_price block).

(** The US filter on one block: [shipMatch] and the test on the country. *)
Definition ships_from_us (block : str) : bool :=
  match match_first re_ships_from block with
  | None => false
  | Some shipMatch => test re_united_states (trim (group_text 1 shipMatch))
  end.

(** The variables the listing loop updates. *)
Record listing_acc : Type := {
  acc_listingsOnPage : Z;
  acc_matched : Z;
  acc_prices : list Q;
  acc_lowest : option Q
}.

(** The three tests a block must pass to count as a listing; the result is
    [condMatch]. *)
Definition validated (block : str) : option rmatch_result :=
  if negb (test re_has_price block) then None
  else match match_first re_condition block with
       | None => None
       | Some condMatch =>
           if negb (test re_ships block) then None else Some condMatch
       end.

(** One iteration of the listing loop. *)
Definition process_block (usOnly vgPlus : bool) (a : listing_acc)
    (block : str) : listing_acc :=
  match validated block with
  | None => a
  | Some condMatch =>
      let a1 := {| acc_listingsOnPage := acc_listingsOnPage a + 1;
                   acc_matched := acc_matched a;
                   acc_prices := acc_prices a;
                   acc_lowest := acc_lowest a |}%Z in
      if vgPlus && negb (isVGPlusOrBetter (group_text 1 condMatch)) then a1
      else if usOnly && negb (ships_from_us block) then a1
      else
        match listing_price block with
        | Some val =>
            {| acc_listingsOnPage := acc_listingsOnPage a1;
               acc_matched := acc_matched a1 + 1;
               acc_prices := acc_prices a1 ++ [val];
               acc_lowest := match acc_lowest a1 with
                             | None => Some val
                             | Some low =>
                                 if Qltb val low then Some val else Some low
                             end |}%Z
        | None =>
            {| acc_listingsOnPage := acc_listingsOnPage a1;
               acc_matched := acc_matched a1 + 1;
               acc_prices := acc_prices a1;
               acc_lowest := acc_lowest a1 |}%Z
        end
  end.

Record PageParseResult : Type := {
  total : Z;
  listingsOnPage : Z;
  matched : Z;
  prices : list Q;
  lowest : option Q
}.

(** The blocks the listing loop visits: [parts[1]], [parts[2]], ... *)
Definition listing_blocks (html : str) : list str :=
  tl (split_re re_marker html).

(** [parseFilteredPage(html, usOnly, vgPlus)] *)
Definition parseFilteredPage (html : str) (usOnly vgPlus : bool)
  : PageParseResult :=
  let countMatch := match_first re_count html in
  let hasPagination := match countMatch with Some _ => true | None => false end in
  let total0 :=
    match countMatch with
    | Some m =>
        match parseInt (replace_all re_comma [] (group_text 1 m)) with
        | Some n => n
        | None => 0
        end
    | None =>
        if test re_no_results html then 0
        else count_matches re_marker html
    end%Z in
  let a := fold_left (process_block usOnly vgPlus) (listing_blocks html)
             {| acc_listingsOnPage := 0; acc_matched := 0;
                acc_prices := []; acc_lowest := None |}%Z in
  let total1 :=
    if negb hasPagination && (0 <? acc_listingsOnPage a)%Z
    then acc_listingsOnPage a else total0 in
  let cap := hasPagination && (0 <? total1)%Z in
  {| total := total1;
     listingsOnPage :=
       if cap && (total1 <? acc_listingsOnPage a)%Z then total1
       else acc_listingsOnPage a;
     matched :=
       if cap && (total1 <? acc_matched a)%Z then total1 else acc_matched a;
     prices := acc_prices a;
     lowest := acc_lowest a |}.

(** ** Price aggregator *)

(** What [await fetch(url)] can do: throw, or answer with [res.ok] and the
    body [res.text()]. *)
Inductive fetch_result : Type :=
| FetchThrows
| Response (ok : bool) (text : str).

(** [String(n)] for an integer. *)
Definition dec_str (n : Z) : str := js (NilEmpty.string_of_int (Z.to_int n)).

(** [url.indexOf("?") >= 0 ? "&" : "?"] *)
Definition query_sep (url : str) : str :=
  if (0 <=? indexOf url (js "?"))%Z then js "&" else js "?".

(** [Math.round((a / b) * c)] for [b > 0], on doubles: the quotient is
    rounded, then the product. *)
Definition round_ratio (a b c : Z) : Z :=
  Math_round (fl (fl (inject_Z a / inject_Z b) * inject_Z c)).

(** The result of [scrapeFilteredListings]; [scrapedTotal] is [None] where
    the source leaves the property out. *)
Record ScrapeStats : Type := {
  s_numForSale : Z;
  s_scrapedTotal : option Z;
  s_lowestPrice : option Q;
  s_medianPrice : option Q
}.

(** The variables of the page loop of [scrapeFilteredListings]. *)
Record scrape_acc : Type := {
  sc_allPrices : list Q;
  sc_allMatched : Z;
  sc_totalListings : Z;
  sc_totalOnPages : Z;
  sc_lowestPrice : option Q
}.

(** How the page loop ends: an exception (caught by the function), a
    [return] from inside the loop, or the end of the loop. *)
Inductive loop_exit : Type :=
| Thrown
| Returned (r : ScrapeStats)
| Finished (a : scrape_acc).

Definition MAX_SCRAPE_PAGES : nat := 2.

(** [a != null && (b == null || a < b) ? a : b] *)
Definition lower_of (a b : option Q) : option Q :=
  match a, b with
  | Some x, None => Some x
  | Some x, Some y => if Qltb x y then Some x else Some y
  | None, _ => b
  end.

(** References to the entities whose prices are gathered: identifiers are
    numbers, [None] or [Some 0] when missing. *)
Record ReleaseRef : Type := { masterId : option Z; releaseId : option Z }.

Definition id_truthy (i : option Z) : bool :=
  match i with
  | Some n => negb (n =? 0)%Z
  | None => false
  end.

Definition id_str (i : option Z) : str :=
  match i with
  | Some n => dec_str n
  | None => js "undefined"
  end.

(** What [gatherPricing] returns, without the price suggestions
    ([vgPlusPrice], [nearMintPrice], [lowestGrade]), which come from another
    endpoint and take no part in counts, lowest or median. *)
Record Pricing : Type := {
  p_totalForSale : Z;
  p_lowestPrice : option Q;
  p_medianPrice : option Q;
  p_scrapedPrices : list Q
}.

(** An entry of [matches] in the result of [buildResult], without the
    display fields (title, artists, year, thumbnail, URL). *)
Record MatchDetail : Type := {
  d_ref : ReleaseRef;
  d_numForSale : Z;
  d_lowestPrice : option Q;
  d_medianPrice : option Q
}.

(** The comparator of [matchDetails.sort]: is [cmp(a, b) <= 0]? *)
Definition detail_leb (a b : MatchDetail) : bool :=
  match d_lowestPrice a, d_lowestPrice b with
  | None, None => true
  | None, Some _ => false
  | Some _, None => true
  | Some x, Some y => Qle_bool x y
  end.

Fixpoint insert_detail (x : MatchDetail) (l : list MatchDetail)
  : list MatchDetail :=
  match l with
  | [] => [x]
  | y :: l' => if detail_leb x y then x :: l else y :: insert_detail x l'
  end.

Definition sort_details (l : list MatchDetail) : list MatchDetail :=
  fold_right insert_detail [] l.

(** The aggregate of [buildResult], same omissions. *)
Record AggregateStats : Type := {
  r_matchCount : Z;
  r_numForSale : Z;
  r_lowestPrice : option Q;
  r_medianPrice : option Q;
  r_matches : list MatchDetail
}.

(** The variables of the loop of [buildResult]; [globalLowest] starts as
    [Infinity], which is [None]. *)
Record build_acc : Type := {
  b_totalForSale : Z;
  b_globalLowest : option Q;
  b_allPrices : list Q;
  b_matchDetails : list MatchDetail
}.

(** The aggregate of [handleFilteredStats]. *)
Record FilteredStats : Type := {
  f_numForSale : Z;
  f_scrapedTotal : option Z;
  f_lowestPrice : option Q;
  f_medianPrice : option Q;
  f_matchStats : list ScrapeStats
}.

(** The variables of the loop of [handleFilteredStats]; [allLowest] starts
    as [Infinity], which is [None]. *)
Record filtered_acc : Type := {
  h_totalForSale : Z;
  h_scrapedTotal : option Z;
  h_allLowest : option Q;
  h_allMedians : list Q;
  h_matchStats : list ScrapeStats
}.

(** [a + b] where either may be [undefined] or [NaN] ([None]). *)
Definition add_nan (a b : option Z) : option Z :=
  match a, b with
  | Some x, Some y => Some (x + y)%Z
  | _, _ => None
  end.

Section Network.

(** The marketplace, as the program sees it. *)
Variable fetch : str -> fetch_result.

(** [encodeURIComponent]; [None] when the call throws a [URIError]. *)
Variable encodeURIComponent : str -> option str.

(** The [for] loop of [scrapeFilteredListings], [left] pages from [page]
    on. *)
Fixpoint scrape_pages (left : nat) (page : Z) (sellUrl : str)
    (usOnly vgPlus : bool) (a : scrape_acc) : loop_exit :=
  match left with
  | O => Finished a
  | S left' =>
      let pageUrl :=
        if (1 <? page)%Z
        then sellUrl ++ query_sep sellUrl ++ js "page=" ++ dec_str page
        else sellUrl in
      match fetch pageUrl with
      | FetchThrows => Thrown
      | Response false _ => Finished a
      | Response true html =>
          let pg := parseFilteredPage html usOnly vgPlus in
          let totalListings :=
            if (page =? 1)%Z then total pg else sc_totalListings a in
          if (page =? 1)%Z && (totalListings =? 0)%Z
          then Returned {| s_numForSale := 0; s_scrapedTotal := None;
                           s_lowestPrice := None; s_medianPrice := None |}
          else
            let a' :=
              {| sc_allPrices := sc_allPrices a ++ prices pg;
                 sc_allMatched := sc_allMatched a + matched pg;
                 sc_totalListings := totalListings;
                 sc_totalOnPages := sc_totalOnPages a + listingsOnPage pg;
                 sc_lowestPrice := lower_of (lowest pg) (sc_lowestPrice a)
              |}%Z in
            if (listingsOnPage pg <? 25)%Z
               || (totalListings <=? sc_totalOnPages a')%Z
            then Finished a'
            else scrape_pages left' (page + 1)%Z sellUrl usOnly vgPlus a'
      end
  end.

(** [scrapeFilteredListings(sellUrl, usOnly, vgPlus)] *)
Definition scrapeFilteredListings (sellUrl : str) (usOnly vgPlus : bool)
  : ScrapeStats :=
  match scrape_pages MAX_SCRAPE_PAGES 1 sellUrl usOnly vgPlus
          {| sc_allPrices := []; sc_allMatched := 0; sc_totalListings := 0;
             sc_totalOnPages := 0; sc_lowestPrice := None |}%Z with
  | Thrown => {| s_numForSale := 0; s_scrapedTotal := Some 0%Z;
                 s_lowestPrice := None; s_medianPrice := None |}
  | Returned r => r
  | Finished a =>
      let medianPrice := computeMedian (sort_num (sc_allPrices a)) in
      let matchedCount :=
        if (sc_totalOnPages a <? sc_totalListings a)%Z
           && (0 <? sc_totalOnPages a)%Z
        then round_ratio (sc_allMatched a) (sc_totalOnPages a)
               (sc_totalListings a)
        else sc_allMatched a in
      {| s_numForSale := matchedCount;
         s_scrapedTotal := Some (sc_totalListings a);
         s_lowestPrice := sc_lowestPrice a;
         s_medianPrice := medianPrice |}
  end.

(** One iteration of the loop of [handleFilteredStats]; [url] is
    [m.sellUrl]. *)
Definition filtered_step (usOnly vgPlus : bool) (h : filtered_acc)
    (url : jsval) : filtered_acc :=
  if negb (truthy url) then h
  else
    let u := or_empty url in
    let sortedUrl := u ++ query_sep u ++ js "sort=price%2Casc" in
    let stats := scrapeFilteredListings sortedUrl usOnly vgPlus in
    {| h_totalForSale := h_totalForSale h + s_numForSale stats;
       h_scrapedTotal := add_nan (h_scrapedTotal h) (s_scrapedTotal stats);
       h_allLowest := match s_lowestPrice stats with
                      | Some x => if below_sentinel x (h_allLowest h)
                                  then Some x else h_allLowest h
                      | None => h_allLowest h
                      end;
       h_allMedians := match s_medianPrice stats with
                       | Some m => h_allMedians h ++ [m]
                       | None => h_allMedians h
                       end;
       h_matchStats := h_matchStats h ++ [stats] |}%Z.

(** [handleFilteredStats(matches, usOnly, vgPlus)], on the [sellUrl]s of
    the matches. *)
Definition handleFilteredStats (matches : list jsval)
    (usOnly vgPlus : bool) : FilteredStats :=
  let h := fold_left (filtered_step usOnly vgPlus) matches
             {| h_totalForSale := 0; h_scrapedTotal := Some 0%Z;
                h_allLowest := None; h_allMedians := [];
                h_matchStats := [] |}%Z in
  {| f_numForSale := h_totalForSale h;
     f_scrapedTotal := h_scrapedTotal h;
     f_lowestPrice := h_allLowest h;
     f_medianPrice := computeMedian (sort_num (h_allMedians h));
     f_matchStats := h_matchStats h |}.

(** The sell page [gatherPricing] reads for a match, if any. *)
Definition pricing_url (m : ReleaseRef) : option str :=
  if id_truthy (releaseId m)
  then Some (js "https://www.discogs.com/sell/release/"
             ++ id_str (releaseId m) ++ js "?ev=rb&sort=price%2Casc")
  else if id_truthy (masterId m)
  then Some (js "https://www.discogs.com/sell/list?master_id="
             ++ id_str (masterId m)
             ++ js "&ev=mb&format=Vinyl&sort=price%2Casc")
  else None.

(** The page [gatherPricing] gets to parse: none without a URL, on an
    exception or on a response that is not [ok]. *)
Definition pricing_page (m : ReleaseRef) : option PageParseResult :=
  match pricing_url m with
  | None => None
  | Some sellUrl =>
      match fetch sellUrl with
      | Response true spHtml => Some (parseFilteredPage spHtml false false)
      | _ => None
      end
  end.

(** [gatherPricing(match, usOnly)].  [medianSource] is the array
    [scrapedPrices] itself, so the sort in place also orders the
    [scrapedPrices] that is returned. *)
Definition gatherPricing (m : ReleaseRef) (usOnly : bool) : Pricing :=
  let pg := pricing_page m in
  let totalForSale :=
    match pg with
    | Some r => if (0 <? total r)%Z then total r else 0%Z
    | None => 0%Z
    end in
  let scrapedPrices := match pg with Some r => prices r | None => [] end in
  let lowestPrice := match pg with Some r => lowest r | None => None end in
  let medianSource := sort_num scrapedPrices in
  {| p_totalForSale := totalForSale;
     p_lowestPrice := lowestPrice;
     p_medianPrice := computeMedian medianSource;
     p_scrapedPrices := medianSource |}.

(** [makeSellUrl(m, query)]; [None] when [encodeURIComponent] throws. *)
Definition makeSellUrl (m : ReleaseRef) (query : str) : option str :=
  if id_truthy (releaseId m)
  then Some (js "https://www.discogs.com/sell/release/"
             ++ id_str (releaseId m) ++ js "?ev=rb")
  else if id_truthy (masterId m)
  then Some (js "https://www.discogs.com/sell/list?master_id="
             ++ id_str (masterId m) ++ js "&ev=mb&format=Vinyl")
  else match encodeURIComponent query with
       | Some q => Some (js "https://www.discogs.com/search/?q=" ++ q
                         ++ js "&format=Vinyl")
       | None => None
       end.

(** The variables of the loop of [buildResult] after an iteration. *)
Definition build_update (usOnly : bool) (b : build_acc) (m : ReleaseRef)
  : build_acc :=
  let p := gatherPricing m usOnly in
  {| b_totalForSale := (b_totalForSale b + p_totalForSale p)%Z;
     b_globalLowest :=
       match p_lowestPrice p with
       | Some x => if below_sentinel x (b_globalLowest b)
                   then Some x else b_globalLowest b
       | None => b_globalLowest b
       end;
     b_allPrices :=
       match p_scrapedPrices p with
       | _ :: _ => b_allPrices b ++ p_scrapedPrices p
       | [] =>
           b_allPrices b
           ++ match p_lowestPrice p with Some x => [x] | None => [] end
           ++ match p_medianPrice p with Some x => [x] | None => [] end
       end;
     b_matchDetails :=
       b_matchDetails b
       ++ [ {| d_ref := m; d_numForSale := p_totalForSale p;
               d_lowestPrice := p_lowestPrice p;
               d_medianPrice := p_medianPrice p |} ] |}.

(** One iteration of the loop of [buildResult]: the entry it pushes holds
    [makeSellUrl(m, query)], which may throw ([None]). *)
Definition build_step (query : str) (usOnly : bool) (b : build_acc)
    (m : ReleaseRef) : option build_acc :=
  match makeSellUrl m query with
  | Some _ => Some (build_update usOnly b m)
  | None => None
  end.

(** The loop of [buildResult]; [None] when an iteration throws. *)
Fixpoint build_loop (query : str) (usOnly : bool) (matches : list ReleaseRef)
    (b : build_acc) : option build_acc :=
  match matches with
  | [] => Some b
  | m :: matches' =>
      match build_step query usOnly b m with
      | Some b' => build_loop query usOnly matches' b'
      | None => None
      end
  end.

(** [buildResult(matches, query, usOnly)]; [None] when the call throws:
    in the loop, or after it at [primary.masterId], [primary] being
    [matchDetails[0] || matches[0]], which is [undefined] when [matches] is
    empty. *)
Definition buildResult (matches : list ReleaseRef) (query : str)
    (usOnly : bool) : option AggregateStats :=
  match build_loop query usOnly matches
          {| b_totalForSale := 0; b_globalLowest := None;
             b_allPrices := []; b_matchDetails := [] |}%Z with
  | None => None
  | Some b =>
      match matches with
      | [] => None
      | _ :: _ =>
          Some {| r_matchCount := Z.of_nat (length matches);
                  r_numForSale := b_totalForSale b;
                  r_lowestPrice := b_globalLowest b;
                  r_medianPrice := computeMedian (sort_num (b_allPrices b));
                  r_matches :=
                    sort_details
                      (filter (fun d => (0 <? d_numForSale d)%Z)
                         (b_matchDetails b)) |}
      end
  end.

End Network.

(** ** Filtered display ([showFilteredData] of the popup) *)

(** The part of [cachedData.global] the display reads. *)
Record GlobalStats : Type := {
  g_numForSale : Z;
  g_lowestPrice : option Q;
  g_medianPrice : option Q;
  g_vgPlusPrice : option Q;
  g_lowestGrade : option str
}.

(** The object handed to [renderStats]. *)
Record ShownStats : Type := {
  shown_numForSale : Z;
  shown_lowestPrice : option Q;
  shown_medianPrice : option Q;
  shown_vgPlusPrice : option Q;
  shown_lowestGrade : option str
}.

(** [Math.min(n, cap || Infinity)] *)
Definition min_or_inf (n cap : Z) : Z :=
  if (cap =? 0)%Z then n else Z.min n cap.

(** [a != null ? a : b] *)
Definition or_else (a b : option Q) : option Q :=
  match a with
  | Some _ => a
  | None => b
  end.

(** The statistics [showFilteredData(fData, matches)] displays, for the
    toggle state [vg] and the cached aggregate [g]. *)
Definition showFilteredData (vg : bool) (g : GlobalStats)
    (fData : FilteredStats) : ShownStats :=
  let fLowest := f_lowestPrice fData in
  let fMedian := f_medianPrice fData in
  let cappedTotal := min_or_inf (f_numForSale fData) (g_numForSale g) in
  let useScrapedPrices := vg || (cappedTotal <? g_numForSale g)%Z in
  let displayLowest :=
    if (0 <? cappedTotal)%Z
    then if useScrapedPrices then or_else fLowest (g_lowestPrice g)
         else g_lowestPrice g
    else None in
  let displayMedian :=
    if (0 <? cappedTotal)%Z
    then if useScrapedPrices then or_else fMedian (g_medianPrice g)
         else g_medianPrice g
    else None in
  {| shown_numForSale := cappedTotal;
     shown_lowestPrice := displayLowest;
     shown_medianPrice := displayMedian;
     shown_vgPlusPrice := if (0 <? cappedTotal)%Z then g_vgPlusPrice g
                          else None;
     shown_lowestGrade := if useScrapedPrices then None
                          else g_lowestGrade g |}.

(** One row of the list of releases: the count shown and the price shown
    ([None] is the dash). *)
Record ShownRow : Type := { row_numForSale : Z; row_price : option Q }.

(** The row of match [m] given its entry [msRaw] of [fData.matchStats]
    ([None] when the entry is missing). *)
Definition shown_row (vg : bool) (m : MatchDetail)
    (msRaw : option ScrapeStats) : ShownRow :=
  let raw_n := match msRaw with Some s => s_numForSale s | None => 0%Z end in
  let raw_low := match msRaw with Some s => s_lowestPrice s | None => None end in
  let ms_n := min_or_inf raw_n (d_numForSale m) in
  let useMatchScraped := vg || (ms_n <? d_numForSale m)%Z in
  let msPrice := if useMatchScraped then or_else raw_low (d_lowestPrice m)
                 else d_lowestPrice m in
  {| row_numForSale := ms_n;
     row_price := if (0 <? ms_n)%Z then msPrice else None |}.

(** ** Vocabulary of the statements *)

(** [rep_from r rep prev s]: the global replacement resumed in the middle of
    a string, [prev] being the code unit before [s]. *)
Definition emit (rep : str) (p : piece) : str :=
  match p with
  | Lit c => [c]
  | Hit _ _ => rep
  end.

Definition rep_from (r : regex) (rep : str) (prev : option N) (s : str) : str :=
  flat_map (emit rep) (scan r prev 0 s).

(** The last code unit of [t], or [prev] when [t] is empty. *)
Definition last_or (prev : option N) (t : str) : option N :=
  match rev t with
  | c :: _ => Some c
  | [] => prev
  end.

(** No two blanks in a row. *)
Fixpoint no_double_space (s : str) : bool :=
  match s with
  | a :: s' =>
      match s' with
      | b :: _ => negb ((a =? 32) && (b =? 32)) && no_double_space s'
      | [] => true
      end
  | [] => true
  end.

(** The shape of a normalised string: small letters, digits and blanks
    only; blanks single, none at either end. *)
Definition normal_form (s : str) : Prop :=
  Forall (fun c => is_alnum c = true \/ c = 32) s
  /\ no_double_space s = true
  /\ hd_error s <> Some 32
  /\ hd_error (rev s) <> Some 32.

(** [pat] occurs in [s] at index [i]; [i] is the first such index. *)
Definition occurs_at (pat s : str) (i : nat) : Prop :=
  exists pre post, s = pre ++ pat ++ post /\ length pre = i.

Definition first_occurrence (pat s : str) (i : nat) : Prop :=
  occurs_at pat s i /\ forall j, (j < i)%nat -> ~ occurs_at pat s j.


(** Was the pagination pattern found? *)
Definition hasPagination (html : str) : bool :=
  match match_first re_count html with
  | Some _ => true
  | None => false
  end.

Definition is_validated (block : str) : bool :=
  match validated block with
  | Some _ => true
  | None => false
  end.

(** The number of validated (non-phantom) blocks of a page. *)
Definition validated_count (html : str) : Z :=
  Z.of_nat (length (filter is_validated (listing_blocks html))).

(** What [/[^a-z0-9\s]/g] leaves in place. *)
Definition keep (c : N) : bool := is_alnum c || is_space c.

Definition ok_char (c : N) : Prop := is_alnum c = true \/ c = 32.

(** [\b] between a code unit and its successor, [None] being an end of the
    input. *)
Definition boundary (l r : option N) : bool :=
  xorb (is_word_opt l) (is_word_opt r).

(** [/\bp\b/] on code units. *)
Definition re_word_units (p : str) : regex :=
  Seq WordB (Seq (lit_units p) WordB).

(** A normalised string read as its words: non-empty runs of small letters
    and digits, joined by single blanks. *)
Definition good_tok (w : str) : Prop :=
  w <> [] /\ Forall (fun c => is_alnum c = true) w.

Fixpoint unwords (ws : list str) : str :=
  match ws with
  | [] => []
  | w :: ws' => w ++ match ws' with
                     | [] => []
                     | _ :: _ => 32 :: unwords ws'
                     end
  end.

Definition sep_tail (ws : list str) : str :=
  match ws with
  | [] => []
  | _ :: _ => 32 :: unwords ws
  end.

(** [t] is [raw] without the white space at its two ends. *)
Definition trimmed_of (raw t : str) : Prop :=
  (exists pre post,
      raw = pre ++ t ++ post
      /\ Forall (fun c => is_space c = true) pre
      /\ Forall (fun c => is_space c = true) post)
  /\ (forall c, hd_error t = Some c -> is_space c = false)
  /\ (forall c, hd_error (rev t) = Some c -> is_space c = false).

(** The words of a string: the pieces without a blank that give the string
    back when they are joined by single blanks.  A string has one such list
    of pieces; two blanks in a row have an empty word between them. *)
Definition words_of (s : str) (ws : list str) : Prop :=
  ws <> [] /\ Forall (fun w => ~ In 32 w) ws /\ s = unwords ws.

(** [w] is a whole word of [s]. *)
Definition word_of (w s : str) : Prop :=
  exists ws, words_of s ws /\ In w ws.

(** Every word of [small] is a whole word of [big]. *)
Definition word_set_contained (small big : str) : Prop :=
  forall w, word_of w small -> word_of w big.

(** The substitutions of [fuzzyNorm] read on words: one word for one word,
    and two neighbours for one word. *)
Definition sub_tok (p rep w : str) : str := if str_eqb w p then rep else w.

Fixpoint merge2 (p1 p2 rep : str) (ws : list str) : list str :=
  match ws with
  | [] => []
  | w :: ws' =>
      match ws' with
      | n :: ws'' =>
          if str_eqb w p1 && str_eqb n p2 then rep :: merge2 p1 p2 rep ws''
          else w :: merge2 p1 p2 rep ws'
      | [] => [w]
      end
  end.

Fixpoint no_pair (p1 p2 : str) (ws : list str) : Prop :=
  match ws with
  | w :: ws' =>
      match ws' with
      | n :: _ => ~ (w = p1 /\ n = p2) /\ no_pair p1 p2 ws'
      | [] => True
      end
  | [] => True
  end.

Definition fuzzy_tokens (ws : list str) : list str :=
  List.map (sub_tok (js "tha") (js "the"))
    (merge2 (js "mid") (js "night") (js "midnigh")
       (List.map (sub_tok (js "midnite") (js "midnigh"))
          (List.map (sub_tok (js "midnight") (js "midnigh"))
             (List.map (sub_tok (js "nite") (js "night")) ws)))).

(** The part of [fuzzyNorm] that follows [normalize]. *)
Definition fuzzy_after (s0 : str) : str :=
  let s1 := replace_all (re_word "nite") (js "night") s0 in
  let s2 := replace_all (re_word "midnight") (js "midnigh") s1 in
  let s3 := replace_all (re_word "midnite") (js "midnigh") s2 in
  let s4 := replace_all (re_word "mid night") (js "midnigh") s3 in
  let s5 := replace_all (re_word "tha") (js "the") s4 in
  trim (replace_all re_spaces (js " ") s5).

(** The words none of the substitutions of [fuzzyNorm] applies to. *)
Definition settled (ws : list str) : Prop :=
  Forall (fun w => w <> js "nite") ws
  /\ Forall (fun w => w <> js "midnight") ws
  /\ Forall (fun w => w <> js "midnite") ws
  /\ no_pair (js "mid") (js "night") ws
  /\ Forall (fun w => w <> js "tha") ws.

(** The kind of an entry is "track", or the entry has no kind: [type_] is
    missing, [null] or the empty string. *)
Definition kind_track_or_none (t : TracklistEntry) : Prop :=
  type_ t = Undefined \/ type_ t = Null \/ type_ t = Str []
  \/ type_ t = Str (js "track").

(** An entry the matcher looks at: of kind "track" or without a kind, with
    a normalised title that is not empty. *)
Definition eligible_entry (t : TracklistEntry) : Prop :=
  kind_track_or_none t /\ normalize (title t) <> [].

(** Whole-word-set containment in either direction, on the normalised and
    on the fuzzy forms of a title and a track name. *)
Definition words_overlap (t : TracklistEntry) (trackName : jsval) : Prop :=
  word_set_contained (normalize trackName) (normalize (title t))
  \/ word_set_contained (normalize (title t)) (normalize trackName)
  \/ word_set_contained (fuzzyNorm trackName) (fuzzyNorm (title t))
  \/ word_set_contained (fuzzyNorm (title t)) (fuzzyNorm trackName).

(** A tracklist entry without a kind, for the examples. *)
Definition titled (s : string) : TracklistEntry :=
  {| type_ := Undefined; title := Str (js s) |}.

(** Does a block count as matched: validated, and through the filters? *)
Definition passes_filters (usOnly vgPlus : bool) (block : str) : bool :=
  match validated block with
  | None => false
  | Some condMatch =>
      negb (vgPlus && negb (isVGPlusOrBetter (group_text 1 condMatch)))
      && negb (usOnly && negb (ships_from_us block))
  end.

Definition price_list (o : option Q) : list Q :=
  match o with
  | Some v => [v]
  | None => []
  end.








(** [w] equals [p] up to the case of ASCII letters. *)
Definition same_fold (p w : str) : Prop :=
  List.map fold_case w = List.map fold_case p.
















(** The medians of the entities of a filtered aggregate. *)
Definition entity_medians (stats : list ScrapeStats) : list Q :=
  flat_map (fun s => price_list (s_medianPrice s)) stats.

(** Two sell pages and the network that serves them, for the examples. *)
Definition page_three : str :=
  js "Media Condition: Mint (M) $1.00 Ships From: United States
      Media Condition: Mint (M) $2.00 Ships From: United States
      Media Condition: Mint (M) $3.00 Ships From: United States".

Definition page_one : str :=
  js "Media Condition: Mint (M) $10.00 Ships From: United States".

Definition two_releases (url : str) : fetch_result :=
  if str_eqb url
       (js "https://www.discogs.com/sell/release/1?ev=rb&sort=price%2Casc")
  then Response true page_three
  else if str_eqb url
            (js "https://www.discogs.com/sell/release/2?ev=rb&sort=price%2Casc")
  then Response true page_one
  else FetchThrows.

Definition bump (b : bool) : Z := if b then 1%Z else 0%Z.

(** The prices [buildResult] pools: for every match, the prices of all the
    listings of its page (ordered, by the sort in place). *)
Definition pooled_prices (fetch : str -> fetch_result)
    (matches : list ReleaseRef) : list Q :=
  flat_map (fun m => sort_num (match pricing_page fetch m with
                               | Some r => prices r
                               | None => []
                               end)) matches.

(** ** Request pacing ([rateOk]) *)

(** The [while] loop of [rateOk]: [stamps.shift()] as long as the oldest
    stamp is older than the window. *)
Fixpoint shift_old (now windowMs : Z) (stamps : list Z) : list Z :=
  match stamps with
  | t :: stamps' =>
      if (windowMs <? now - t)%Z then shift_old now windowMs stamps'
      else stamps
  | [] => []
  end.

(** [rateOk(stamps, limit, windowMs)] at the time [now] (the value of
    [Date.now()]): the answer, and the array [stamps] as the call leaves
    it. *)
Definition rateOk (now : Z) (stamps : list Z) (limit windowMs : Z)
  : bool * list Z :=
  let stamps' := shift_old now windowMs stamps in
  ((Z.of_nat (length stamps') <? limit)%Z, stamps').

(** ** Search result URLs ([parseDiscogsUrl], [googleDiscogsSearch]) *)

Inductive result_type : Type := Master | Release.

(** An entry of the result of [googleDiscogsSearch]; [gr_id] is [None] for
    [NaN]. *)
Record GoogleResult : Type := {
  gr_type : result_type;
  gr_id : option Z;
  gr_url : str
}.

(** [String(n)] for the result of [parseInt]. *)
Definition num_str (n : option Z) : str :=
  match n with
  | Some z => dec_str z
  | None => js "NaN"
  end.

(** [[^/]] *)
Definition not_slash (c : N) : bool := negb (c =? 47).

(** [/discogs\.com\/(?:[^/]+\/)?master\/(\d+)/] *)
Definition re_master_url : regex :=
  seq_of [ lit "discogs.com/"; Opt (seq_of [Plus (Chr not_slash); lit "/"]);
           lit "master/"; Group 1 (Plus digit) ].

(** [/discogs\.com\/(?:[^/]+\/)?release\/(\d+)/] *)
Definition re_release_url : regex :=
  seq_of [ lit "discogs.com/"; Opt (seq_of [Plus (Chr not_slash); lit "/"]);
           lit "release/"; Group 1 (Plus digit) ].

(** The array [results] and the keys of the object [seen], which
    [parseDiscogsUrl] updates in place. *)
Definition url_state : Type := (list GoogleResult * list str)%type.

(** One of the two [if] blocks of [parseDiscogsUrl]: [prefix] is "m" or
    "r". *)
Definition note_match (r : regex) (prefix : string) (ty : result_type)
    (url : str) (st : url_state) : url_state :=
  match match_first r url with
  | None => st
  | Some m =>
      let id := parseInt (group_text 1 m) in
      let key := js prefix ++ num_str id in
      if str_in key (snd st) then st
      else (fst st ++ [ {| gr_type := ty; gr_id := id; gr_url := url |} ],
            snd st ++ [key])
  end.

(** [parseDiscogsUrl(url, results, seen)] *)
Definition parseDiscogsUrl (url : str) (st : url_state) : url_state :=
  note_match re_release_url "r" Release url
    (note_match re_master_url "m" Master url st).

(** [[^&"]] and [[^"]] *)
Definition not_amp_quote (c : N) : bool := negb ((c =? 38) || (c =? 34)).
Definition not_quote (c : N) : bool := negb (c =? 34).

(** [https?:\/\/www\.discogs\.com\/] *)
Definition re_discogs_host : regex :=
  seq_of [lit "http"; Opt (lit "s"); lit "://www.discogs.com/"].

(** [redirectPattern] *)
Definition re_redirect : regex :=
  seq_of [ lit "/url?q=";
           Group 1 (seq_of [re_discogs_host; Plus (Chr not_amp_quote)]) ].

(** [directPattern]; the pattern begins with [href=] and a double quote and
    ends with a double quote (code unit 34). *)
Definition re_direct : regex :=
  seq_of [ lit "href="; Chr (N.eqb 34);
           Group 1 (seq_of [re_discogs_host; Plus (Chr not_quote)]);
           Chr (N.eqb 34) ].

(** [textPattern] *)
Definition re_text_url : regex :=
  seq_of [ re_discogs_host; Alt (lit "release") (lit "master"); lit "/";
           Group 1 (Plus digit) ].

Section Discovery.

Variable fetch : str -> fetch_result.

(** [encodeURIComponent] and [decodeURIComponent]; [None] when the call
    throws a [URIError]. *)
Variables encodeURIComponent decodeURIComponent : str -> option str.

(** The first [while] loop of [googleDiscogsSearch], over the matches of
    [redirectPattern]; [None] when [decodeURIComponent] throws. *)
Fixpoint redirect_loop (ms : list rmatch_result) (st : url_state)
  : option url_state :=
  match ms with
  | [] => Some st
  | m :: ms' =>
      match decodeURIComponent (group_text 1 m) with
      | None => None
      | Some decoded => redirect_loop ms' (parseDiscogsUrl decoded st)
      end
  end.

(** [googleDiscogsSearch(query)]; [None] when the call throws. *)
Definition googleDiscogsSearch (query : str) : option (list GoogleResult) :=
  let searchQuery := query ++ js " discogs vinyl" in
  match encodeURIComponent searchQuery with
  | None => None
  | Some q =>
      let url := js "https://www.google.com/search?q=" ++ q ++ js "&num=10" in
      match fetch url with
      | FetchThrows => None
      | Response false _ => Some []
      | Response true html =>
          match redirect_loop (exec_all re_redirect html) ([], []) with
          | None => None
          | Some st1 =>
              let st2 :=
                fold_left (fun st m => parseDiscogsUrl (group_text 1 m) st)
                  (exec_all re_direct html) st1 in
              let st3 :=
                fold_left (fun st m => parseDiscogsUrl (m_text m) st)
                  (exec_all re_text_url html) st2 in
              Some (fst st3)
          end
      end
  end.

End Discovery.

(** ** Release details ([extractArtistNames], [isVinylFormat]) *)

(** [s.replace(/r/, rep)] without the [g] flag and without [$] patterns:
    the leftmost match only. *)
Definition replace_first (r : regex) (rep : str) (s : str) : str :=
  match match_first r s with
  | None => s
  | Some m =>
      m_before m ++ rep
      ++ skipn (length (m_before m) + length (m_text m)) s
  end.

(** [arr.join(sep)] *)
Fixpoint join (sep : str) (l : list str) : str :=
  match l with
  | [] => []
  | a :: l' => a ++ match l' with
                    | [] => []
                    | _ :: _ => sep ++ join sep l'
                    end
  end.

(** The pattern of [extractArtistNames]: white space, a number in
    parentheses, the end of the input. *)
Definition re_disambiguation : regex :=
  seq_of [Star white; lit "("; Plus digit; lit ")"; Eoi].

(** [extractArtistNames(discogsArtists)]; an artist is given by its [name],
    [None] is a missing array. *)
Definition extractArtistNames (discogsArtists : option (list jsval)) : str :=
  match discogsArtists with
  | None => []
  | Some l =>
      join (js ", ")
        (List.map (fun a => replace_first re_disambiguation [] (or_empty a)) l)
  end.

(** [/vinyl/i] *)
Definition re_vinyl : regex := liti "vinyl".

(** The [for] loop of [isVinylFormat], over the [name]s of the formats. *)
Fixpoint vinyl_scan (formats : list jsval) : bool :=
  match formats with
  | [] => false
  | f :: more =>
      if test re_vinyl (or_empty f) then true else vinyl_scan more
  end.

(** [isVinylFormat(formats)]; a format is given by its [name]. *)
Definition isVinylFormat (formats : option (list jsval)) : bool :=
  match formats with
  | None => false
  | Some l => if (length l =? 0)%nat then false else vinyl_scan l
  end.

(** ** Result cache ([pruneCache]) *)

Definition CACHE_TTL : Z := (10 * 60 * 1000)%Z.
Definition CACHE_MAX : nat := 50.

(** An entry of [searchCache] with its key; the cached [data] takes no part
    in the pruning. *)
Record CacheEntry : Type := { c_key : str; c_time : Z }.

(** [now - searchCache[k].time > CACHE_TTL] *)
Definition expired (now : Z) (e : CacheEntry) : bool :=
  (CACHE_TTL <? now - c_time e)%Z.

(** The inner [for] loop of the eviction: the first entry with the smallest
    [time]. *)
Fixpoint oldest_of (oldest : CacheEntry) (more : list CacheEntry)
  : CacheEntry :=
  match more with
  | [] => oldest
  | e :: more' =>
      if (c_time e <? c_time oldest)%Z then oldest_of e more'
      else oldest_of oldest more'
  end.

(** [delete searchCache[k]; keys.splice(keys.indexOf(k), 1)] *)
Fixpoint remove_key (k : str) (cache : list CacheEntry) : list CacheEntry :=
  match cache with
  | [] => []
  | e :: cache' =>
      if str_eqb (c_key e) k then cache' else e :: remove_key k cache'
  end.

(** The [while] loop of [pruneCache]; every round removes an entry, so the
    number of entries bounds the number of rounds. *)
Fixpoint evict (rounds : nat) (cache : list CacheEntry) : list CacheEntry :=
  match rounds with
  | O => cache
  | S rounds' =>
      if (CACHE_MAX <=? length cache)%nat
      then match cache with
           | [] => cache
           | e :: more =>
               evict rounds' (remove_key (c_key (oldest_of e more)) cache)
           end
      else cache
  end.

(** [pruneCache()] at the time [now], on the entries of [searchCache] in
    the order of [Object.keys].  The first loop runs from the last key to
    the first and removes in place, which leaves the other keys in their
    order. *)
Definition pruneCache (now : Z) (cache : list CacheEntry) : list CacheEntry :=
  let live := filter (fun e => negb (expired now e)) cache in
  evict (length live) live.

(** ** Filter controls of the popup *)

(** [url.includes(x)] *)
Definition includes (s x : str) : bool := (0 <=? indexOf s x)%Z.

(** [buildFilteredUrl(url, usOnly, vgPlus)] of the popup *)
Definition buildFilteredUrl (url : jsval) (usOnly vgPlus : bool) : jsval :=
  if negb (truthy url) then url
  else
    let u := or_empty url in
    let sep := if includes u (js "?") then js "&" else js "?" in
    if usOnly then Str (u ++ sep ++ js "ships_from=United+States")
    else Str u.

(** ** The grade of the lowest price (end of [gatherPricing]) *)



(** ** Release details ([expandMasterVersions], [fetchDiscogsDetails],
       [findMatchingReleases]) *)

(** An entry of the [versions] of a master: [id] and [major_formats] may be
    missing. *)
Record Version : Type := {
  v_id : option Z;
  v_major_formats : option (list str)
}.

(** An object of the Discogs API, as far as the program reads it (the
    display fields [title], [artists], [year], [images] and the counts
    [num_for_sale], [lowest_price], which [buildResult] never reads, are
    left out); every property may be missing. *)
Record ApiObject : Type := {
  o_tracklist : option (list TracklistEntry);
  o_master_id : option Z;
  o_formats : option (list jsval);
  o_versions : option (list Version)
}.

(** What [await discogsGet(path)] can do: throw, return [null], or return
    the object of the response. *)
Inductive api_result : Type :=
| ApiThrows
| ApiNull
| ApiData (o : ApiObject).

(** [!trackName || tracklistContains(o.tracklist, trackName)] *)
Definition track_ok (trackName : str) (o : ApiObject) : bool :=
  match trackName with
  | [] => true
  | _ :: _ => tracklistContains (o_tracklist o) (Str trackName)
  end.

(** [v.major_formats && v.major_formats.indexOf("Vinyl") >= 0] *)
Definition is_vinyl_version (v : Version) : bool :=
  match v_major_formats v with
  | Some l => str_in (js "Vinyl") l
  | None => false
  end.

(** The variables of the loop of [fetchDiscogsDetails]: [matches] (a match
    is given by its two numbers) and the keys of the objects [seenMasters]
    and [seenReleases]. *)
Record details_state : Type := {
  ds_matches : list ReleaseRef;
  ds_seenMasters : list str;
  ds_seenReleases : list str
}.

Section Details.

Variable fetch : str -> fetch_result.
Variables encodeURIComponent decodeURIComponent : str -> option str.

(** The Discogs API, as the program sees it: the token, the pacing and the
    retries of [discogsGet] are part of what a call does. *)
Variable discogsGet : str -> api_result.

(** The [for] loop of [expandMasterVersions]: the matches it pushes and the
    keys of [seenReleases] afterwards. *)
Fixpoint versions_loop (masterId : option Z) (vs : list Version)
    (seenReleases : list str) : list ReleaseRef * list str :=
  match vs with
  | [] => ([], seenReleases)
  | v :: vs' =>
      if negb (is_vinyl_version v)
      then versions_loop masterId vs' seenReleases
      else if str_in (id_str (v_id v)) seenReleases
      then versions_loop masterId vs' seenReleases
      else
        let more := versions_loop masterId vs'
                      (seenReleases ++ [id_str (v_id v)]) in
        ({| masterId := masterId; releaseId := v_id v |} :: fst more,
         snd more)
  end.

(** [expandMasterVersions(master, masterId, seenReleases)]; [master] is
    read for display fields only.  An exception of [discogsGet] is caught
    and leaves [results] empty. *)
Definition expandMasterVersions (masterId : option Z)
    (seenReleases : list str) : list ReleaseRef * list str :=
  let vList :=
    match discogsGet (js "/masters/" ++ num_str masterId ++ js "/versions") with
    | ApiData versionsData =>
        match o_versions versionsData with
        | Some l => l
        | None => []
        end
    | _ => []
    end in
  let found := versions_loop masterId (firstn 10 vList) seenReleases in
  match fst found with
  | [] => ([ {| masterId := masterId; releaseId := None |} ], snd found)
  | _ :: _ => found
  end.

(** The matches of a master are added to [matches]. *)
Definition add_versions (masterId : option Z) (st : details_state)
  : details_state :=
  let vm := expandMasterVersions masterId (ds_seenReleases st) in
  {| ds_matches := ds_matches st ++ fst vm;
     ds_seenMasters := ds_seenMasters st;
     ds_seenReleases := snd vm |}.

Definition see_master (key : str) (st : details_state) : details_state :=
  {| ds_matches := ds_matches st;
     ds_seenMasters := ds_seenMasters st ++ [key];
     ds_seenReleases := ds_seenReleases st |}.

(** The end of the branch for a release: the release itself, when it is on
    vinyl and has the track. *)
Definition release_itself (trackName : str) (id : option Z) (rel : ApiObject)
    (st : details_state) : details_state :=
  if negb (isVinylFormat (o_formats rel)) then st
  else if negb (track_ok trackName rel) then st
  else {| ds_matches :=
            ds_matches st ++ [ {| masterId := None; releaseId := id |} ];
          ds_seenMasters := ds_seenMasters st;
          ds_seenReleases := ds_seenReleases st |}.

(** One iteration of the loop of [fetchDiscogsDetails]; [None] when
    [discogsGet] throws. *)
Definition details_step (trackName : str) (st : details_state)
    (gr : GoogleResult) : option details_state :=
  match gr_type gr with
  | Master =>
      let key := num_str (gr_id gr) in
      if str_in key (ds_seenMasters st) then Some st
      else
        let st1 := see_master key st in
        match discogsGet (js "/masters/" ++ key) with
        | ApiThrows => None
        | ApiNull => Some st1
        | ApiData master =>
            if negb (track_ok trackName master) then Some st1
            else Some (add_versions (gr_id gr) st1)
        end
  | Release =>
      match discogsGet (js "/releases/" ++ num_str (gr_id gr)) with
      | ApiThrows => None
      | ApiNull => Some st
      | ApiData rel =>
          if id_truthy (o_master_id rel)
          then
            let key := id_str (o_master_id rel) in
            if str_in key (ds_seenMasters st) then Some st
            else
              let st1 := see_master key st in
              match discogsGet (js "/masters/" ++ key) with
              | ApiThrows => None
              | ApiNull => Some (release_itself trackName (gr_id gr) rel st1)
              | ApiData mst =>
                  if track_ok trackName mst
                  then Some (add_versions (o_master_id rel) st1)
                  else Some (release_itself trackName (gr_id gr) rel st1)
              end
          else Some (release_itself trackName (gr_id gr) rel st)
      end
  end.

Fixpoint details_loop (trackName : str) (grs : list GoogleResult)
    (st : details_state) : option details_state :=
  match grs with
  | [] => Some st
  | gr :: grs' =>
      match details_step trackName st gr with
      | None => None
      | Some st' => details_loop trackName grs' st'
      end
  end.

(** [fetchDiscogsDetails(googleResults, trackName)]; [None] when it
    throws. *)
Definition fetchDiscogsDetails (googleResults : list GoogleResult)
    (trackName : str) : option (list ReleaseRef) :=
  match details_loop trackName (firstn 5 googleResults)
          {| ds_matches := []; ds_seenMasters := [];
             ds_seenReleases := [] |} with
  | Some st => Some (ds_matches st)
  | None => None
  end.

(** [parsed.track || query] *)
Definition track_of (query : str) : str :=
  match track (parseArtistTrack query) with
  | [] => query
  | _ :: _ => track (parseArtistTrack query)
  end.

(** [findMatchingReleases(query)]; [None] when it throws. *)
Definition findMatchingReleases (query : str) : option (list ReleaseRef) :=
  let trackName := track_of query in
  match googleDiscogsSearch fetch encodeURIComponent decodeURIComponent
          query with
  | None => None
  | Some googleResults =>
      match googleResults with
      | [] => Some []
      | _ :: _ =>
          match fetchDiscogsDetails googleResults trackName with
          | None => None
          | Some [] => fetchDiscogsDetails (firstn 1 googleResults) []
          | Some matches => Some matches
          end
      end
  end.

(** A match stands for a master or a release that [discogsGet] returned and
    that passed the check of the track (and, for a release taken by
    itself, the check of the format). *)
Definition verified (trackName : str) (m : ReleaseRef) : Prop :=
  (exists o, discogsGet (js "/masters/" ++ num_str (masterId m)) = ApiData o
             /\ track_ok trackName o = true)
  \/ (masterId m = None
      /\ exists o,
           discogsGet (js "/releases/" ++ num_str (releaseId m)) = ApiData o
           /\ track_ok trackName o = true
           /\ isVinylFormat (o_formats o) = true).

End Details.

(** ** Vocabulary of the further statements *)

(** [o] is the least element of [l], or nothing when [l] is empty. *)
Definition lowest_of (o : option Q) (l : list Q) : Prop :=
  match o with
  | None => l = []
  | Some a => In a l /\ Forall (fun x => a <= x)%Q l
  end.

(** [a] is [b] with some elements left out. *)
Inductive subseq {A : Type} : list A -> list A -> Prop :=
| subseq_nil : subseq [] []
| subseq_keep x a b : subseq a b -> subseq (x :: a) (x :: b)
| subseq_drop x a b : subseq a b -> subseq a (x :: b).

Definition sum_Z (l : list Z) : Z := fold_right Z.add 0%Z l.


(** The sorted URL [handleFilteredStats] scrapes for a [sellUrl]. *)
Definition sorted_url (u : str) : str := u ++ query_sep u ++ js "sort=price%2Casc".

(** The lowest prices of the entities of a filtered aggregate. *)
Definition entity_lowests (stats : list ScrapeStats) : list Q :=
  flat_map (fun s => price_list (s_lowestPrice s)) stats.

(** The identity of a search result: its kind and its number. *)
Definition result_key (r : GoogleResult) : result_type * option Z :=
  (gr_type r, gr_id r).

(** The prices of a list that are finite as doubles. *)
Definition finite_prices (l : list Q) : list Q :=
  filter (fun p => negb (is_Infinity p)) l.

(** What the listing loop keeps true of [lowest] and [prices]. *)
Definition prices_inv (a : listing_acc) : Prop :=
  lowest_of (acc_lowest a) (acc_prices a)
  /\ Forall (fun p => (0 < p)%Q) (acc_prices a).

(** What the page loop of [scrapeFilteredListings] keeps true. *)
Definition scrape_inv (a : scrape_acc) : Prop :=
  lowest_of (sc_lowestPrice a) (sc_allPrices a)
  /\ Forall (fun p => (0 < p)%Q) (sc_allPrices a).


(** The scrape [handleFilteredStats] runs for a [sellUrl]. *)
Definition scrape_sorted (fetch : str -> fetch_result) (usOnly vgPlus : bool)
    (u : str) : ScrapeStats :=
  scrapeFilteredListings fetch (sorted_url u) usOnly vgPlus.





(** A listing whose amount has 310 digits, which [parseFloat] reads as
    [Infinity], and a marketplace that answers every request with it. *)
Definition huge_page : str :=
  js "Media Condition: Mint (M) $" ++ repeat 57 310
  ++ js " Ships From: United States".

Definition huge_market (url : str) : fetch_result := Response true huge_page.

(** A marketplace with the first of the two sell pages only. *)
Definition one_release (url : str) : fetch_result :=
  if str_eqb url
       (js "https://www.discogs.com/sell/release/1?ev=rb&sort=price%2Casc")
  then Response true page_three
  else FetchThrows.

(** The entry [buildResult] pushes to [matchDetails] for a match. *)
Definition detail_of (fetch : str -> fetch_result) (usOnly : bool)
    (m : ReleaseRef) : MatchDetail :=
  let p := gatherPricing fetch m usOnly in
  {| d_ref := m; d_numForSale := p_totalForSale p;
     d_lowestPrice := p_lowestPrice p; d_medianPrice := p_medianPrice p |}.

(** The code units that mark a separator of [parseArtistTrack]: the pipe,
    the hyphen, the two dashes and the colon. *)
Definition sep_mark (c : N) : bool :=
  (c =? 124) || (c =? 45) || (c =? 8211) || (c =? 8212) || (c =? 58).

(** A name without separator marks and without white space at its ends. *)
Definition plain_name (s : str) : Prop :=
  Forall (fun c => sep_mark c = false) s
  /\ (forall c, hd_error s = Some c -> is_space c = false)
  /\ (forall c, hd_error (rev s) = Some c -> is_space c = false).

(** The three grades the VG+ filter lets through. *)
Definition vg_plus_labels : list str :=
  [js "Mint (M)"; js "Near Mint (NM or M-)"; js "Very Good Plus (VG+)"].

(** The eight grade labels of the marketplace, in the order of the
    condition pattern. *)
Definition grade_labels : list str := List.map fst GRADE_RANK.

(** A tag with the white space behind it. *)
Definition is_tag (t : str) : Prop :=
  exists inner sp,
    t = 60 :: inner ++ 62 :: sp
    /\ Forall (fun c => c <> 62) inner
    /\ Forall (fun c => is_space c = true) sp.

(** The label [g] stands in [block] behind [pre], white space and a run of
    tags. *)
Definition label_behind (block pre g : str) : Prop :=
  exists ws tags post,
    block = pre ++ ws ++ concat tags ++ g ++ post
    /\ Forall (fun c => is_space c = true) ws
    /\ Forall is_tag tags
    /\ In g grade_labels.

(** The first grade label of a block: the one that stands behind the
    shortest beginning of the block. *)
Definition first_label (block g : str) : Prop :=
  exists pre,
    label_behind block pre g
    /\ forall pre' g', label_behind block pre' g' ->
                       (length pre <= length pre')%nat.

(** The run of tags at the head of a string, passed over. *)
Fixpoint skip_tags (n : nat) (s : str) : str :=
  match n with
  | O => s
  | S n' =>
      match s with
      | c :: t =>
          if c =? 60
          then match drop_while (fun c => negb (c =? 62)) t with
               | _ :: u => skip_tags n' (drop_while is_space u)
               | [] => s
               end
          else s
      | [] => s
      end
  end.

(** The grade label a string starts with. *)
Definition label_at (s : str) : option str :=
  find (fun l => is_prefix l s) grade_labels.

(** The parts of the condition pattern: the alternation of the labels and
    one tag with the white space behind it. *)
Definition re_label : regex :=
  Group 1
    (Alt (lit "Mint (M)")
    (Alt (lit "Near Mint (NM or M-)")
    (Alt (lit "Very Good Plus (VG+)")
    (Alt (lit "Very Good (VG)")
    (Alt (lit "Good Plus (G+)")
    (Alt (lit "Good (G)")
    (Alt (lit "Fair (F)") (lit "Poor (P)")))))))).

Definition re_tag : regex :=
  seq_of [lit "<"; Star (Chr (fun c => negb (c =? 62))); lit ">"; Star white].

(** The continuation behind the tags: the label and the end of the
    pattern. *)
Definition after_tags (st : mstate) : option mstate :=
  rmatch (Seq re_label Eps) (fun st => Some st) st.

(** The key under which [parseDiscogsUrl] remembers a result. *)
Definition seen_key (r : GoogleResult) : str :=
  match gr_type r with
  | Master => js "m"
  | Release => js "r"
  end ++ num_str (gr_id r).

(** What [parseDiscogsUrl] keeps true of [results] and [seen]. *)
Definition url_inv (st : url_state) : Prop :=
  NoDup (List.map seen_key (fst st))
  /\ forall r, In r (fst st) -> In (seen_key r) (snd st).

(** A page of search results that names one master three times and one
    release once, and the network that serves it, for the examples. *)
Definition google_page : str :=
  js "<a href=" ++ [34] ++ js "/url?q=https://www.discogs.com/master/123&sa=U"
  ++ [34] ++ js ">A</a> <a href=" ++ [34]
  ++ js "https://www.discogs.com/Daft-Punk/master/123" ++ [34]
  ++ js ">B</a> see https://www.discogs.com/release/456 and https://www.discogs.com/master/123".

Definition google_only (url : str) : fetch_result :=
  if is_prefix (js "https://www.google.com/search?q=") url
  then Response true google_page
  else FetchThrows.

(** Does [p] begin [s], up to the case of ASCII letters? *)
Fixpoint is_prefix_ci (p s : str) : bool :=
  match p, s with
  | [], _ => true
  | a :: p', b :: s' => (fold_case b =? fold_case a) && is_prefix_ci p' s'
  | _ :: _, [] => false
  end.

(** A literal under the [i] flag, on code units. *)
Definition liti_units (p : str) : regex :=
  seq_of (List.map (fun c => Chr (fun x => fold_case x =? fold_case c)) p).

Definition is_hit (p : piece) : bool :=
  match p with
  | Hit _ _ => true
  | Lit _ => false
  end.

(** Does all of [s] have the shape of a disambiguation suffix: white
    space, an opening parenthesis, digits, a closing parenthesis? *)
Definition disambiguation_at (s : str) : bool :=
  match drop_while is_space s with
  | c :: d :: s3 =>
      (c =? 40) && is_digit d
      && match drop_while is_digit s3 with
         | e :: s5 => (e =? 41) && match s5 with [] => true | _ :: _ => false end
         | [] => false
         end
  | _ => false
  end.


(** The key of a match in [seenReleases]. *)
Definition release_key (m : ReleaseRef) : str := id_str (releaseId m).

(** What [fetchDiscogsDetails] keeps true of its matches, for the API
    [discogsGet] and the track name [trackName]. *)
Definition details_inv (discogsGet : str -> api_result) (trackName : str)
    (n : nat) (st : details_state) : Prop :=
  Forall (verified discogsGet trackName) (ds_matches st)
  /\ (length (ds_matches st) <= 10 * n)%nat.

(** A small Discogs API, for the examples: one master with two vinyl
    versions and a compact disc, and one release of that master. *)
Definition sample_api (path : str) : api_result :=
  if str_eqb path (js "/masters/123")
  then ApiData {| o_tracklist := Some [titled "Da Funk"; titled "Musique"];
                  o_master_id := None; o_formats := None;
                  o_versions := None |}
  else if str_eqb path (js "/masters/123/versions")
  then ApiData {| o_tracklist := None; o_master_id := None;
                  o_formats := None;
                  o_versions :=
                    Some [ {| v_id := Some 7%Z;
                              v_major_formats := Some [js "Vinyl"] |};
                           {| v_id := Some 8%Z;
                              v_major_formats := Some [js "CD"] |};
                           {| v_id := Some 9%Z;
                              v_major_formats := Some [js "Vinyl"] |} ] |}
  else if str_eqb path (js "/releases/456")
  then ApiData {| o_tracklist := Some [titled "Da Funk"];
                  o_master_id := Some 123%Z;
                  o_formats := Some [Str (js "Vinyl")];
                  o_versions := None |}
  else ApiNull.


(* ================================================================== *)
(** * Part II. Properties                                              *)
(* ================================================================== *)

(** ** The scan behind the global replacement *)

Lemma some_eq (A : Type) (a b : A) : Some a = Some b -> a = b.
Proof. intros H. inversion H. reflexivity. Qed.

Lemma Qltb_true a b : Qltb a b = true -> (a < b)%Q.
Proof.
  unfold Qltb. intros H. apply negb_true_iff in H.
  apply Qnot_le_lt. intros L. apply Qle_bool_iff in L. congruence.
Qed.

Lemma Qltb_false a b : Qltb a b = false -> (b <= a)%Q.
Proof.
  unfold Qltb. intros H. apply negb_false_iff in H.
  apply Qle_bool_iff. exact H.
Qed.

Lemma Qle_bool_false a b : Qle_bool a b = false -> (b <= a)%Q.
Proof.
  intros H. apply Qlt_le_weak, Qnot_le_lt. intros L.
  apply Qle_bool_iff in L. congruence.
Qed.

Lemma replace_all_rep_from r rep s : replace_all r rep s = rep_from r rep None s.
Proof. reflexivity. Qed.

Lemma last_or_cons prev c t : last_or prev (c :: t) = last_or (Some c) t.
Proof.
  unfold last_or. simpl. destruct (rev t) eqn:E; simpl; reflexivity.
Qed.

Lemma scan_skip r : forall s n prev,
  (n <= length s)%nat ->
  scan r prev n s = scan r (last_or prev (firstn n s)) 0 (skipn n s).
Proof.
  induction s as [|c s IH]; intros n prev Hn.
  - simpl in Hn. assert (n = 0)%nat by lia. subst. reflexivity.
  - destruct n as [|n].
    + reflexivity.
    + simpl in Hn. cbn [scan firstn skipn]. rewrite IH by lia.
      rewrite last_or_cons. reflexivity.
Qed.

Lemma rep_from_nil_miss r rep prev :
  match_here r prev [] = None -> rep_from r rep prev [] = [].
Proof. unfold rep_from. simpl. intros ->. reflexivity. Qed.

Lemma rep_from_miss r rep prev c s :
  match_here r prev (c :: s) = None ->
  rep_from r rep prev (c :: s) = c :: rep_from r rep (Some c) s.
Proof. unfold rep_from. cbn [scan]. intros ->. reflexivity. Qed.

Lemma rep_from_hit r rep prev c s n g :
  match_here r prev (c :: s) = Some (S n, g) ->
  (n <= length s)%nat ->
  rep_from r rep prev (c :: s)
  = rep ++ rep_from r rep (last_or (Some c) (firstn n s)) (skipn n s).
Proof.
  intros H Hn. unfold rep_from. cbn [scan]. rewrite H.
  cbn [flat_map emit]. rewrite scan_skip by exact Hn. reflexivity.
Qed.

Lemma take_drop_while p s : take_while p s ++ drop_while p s = s.
Proof.
  induction s as [|c s IH]; simpl; [reflexivity|].
  destruct (p c); simpl; [rewrite IH|]; reflexivity.
Qed.

Lemma take_drop_while_length p s :
  (length (take_while p s) + length (drop_while p s) = length s)%nat.
Proof. rewrite <- length_app, take_drop_while. reflexivity. Qed.

Lemma match_here_chr p prev c s :
  match_here (Chr p) prev (c :: s) = if p c then Some (1%nat, []) else None.
Proof.
  unfold match_here. cbn [rmatch rest caps]. destruct (p c); [|reflexivity].
  cbn [rest caps length]. f_equal. f_equal. lia.
Qed.

Lemma match_here_chr_nil p prev : match_here (Chr p) prev [] = None.
Proof. reflexivity. Qed.

Lemma rmatch_chr p k b c s g :
  rmatch (Chr p) k (MState b (c :: s) g)
  = if p c then k (MState (Some c) s g) else None.
Proof. reflexivity. Qed.

Lemma rmatch_chr_nil p k b g : rmatch (Chr p) k (MState b [] g) = None.
Proof. reflexivity. Qed.

Lemma star_chr p : forall n st,
  (length (rest st) <= n)%nat ->
  exists b, star_loop (rmatch (Chr p)) n (fun x => Some x) st
            = Some (MState b (drop_while p (rest st)) (caps st)).
Proof.
  induction n as [|n IH]; intros [b s g] Hn; cbn [rest caps] in *.
  - destruct s; [|simpl in Hn; lia]. exists b. reflexivity.
  - cbn [star_loop]. destruct s as [|c s].
    + rewrite rmatch_chr_nil. exists b. reflexivity.
    + rewrite rmatch_chr. cbn [drop_while]. destruct (p c).
      * cbn [rest length].
        replace (length s <? S (length s))%nat with true
          by (symmetry; apply Nat.ltb_lt; lia).
        destruct (IH (MState (Some c) s g)) as [b' Hb'].
        { cbn [rest]. simpl in Hn. lia. }
        rewrite Hb'. exists b'. reflexivity.
      * exists b. reflexivity.
Qed.

Lemma match_here_plus_chr p prev c s :
  match_here (Plus (Chr p)) prev (c :: s)
  = if p c then Some (S (length (take_while p s)), []) else None.
Proof.
  unfold match_here, Plus.
  change (rmatch (Seq (Chr p) (Star (Chr p))) (fun st => Some st)
            (MState prev (c :: s) []))
    with (rmatch (Chr p) (rmatch (Star (Chr p)) (fun st => Some st))
            (MState prev (c :: s) [])).
  rewrite rmatch_chr. destruct (p c); [|reflexivity].
  change (rmatch (Star (Chr p)) (fun st => Some st) (MState (Some c) s []))
    with (star_loop (rmatch (Chr p)) (length s) (fun st => Some st)
            (MState (Some c) s [])).
  destruct (star_chr p (length s) (MState (Some c) s [])) as [b Hb].
  { cbn [rest]. lia. }
  cbn [rest caps] in *. rewrite Hb. cbn [rest caps length]. f_equal. f_equal.
  pose proof (take_drop_while_length p s). lia.
Qed.

Lemma match_here_plus_chr_nil p prev : match_here (Plus (Chr p)) prev [] = None.
Proof. reflexivity. Qed.

(** ** Character classes *)

Ltac class_unfold :=
  unfold is_alnum, is_word, is_space, is_lower, is_upper, is_digit, in_range in *.

Ltac bool_to_prop :=
  repeat match goal with
  | H : _ && _ = true |- _ => apply andb_true_iff in H; destruct H
  | H : _ || _ = true |- _ => apply orb_true_iff in H; destruct H
  | H : _ && _ = false |- _ => apply andb_false_iff in H; destruct H
  | H : _ || _ = false |- _ => apply orb_false_iff in H; destruct H
  | H : negb _ = true |- _ => apply negb_true_iff in H
  | H : negb _ = false |- _ => apply negb_false_iff in H
  | H : (_ <=? _) = true |- _ => apply N.leb_le in H
  | H : (_ <=? _) = false |- _ => apply N.leb_gt in H
  | H : (_ =? _) = true |- _ => apply N.eqb_eq in H
  | H : (_ =? _) = false |- _ => apply N.eqb_neq in H
  end.

Lemma alnum_not_space c : is_alnum c = true -> is_space c = false.
Proof.
  intros H. class_unfold. bool_to_prop;
  repeat match goal with
  | |- _ || _ = false => apply orb_false_iff; split
  | |- (_ =? _) = false => apply N.eqb_neq; lia
  | |- _ && _ = false => apply andb_false_iff;
       first [left; apply N.leb_gt; lia | right; apply N.leb_gt; lia]
  end.
Qed.

Lemma alnum_is_word c : is_alnum c = true -> is_word c = true.
Proof.
  unfold is_alnum, is_word. intros H. apply orb_true_iff in H.
  destruct H as [H|H]; rewrite H; repeat rewrite orb_true_r; reflexivity.
Qed.

Lemma alnum_not_32 c : is_alnum c = true -> c <> 32.
Proof. intros H ->. vm_compute in H. discriminate. Qed.

Lemma space_not_alnum c : is_space c = true -> is_alnum c = false.
Proof.
  intros H. destruct (is_alnum c) eqn:E; [|reflexivity].
  apply alnum_not_space in E. congruence.
Qed.

Lemma lower_unit_alnum c : is_alnum c = true -> lower_unit c = [c].
Proof.
  intros H. unfold lower_unit.
  assert (is_upper c = false /\ (c =? 304) = false /\ (c =? 8490) = false)
    as (-> & -> & ->); [|reflexivity].
  class_unfold. bool_to_prop; repeat split;
  repeat match goal with
  | |- (_ =? _) = false => apply N.eqb_neq; lia
  | |- _ && _ = false => apply andb_false_iff;
       first [left; apply N.leb_gt; lia | right; apply N.leb_gt; lia]
  end.
Qed.

(** ** The two replacements of [normalize] *)

Lemma rep_from_chr_delete p : forall s prev,
  rep_from (Chr p) [] prev s = filter (fun c => negb (p c)) s.
Proof.
  induction s as [|c s IH]; intros prev.
  - apply rep_from_nil_miss. reflexivity.
  - cbn [filter]. pose proof (match_here_chr p prev c s) as M.
    destruct (p c); cbn [negb].
    + rewrite (rep_from_hit _ _ _ _ _ _ _ M) by (simpl; lia).
      cbn [firstn skipn app]. apply IH.
    + rewrite (rep_from_miss _ _ _ _ _ M). f_equal. apply IH.
Qed.

Lemma strip_is_filter s :
  replace_all re_not_alnum_space [] s = filter keep s.
Proof.
  rewrite replace_all_rep_from. unfold re_not_alnum_space.
  rewrite rep_from_chr_delete. apply filter_ext. intros c.
  apply negb_involutive.
Qed.

Lemma skipn_take_while p s : skipn (length (take_while p s)) s = drop_while p s.
Proof.
  induction s as [|c s IH]; simpl; [reflexivity|].
  destruct (p c); simpl; [apply IH|reflexivity].
Qed.

Lemma drop_while_head p s :
  match drop_while p s with
  | c :: _ => p c = false
  | [] => True
  end.
Proof.
  induction s as [|c s IH]; simpl; [exact I|].
  destruct (p c) eqn:E; [exact IH|exact E].
Qed.

Lemma drop_while_length p s : (length (drop_while p s) <= length s)%nat.
Proof. pose proof (take_drop_while_length p s). lia. Qed.

(** One step of the collapse of white space. *)
Lemma collapse_step prev c s :
  rep_from re_spaces [32] prev (c :: s)
  = if is_space c
    then 32 :: rep_from re_spaces [32]
                 (last_or (Some c) (firstn (length (take_while is_space s)) s))
                 (drop_while is_space s)
    else c :: rep_from re_spaces [32] (Some c) s.
Proof.
  pose proof (match_here_plus_chr is_space prev c s) as M.
  fold white in M. fold re_spaces in M.
  destruct (is_space c).
  - rewrite (rep_from_hit _ _ _ _ _ _ _ M).
    + rewrite skipn_take_while. reflexivity.
    + pose proof (take_drop_while_length is_space s). lia.
  - rewrite (rep_from_miss _ _ _ _ _ M). reflexivity.
Qed.

Lemma collapse_nil prev : rep_from re_spaces [32] prev [] = [].
Proof. apply rep_from_nil_miss. reflexivity. Qed.

Lemma Forall_drop_while (P : N -> Prop) p s :
  Forall P s -> Forall P (drop_while p s).
Proof.
  intros H. rewrite <- (take_drop_while p s) in H.
  apply Forall_app in H. apply H.
Qed.

(** Collapsing white space: by induction on a bound of the length, as a
    match may pass over several code units. *)
Lemma collapse_props : forall n s prev,
  (length s <= n)%nat ->
  Forall (fun c => keep c = true) s ->
  let out := rep_from re_spaces [32] prev s in
  Forall ok_char out
  /\ no_double_space out = true
  /\ filter is_alnum out = filter is_alnum s
  /\ (hd_error out = Some 32 -> exists c, hd_error s = Some c /\ is_space c = true).
Proof.
  induction n as [|n IH]; intros s prev Hn Hk out; subst out.
  - destruct s; [|simpl in Hn; lia]. rewrite collapse_nil.
    repeat split; try constructor. simpl. discriminate.
  - destruct s as [|c s].
    { rewrite collapse_nil. repeat split; try constructor. simpl. discriminate. }
    rewrite collapse_step. inversion Hk as [|? ? Hc Hs]; subst.
    destruct (is_space c) eqn:Ec.
    + set (d := drop_while is_space s).
      set (pv := last_or _ _).
      assert (Hd : (length d <= n)%nat).
      { subst d. pose proof (drop_while_length is_space s). simpl in Hn. lia. }
      assert (Hkd : Forall (fun c => keep c = true) d)
        by (apply Forall_drop_while; exact Hs).
      destruct (IH d pv Hd Hkd) as (F & D & A & H32).
      repeat split.
      * constructor; [right; reflexivity|exact F].
      * cbn [no_double_space].
        destruct (rep_from re_spaces [32] pv d) as [|b o] eqn:Eo; [reflexivity|].
        rewrite D. rewrite andb_true_r.
        destruct (b =? 32) eqn:Eb; [|reflexivity].
        apply N.eqb_eq in Eb. subst b.
        destruct (H32 eq_refl) as (c2 & Hc2 & Sc2).
        pose proof (drop_while_head is_space s) as Hh. fold d in Hh.
        destruct d as [|c3 d']; [discriminate|].
        simpl in Hc2. inversion Hc2; subst. congruence.
      * cbn [filter]. change (is_alnum 32) with false. rewrite A.
        rewrite (space_not_alnum _ Ec).
        subst d. clear. induction s as [|a s IHs]; [reflexivity|].
        simpl. destruct (is_space a) eqn:Ea.
        -- rewrite (space_not_alnum _ Ea). exact IHs.
        -- reflexivity.
      * intros _. exists c. split; [reflexivity|exact Ec].
    + assert (Hls : (length s <= n)%nat) by (simpl in Hn; lia).
      destruct (IH s (Some c) Hls Hs) as (F & D & A & H32).
      assert (Ac : is_alnum c = true).
      { unfold keep in Hc. rewrite Ec, orb_false_r in Hc. exact Hc. }
      repeat split.
      * constructor; [left; exact Ac|exact F].
      * cbn [no_double_space].
        destruct (rep_from re_spaces [32] (Some c) s) as [|b o] eqn:Eo;
          [reflexivity|].
        rewrite D, andb_true_r.
        replace (c =? 32) with false; [reflexivity|].
        symmetry. apply N.eqb_neq. apply alnum_not_32. exact Ac.
      * cbn [filter]. rewrite Ac, A. reflexivity.
      * simpl. intros H. inversion H. subst.
        exfalso. revert Ac. apply not_true_iff_false. reflexivity.
Qed.

(** On a string whose only white space is single blanks the collapse
    changes nothing. *)
Lemma collapse_fixed : forall s prev,
  Forall ok_char s -> no_double_space s = true ->
  rep_from re_spaces [32] prev s = s.
Proof.
  induction s as [|c s IH]; intros prev F D.
  - apply collapse_nil.
  - rewrite collapse_step. inversion F as [|? ? Hc Hs]; subst.
    assert (D' : no_double_space s = true).
    { cbn [no_double_space] in D. destruct s; [reflexivity|].
      apply andb_true_iff in D. apply D. }
    destruct Hc as [Ac| ->].
    + rewrite (alnum_not_space _ Ac). f_equal. apply IH; assumption.
    + change (is_space 32) with true.
      assert (E : take_while is_space s = [] /\ drop_while is_space s = s).
      { destruct s as [|b s]; [split; reflexivity|].
        cbn [no_double_space] in D. apply andb_true_iff in D.
        destruct D as [D _]. change (32 =? 32) with true in D.
        cbn [andb] in D. apply negb_true_iff, N.eqb_neq in D.
        inversion Hs as [|? ? Hb _]; subst.
        destruct Hb as [Ab| ->]; [|congruence].
        cbn [take_while drop_while]. rewrite (alnum_not_space _ Ab).
        split; reflexivity. }
      destruct E as [E1 E2]. rewrite E1, E2. f_equal. apply IH; assumption.
Qed.

(** ** [trim] *)

Lemma trim_infix s :
  exists pre post,
    s = pre ++ trim s ++ post
    /\ Forall (fun c => is_space c = true) pre
    /\ Forall (fun c => is_space c = true) post.
Proof.
  unfold trim.
  set (d := drop_while is_space s).
  set (e := drop_while is_space (rev d)).
  exists (take_while is_space s), (rev (take_while is_space (rev d))).
  assert (TW : forall t, Forall (fun c => is_space c = true)
                           (take_while is_space t)).
  { induction t as [|a t IHt]; simpl; [constructor|].
    destruct (is_space a) eqn:Ea; constructor; assumption. }
  repeat split.
  - rewrite <- rev_app_distr. subst e. rewrite take_drop_while.
    rewrite rev_involutive. subst d. symmetry. apply take_drop_while.
  - apply TW.
  - apply Forall_rev. apply TW.
Qed.

Lemma trim_ends s :
  (forall c, hd_error (trim s) = Some c -> is_space c = false)
  /\ (forall c, hd_error (rev (trim s)) = Some c -> is_space c = false).
Proof.
  unfold trim.
  set (d := drop_while is_space s).
  set (e := drop_while is_space (rev d)).
  split; intros c H.
  - (* the head of [rev e] is the head of [d] *)
    assert (Hd : rev d = take_while is_space (rev d) ++ e)
      by (symmetry; apply take_drop_while).
    apply (f_equal (@rev N)) in Hd. rewrite rev_involutive, rev_app_distr in Hd.
    destruct (rev e) as [|a t] eqn:Er; [discriminate|].
    simpl in H. inversion H; subst a.
    pose proof (drop_while_head is_space s) as Hh. fold d in Hh.
    rewrite Hd in Hh. simpl in Hh. exact Hh.
  - rewrite rev_involutive in H.
    pose proof (drop_while_head is_space (rev d)) as Hh. fold e in Hh.
    destruct e; [discriminate|]. simpl in H. inversion H; subst. exact Hh.
Qed.

Lemma drop_while_id p s :
  (forall c, hd_error s = Some c -> p c = false) -> drop_while p s = s.
Proof.
  destruct s as [|c s]; [reflexivity|]. intros H. simpl.
  rewrite (H c eq_refl). reflexivity.
Qed.

Lemma trim_fixed s :
  (forall c, hd_error s = Some c -> is_space c = false) ->
  (forall c, hd_error (rev s) = Some c -> is_space c = false) ->
  trim s = s.
Proof.
  intros H1 H2. unfold trim. rewrite (drop_while_id _ _ H1).
  rewrite (drop_while_id _ _ H2). apply rev_involutive.
Qed.

Lemma drop_while_app_all (p : N -> bool) (a b : str) :
  Forall (fun c => p c = true) a -> drop_while p (a ++ b) = drop_while p b.
Proof.
  induction 1 as [|c a H F IH]; [reflexivity|].
  cbn [app drop_while]. rewrite H. exact IH.
Qed.

(** [trim] is the one way to take the white space off the two ends. *)
Lemma trim_spec raw t : trimmed_of raw t <-> trim raw = t.
Proof.
  split.
  - intros ((pre & post & -> & Fpre & Fpost) & H1 & H2). unfold trim.
    rewrite (drop_while_app_all _ _ _ Fpre).
    destruct t as [|c t].
    + cbn [app]. rewrite <- (app_nil_r post).
      rewrite (drop_while_app_all _ _ _ Fpost). reflexivity.
    + cbn [app drop_while]. rewrite (H1 c eq_refl).
      change (c :: t ++ post) with ((c :: t) ++ post).
      rewrite rev_app_distr.
      rewrite (drop_while_app_all _ _ _ (Forall_rev Fpost)).
      rewrite (drop_while_id _ _ H2). apply rev_involutive.
  - intros <-. split; [|apply trim_ends].
    destruct (trim_infix raw) as (pre & post & E & F1 & F2).
    exists pre, post. repeat split; assumption.
Qed.

Lemma no_double_space_app a b :
  no_double_space (a ++ b) = true ->
  no_double_space a = true /\ no_double_space b = true.
Proof.
  induction a as [|x a IH]; intros H.
  - split; [reflexivity|exact H].
  - cbn [app no_double_space] in H.
    destruct a as [|y a].
    + split; [reflexivity|]. simpl in H. destruct b; [reflexivity|].
      apply andb_true_iff in H. apply H.
    + cbn [app] in H. apply andb_true_iff in H. destruct H as [H1 H2].
      destruct (IH H2) as [Ha Hb]. split; [|exact Hb].
      cbn [no_double_space]. rewrite H1. exact Ha.
Qed.

(** ** [normalize] *)

Lemma normalize_unfold v :
  normalize v
  = trim (rep_from re_spaces [32] None (filter keep (toLowerCase (or_empty v)))).
Proof.
  unfold normalize. rewrite strip_is_filter. reflexivity.
Qed.

Lemma filter_keep_all s : Forall (fun c => keep c = true) (filter keep s).
Proof.
  apply Forall_forall. intros c H. apply filter_In in H. apply H.
Qed.

Lemma normalize_normal_form v : normal_form (normalize v).
Proof.
  rewrite normalize_unfold.
  set (a := filter keep _).
  destruct (collapse_props (length a) a None (le_n _) (filter_keep_all _))
    as (F & D & _ & _).
  set (b := rep_from re_spaces [32] None a) in *.
  destruct (trim_infix b) as (pre & post & E & _ & _).
  destruct (trim_ends b) as [H1 H2].
  rewrite E in F, D.
  apply Forall_app in F. destruct F as [_ F].
  apply Forall_app in F. destruct F as [F _].
  apply no_double_space_app in D. destruct D as [_ D].
  apply no_double_space_app in D. destruct D as [D _].
  repeat split; try assumption.
  - intros H. apply H1 in H. discriminate.
  - intros H. apply H2 in H. discriminate.
Qed.

Lemma ok_char_keep c : ok_char c -> keep c = true.
Proof.
  unfold keep. intros [H| ->]; [rewrite H|]; reflexivity.
Qed.

Lemma toLowerCase_fixed s : Forall ok_char s -> toLowerCase s = s.
Proof.
  unfold toLowerCase. induction 1 as [|c s Hc _ IH]; [reflexivity|].
  cbn [flat_map]. rewrite IH.
  destruct Hc as [Hc| ->]; [rewrite (lower_unit_alnum _ Hc)|]; reflexivity.
Qed.

Lemma filter_fixed (p : N -> bool) s :
  Forall (fun c => p c = true) s -> filter p s = s.
Proof.
  induction 1 as [|c s Hc _ IH]; [reflexivity|].
  simpl. rewrite Hc, IH. reflexivity.
Qed.

Lemma ok_head_not_space (s : str) c :
  Forall ok_char s -> hd_error s <> Some 32 -> hd_error s = Some c ->
  is_space c = false.
Proof.
  intros F H E. destruct s as [|a s]; [discriminate|].
  simpl in *. inversion E; subst a. inversion F as [|? ? Hc _]; subst.
  destruct Hc as [Hc| ->]; [apply alnum_not_space; exact Hc|].
  exfalso. apply H. reflexivity.
Qed.

Lemma normalize_fixed t : normal_form t -> normalize (Str t) = t.
Proof.
  intros (F & D & H1 & H2). rewrite normalize_unfold. cbn [or_empty].
  rewrite (toLowerCase_fixed _ F).
  rewrite filter_fixed
    by (eapply Forall_impl; [|exact F]; intros c; apply ok_char_keep).
  rewrite (collapse_fixed _ None F D).
  apply trim_fixed.
  - intros c. apply ok_head_not_space; assumption.
  - intros c. apply ok_head_not_space; [apply Forall_rev|]; assumption.
Qed.

Lemma filter_alnum_spaces s :
  Forall (fun c => is_space c = true) s -> filter is_alnum s = [].
Proof.
  induction 1 as [|c s Hc _ IH]; [reflexivity|].
  simpl. rewrite (space_not_alnum _ Hc). exact IH.
Qed.

Lemma normalize_keeps_alnum v :
  filter is_alnum (normalize v) = filter is_alnum (toLowerCase (or_empty v)).
Proof.
  rewrite normalize_unfold.
  set (l := toLowerCase _). set (a := filter keep l).
  destruct (collapse_props (length a) a None (le_n _) (filter_keep_all _))
    as (_ & _ & A & _).
  set (b := rep_from re_spaces [32] None a) in *.
  destruct (trim_infix b) as (pre & post & E & P1 & P2).
  transitivity (filter is_alnum b).
  - rewrite E at 2. rewrite !filter_app.
    rewrite (filter_alnum_spaces _ P1), (filter_alnum_spaces _ P2).
    rewrite app_nil_r. reflexivity.
  - rewrite A. subst a. clear. induction l as [|c l IH]; [reflexivity|].
    simpl. unfold keep at 1. destruct (is_alnum c) eqn:Ec.
    + simpl. rewrite Ec, IH. reflexivity.
    + simpl. destruct (is_space c); [simpl; rewrite Ec|]; exact IH.
Qed.

(** C9.  [normalize] is idempotent; its result holds only small letters,
    digits and single blanks (none at the ends), the letters and digits
    being those of the lower-cased input in their order, everything else
    being dropped; [null], [undefined] and the empty string give the empty
    string. *)
Theorem normalize_idempotent_clean (v : jsval) :
  normalize (Str (normalize v)) = normalize v
  /\ normal_form (normalize v)
  /\ filter is_alnum (normalize v) = filter is_alnum (toLowerCase (or_empty v))
  /\ normalize Null = [] /\ normalize Undefined = [] /\ normalize (Str []) = [].
Proof.
  split; [apply normalize_fixed, normalize_normal_form|].
  split; [apply normalize_normal_form|].
  split; [apply normalize_keeps_alnum|].
  repeat split; reflexivity.
Qed.

(** The examples of the specification. *)
Example normalize_examples :
  normalize (Str (js "Hello, World!")) = js "hello world"
  /\ normalize (Str (js "  foo   bar  ")) = js "foo bar"
  /\ normalize (Str (js "Track" ++ [8212] ++ js "Name")) = js "trackname"
  /\ normalize (Str (js "It" ++ [8217] ++ js "s")) = js "its"
  /\ normalize (Str (js "D" ++ [233] ++ js "j" ++ [224] ++ js " Vu"))
     = js "dj vu"
  /\ normalize (Str ([8490] ++ js "elvin")) = js "kelvin".
Proof. repeat split; vm_compute; reflexivity. Qed.

(** ** Literals and whole-word patterns *)

Lemma rmatch_lit_units k : forall p b s g,
  rmatch (lit_units p) k (MState b s g)
  = if is_prefix p s
    then k (MState (last_or b p) (skipn (length p) s) g)
    else None.
Proof.
  unfold lit_units.
  induction p as [|a p IH]; intros b s g.
  - reflexivity.
  - cbn [List.map seq_of].
    change (rmatch (Seq ?x ?y) k ?st) with (rmatch x (rmatch y k) st).
    destruct s as [|c s]; [reflexivity|].
    rewrite rmatch_chr. cbn [is_prefix].
    destruct (a =? c) eqn:E; [|reflexivity]. cbn [andb].
    apply N.eqb_eq in E. subst c.
    rewrite IH. rewrite last_or_cons. reflexivity.
Qed.

Lemma lit_is_units w : lit w = lit_units (js w).
Proof. reflexivity. Qed.

Lemma is_prefix_length p : forall s,
  is_prefix p s = true -> (length p <= length s)%nat.
Proof.
  induction p as [|a p IH]; intros s H; [simpl; lia|].
  destruct s as [|c s]; [discriminate|].
  cbn [is_prefix] in H. apply andb_true_iff in H. destruct H as [_ H].
  apply IH in H. simpl. lia.
Qed.

Lemma match_here_re_word p prev s :
  match_here (re_word_units p) prev s
  = if boundary prev (hd_error s)
       && is_prefix p s
       && boundary (last_or prev p) (hd_error (skipn (length p) s))
    then Some (length p, [])
    else None.
Proof.
  unfold match_here, re_word_units, boundary.
  change (rmatch (Seq WordB ?y) ?k ?st)
    with (if xorb (is_word_opt (before st)) (is_word_opt (hd_error (rest st)))
          then rmatch y k st else None).
  cbn [before rest].
  destruct (xorb (is_word_opt prev) (is_word_opt (hd_error s)));
    [|reflexivity].
  cbn [andb].
  change (rmatch (Seq ?x ?y) ?k ?st) with (rmatch x (rmatch y k) st).
  rewrite rmatch_lit_units.
  destruct (is_prefix p s) eqn:P; [|reflexivity]. cbn [andb].
  cbn [rmatch before rest].
  destruct (xorb _ _); [|reflexivity].
  cbn [rest caps]. f_equal. f_equal.
  apply is_prefix_length in P. rewrite length_skipn. lia.
Qed.

Lemma re_word_is_units w : re_word w = re_word_units (js w).
Proof. reflexivity. Qed.

(** ** Words of a normalised string *)

Lemma unwords_cons w ws : unwords (w :: ws) = w ++ sep_tail ws.
Proof. destruct ws; reflexivity. Qed.

Lemma good_tok_head w :
  good_tok w -> exists a w', w = a :: w' /\ is_alnum a = true
                             /\ Forall (fun c => is_alnum c = true) w'.
Proof.
  intros [Hn F]. destruct w as [|a w']; [congruence|].
  inversion F; subst. eauto.
Qed.

Lemma last_or_alnum prev w :
  good_tok w -> exists c, last_or prev w = Some c /\ is_alnum c = true.
Proof.
  intros [Hn F]. unfold last_or.
  apply Forall_rev in F. destruct (rev w) as [|c r] eqn:E.
  - apply (f_equal (@rev N)) in E. rewrite rev_involutive in E.
    simpl in E. congruence.
  - inversion F; subst. eauto.
Qed.

Lemma sep_tail_head ws :
  is_word_opt (hd_error (sep_tail ws)) = false.
Proof. destruct ws; reflexivity. Qed.

Lemma is_prefix_app_self p : forall t, is_prefix p (p ++ t) = true.
Proof.
  induction p as [|a p IH]; intros t; [reflexivity|].
  cbn [app is_prefix]. rewrite N.eqb_refl. apply IH.
Qed.

Lemma skipn_app_self (p t : str) : skipn (length p) (p ++ t) = t.
Proof. induction p as [|a p IH]; [reflexivity|exact IH]. Qed.

Lemma firstn_app_self (p t : str) : firstn (length p) (p ++ t) = p.
Proof. induction p as [|a p IH]; [reflexivity|simpl; f_equal; exact IH]. Qed.

(** A word pattern that matches at the start of a word, with a boundary
    after it, is that word. *)
Lemma token_align : forall p w tail,
  p <> [] -> Forall (fun c => is_alnum c = true) p ->
  w <> [] -> Forall (fun c => is_alnum c = true) w ->
  is_word_opt (hd_error tail) = false ->
  (forall c, hd_error tail = Some c -> is_alnum c = false) ->
  is_prefix p (w ++ tail) = true ->
  is_word_opt (hd_error (skipn (length p) (w ++ tail))) = false ->
  p = w.
Proof.
  induction p as [|a p IH]; intros w tail Hp Fp Hw Fw Ht Ht' P B;
    [congruence|].
  destruct w as [|c w]; [congruence|].
  cbn [app is_prefix] in P. apply andb_true_iff in P. destruct P as [E P].
  apply N.eqb_eq in E. subst c. f_equal.
  inversion Fp as [|? ? Aa Fp']; subst. inversion Fw as [|? ? _ Fw']; subst.
  cbn [length skipn app] in B.
  destruct p as [|a2 p].
  - cbn [length skipn] in B. destruct w as [|c2 w]; [reflexivity|].
    exfalso. inversion Fw'; subst. cbn in B.
    rewrite (alnum_is_word c2) in B by assumption. discriminate.
  - destruct w as [|c2 w].
    + exfalso. cbn [app] in P. destruct tail as [|t tail]; [discriminate|].
      cbn [is_prefix] in P. apply andb_true_iff in P. destruct P as [E _].
      apply N.eqb_eq in E. subst t.
      inversion Fp'; subst.
      rewrite (Ht' a2 eq_refl) in *. discriminate.
    + apply (IH (c2 :: w) tail); try assumption; discriminate.
Qed.

Section WordPattern.

Variables (p rep : str).
Hypothesis p_head : exists a p', p = a :: p' /\ is_alnum a = true.

Let r := re_word_units p.

Lemma word_at_end prev : rep_from r rep prev [] = [].
Proof.
  apply rep_from_nil_miss. unfold r. rewrite match_here_re_word.
  destruct p_head as (a & p' & -> & _).
  cbn [is_prefix]. rewrite andb_false_r. reflexivity.
Qed.

(** Inside a word nothing matches: there is no boundary. *)
Lemma word_inside : forall x tail c,
  is_word c = true -> Forall (fun c => is_alnum c = true) x ->
  rep_from r rep (Some c) (x ++ tail)
  = x ++ rep_from r rep (last_or (Some c) x) tail.
Proof.
  induction x as [|a x IH]; intros tail c Hc F; [reflexivity|].
  inversion F as [|? ? Aa F']; subst.
  cbn [app]. rewrite rep_from_miss.
  - rewrite IH by (try apply alnum_is_word; assumption).
    rewrite last_or_cons. reflexivity.
  - unfold r. rewrite match_here_re_word. unfold boundary.
    cbn [hd_error is_word_opt]. rewrite Hc, (alnum_is_word a Aa).
    reflexivity.
Qed.

(** At the blank between two words nothing matches either. *)
Lemma word_at_blank prev s :
  rep_from r rep prev (32 :: s) = 32 :: rep_from r rep (Some 32) s.
Proof.
  apply rep_from_miss. unfold r. rewrite match_here_re_word.
  destruct p_head as (a & p' & -> & Aa).
  cbn [is_prefix].
  replace (a =? 32) with false
    by (symmetry; apply N.eqb_neq, alnum_not_32; exact Aa).
  rewrite andb_false_r. reflexivity.
Qed.

Lemma word_tail prev ws :
  rep_from r rep prev (sep_tail ws)
  = match ws with
    | [] => []
    | _ :: _ => 32 :: rep_from r rep (Some 32) (unwords ws)
    end.
Proof.
  destruct ws; [apply word_at_end|apply word_at_blank].
Qed.

(** A word at whose start the pattern does not match is copied. *)
Lemma word_missed prev w tail :
  good_tok w ->
  match_here r prev (w ++ tail) = None ->
  rep_from r rep prev (w ++ tail)
  = w ++ rep_from r rep (last_or prev w) tail.
Proof.
  intros G M. destruct (good_tok_head w G) as (a & w' & -> & Aa & F).
  cbn [app] in *. rewrite (rep_from_miss _ _ _ _ _ M).
  rewrite word_inside by (try apply alnum_is_word; assumption).
  rewrite last_or_cons. reflexivity.
Qed.

(** A match is replaced and the scan resumes after it. *)
Lemma word_hit prev x tail g :
  x <> [] ->
  match_here r prev (x ++ tail) = Some (length x, g) ->
  rep_from r rep prev (x ++ tail)
  = rep ++ rep_from r rep (last_or prev x) tail.
Proof.
  intros Hx M. destruct x as [|a x]; [congruence|].
  cbn [app length] in *.
  rewrite (rep_from_hit _ _ _ _ _ _ _ M) by (rewrite length_app; lia).
  rewrite firstn_app_self, skipn_app_self, last_or_cons. reflexivity.
Qed.

End WordPattern.

Lemma good_tok_starts p :
  good_tok p -> exists a p', p = a :: p' /\ is_alnum a = true.
Proof.
  intros G. destruct (good_tok_head p G) as (a & p' & E & A & _). eauto.
Qed.

Lemma str_eqb_eq a b : str_eqb a b = true <-> a = b.
Proof.
  unfold str_eqb. destruct (list_eq_dec N.eq_dec a b); split;
    intros; congruence.
Qed.

Lemma str_eqb_refl a : str_eqb a a = true.
Proof. apply str_eqb_eq. reflexivity. Qed.

Section OneWord.

Variables (p rep : str).
Hypothesis p_good : good_tok p.

Let r := re_word_units p.
Let p_head := good_tok_starts p p_good.

(** The pattern at the start of a word: it matches exactly when the word
    is the pattern. *)
Lemma word_match_at_token prev w ws :
  is_word_opt prev = false -> good_tok w ->
  match_here r prev (w ++ sep_tail ws)
  = if str_eqb w p then Some (length p, []) else None.
Proof.
  intros Hprev G. unfold r. rewrite match_here_re_word.
  destruct (good_tok_head w G) as (a & w' & Ew & Aa & F).
  assert (B1 : boundary prev (hd_error (w ++ sep_tail ws)) = true).
  { rewrite Ew. unfold boundary. cbn [app hd_error is_word_opt].
    rewrite Hprev, (alnum_is_word a Aa). reflexivity. }
  rewrite B1. cbn [andb].
  destruct (last_or_alnum prev p p_good) as (c & Lc & Ac).
  rewrite Lc. unfold boundary at 1. cbn [is_word_opt].
  rewrite (alnum_is_word c Ac).
  unfold str_eqb. destruct (list_eq_dec N.eq_dec w p) as [E|NE].
  - rewrite E. rewrite is_prefix_app_self, skipn_app_self, sep_tail_head.
    reflexivity.
  - destruct (is_prefix p (w ++ sep_tail ws)) eqn:P; [|reflexivity].
    cbn [andb].
    destruct (is_word_opt (hd_error (skipn (length p) (w ++ sep_tail ws))))
      eqn:B; [reflexivity|].
    exfalso. apply NE. symmetry.
    destruct p_good as [Hp Fp]. destruct G as [Hw Fw].
    apply (token_align p w (sep_tail ws)); try assumption.
    + apply sep_tail_head.
    + intros x Hx. destruct ws; [discriminate|].
      simpl in Hx. inversion Hx. reflexivity.
Qed.

(** The replacement of a one-word pattern, read on words. *)
Lemma replace_word_tokens : forall ws prev,
  Forall good_tok ws -> is_word_opt prev = false ->
  rep_from r rep prev (unwords ws)
  = unwords (List.map (sub_tok p rep) ws).
Proof.
  induction ws as [|w ws IH]; intros prev G Hprev.
  - apply word_at_end. exact p_head.
  - inversion G as [|? ? Gw Gws]; subst.
    cbn [List.map]. rewrite !unwords_cons.
    pose proof (word_match_at_token prev w ws Hprev Gw) as M.
    destruct (last_or_alnum prev w Gw) as (c & Lc & Ac).
    assert (T : rep_from r rep (last_or prev w) (sep_tail ws)
                = sep_tail (List.map (sub_tok p rep) ws)).
    { unfold r. rewrite (word_tail p rep p_head).
      destruct ws as [|w2 ws2]; [reflexivity|].
      fold r. rewrite IH by (try assumption; reflexivity). reflexivity. }
    unfold sub_tok at 1. destruct (str_eqb w p) eqn:E.
    + apply str_eqb_eq in E. rewrite E in *.
      unfold r. rewrite (word_hit p rep) with (g := []).
      * fold r. rewrite T. reflexivity.
      * apply p_good.
      * exact M.
    + unfold r. rewrite (word_missed p rep) by assumption.
      fold r. rewrite T. reflexivity.
Qed.

End OneWord.

Lemma is_prefix_app a : forall b s,
  is_prefix (a ++ b) s = is_prefix a s && is_prefix b (skipn (length a) s).
Proof.
  induction a as [|x a IH]; intros b s; [reflexivity|].
  destruct s as [|c s]; [reflexivity|].
  cbn [app is_prefix length skipn]. rewrite IH. apply andb_assoc.
Qed.

Lemma merge2_cons2 p1 p2 rep w n ws :
  merge2 p1 p2 rep (w :: n :: ws)
  = if str_eqb w p1 && str_eqb n p2 then rep :: merge2 p1 p2 rep ws
    else w :: merge2 p1 p2 rep (n :: ws).
Proof. reflexivity. Qed.

Lemma merge2_nonempty p1 p2 rep w ws : merge2 p1 p2 rep (w :: ws) <> [].
Proof.
  cbn [merge2]. destruct ws as [|n ws]; [discriminate|].
  destruct (_ && _); discriminate.
Qed.

Lemma sep_tail_merge2 p1 p2 rep ws :
  sep_tail (merge2 p1 p2 rep ws)
  = match ws with
    | [] => []
    | _ :: _ => 32 :: unwords (merge2 p1 p2 rep ws)
    end.
Proof.
  destruct ws as [|w ws]; [reflexivity|].
  pose proof (merge2_nonempty p1 p2 rep w ws) as H.
  destruct (merge2 p1 p2 rep (w :: ws)); [congruence|reflexivity].
Qed.

Section TwoWords.

Variables (p1 p2 rep : str).
Hypotheses (p1_good : good_tok p1) (p2_good : good_tok p2).

Let q := p1 ++ 32 :: p2.
Let r := re_word_units q.

Lemma q_head : exists a q', q = a :: q' /\ is_alnum a = true.
Proof.
  destruct (good_tok_head p1 p1_good) as (a & p' & E & A & _).
  exists a, (p' ++ 32 :: p2). unfold q. rewrite E. split; [reflexivity|exact A].
Qed.

Lemma q_last prev : exists c, last_or prev q = Some c /\ is_alnum c = true.
Proof.
  destruct (last_or_alnum prev p2 p2_good) as (c & L & A).
  exists c. split; [|exact A].
  unfold last_or, q in *. rewrite rev_app_distr. cbn [rev].
  rewrite <- app_assoc.
  destruct (rev p2) as [|x t] eqn:E.
  - exfalso. apply (proj1 p2_good). apply (f_equal (@rev N)) in E.
    rewrite rev_involutive in E. exact E.
  - simpl. simpl in L. exact L.
Qed.

Lemma pair_match_at_token prev w ws :
  is_word_opt prev = false -> good_tok w -> Forall good_tok ws ->
  match_here r prev (unwords (w :: ws))
  = match ws with
    | n :: _ =>
        if str_eqb w p1 && str_eqb n p2 then Some (length q, []) else None
    | [] => None
    end.
Proof.
  intros Hprev G Gs. unfold r. rewrite match_here_re_word, unwords_cons.
  destruct (good_tok_head w G) as (a & w' & Ew & Aa & F).
  assert (B1 : boundary prev (hd_error (w ++ sep_tail ws)) = true).
  { rewrite Ew. unfold boundary. cbn [app hd_error is_word_opt].
    rewrite Hprev, (alnum_is_word a Aa). reflexivity. }
  rewrite B1. cbn [andb]. clear a w' Ew Aa F B1.
  destruct (q_last prev) as (c & Lc & Ac). rewrite Lc.
  unfold boundary. cbn [is_word_opt]. rewrite (alnum_is_word c Ac).
  unfold q at 1. rewrite is_prefix_app.
  destruct p1_good as [H1 F1]. destruct p2_good as [H2 F2].
  destruct G as [Hw Fw].
  (* the text after the first word starts with a blank or is empty *)
  assert (Tl : forall x, hd_error (sep_tail ws) = Some x -> is_alnum x = false).
  { intros x Hx. destruct ws; [discriminate|]. simpl in Hx.
    inversion Hx. reflexivity. }
  destruct (is_prefix p1 (w ++ sep_tail ws)) eqn:P1.
  2:{ cbn [andb]. destruct ws as [|n ws]; [reflexivity|].
      destruct (str_eqb w p1) eqn:E; [|reflexivity].
      apply str_eqb_eq in E. subst w.
      rewrite is_prefix_app_self in P1. discriminate. }
  cbn [andb].
  destruct (is_prefix (32 :: p2) (skipn (length p1) (w ++ sep_tail ws)))
    eqn:P2.
  2:{ cbn [andb]. destruct ws as [|n ws]; [reflexivity|].
      destruct (str_eqb w p1) eqn:E; [|reflexivity].
      destruct (str_eqb n p2) eqn:E2; [|reflexivity].
      apply str_eqb_eq in E. apply str_eqb_eq in E2. subst w n.
      rewrite skipn_app_self in P2. cbn [sep_tail] in P2.
      rewrite unwords_cons in P2. cbn [is_prefix] in P2.
      rewrite is_prefix_app_self in P2. discriminate. }
  cbn [andb].
  (* the first word is [p1] *)
  assert (E1 : p1 = w).
  { apply (token_align p1 w (sep_tail ws)); try assumption.
    - apply sep_tail_head.
    - destruct (skipn (length p1) (w ++ sep_tail ws)) as [|x t];
        [discriminate|].
      cbn [is_prefix] in P2. apply andb_true_iff in P2.
      destruct P2 as [E _]. apply N.eqb_eq in E. subst x. reflexivity. }
  subst w. rewrite skipn_app_self in P2.
  destruct ws as [|n ws]; [discriminate|].
  inversion Gs as [|? ? Gn Gws]; subst.
  cbn [sep_tail] in *. rewrite unwords_cons in *.
  cbn [is_prefix] in P2. change (32 =? 32) with true in P2. cbn [andb] in P2.
  rewrite str_eqb_refl. cbn [andb].
  assert (Sk : skipn (length q) (p1 ++ 32 :: n ++ sep_tail ws)
               = skipn (length p2) (n ++ sep_tail ws)).
  { unfold q. rewrite length_app. cbn [length].
    rewrite skipn_app. rewrite skipn_all2 by lia. cbn [app].
    replace (length p1 + S (length p2) - length p1)%nat
      with (S (length p2)) by lia.
    reflexivity. }
  rewrite Sk.
  destruct (str_eqb n p2) eqn:E2.
  - apply str_eqb_eq in E2. subst n.
    rewrite skipn_app_self, sep_tail_head. reflexivity.
  - destruct (is_word_opt (hd_error (skipn (length p2) (n ++ sep_tail ws))))
      eqn:B; [reflexivity|].
    exfalso. destruct Gn as [Hn Fn].
    assert (p2 = n).
    { apply (token_align p2 n (sep_tail ws)); try assumption.
      - apply sep_tail_head.
      - intros x Hx. destruct ws; [discriminate|]. simpl in Hx.
        inversion Hx. reflexivity. }
    subst n. rewrite str_eqb_refl in E2. discriminate.
Qed.

(** The replacement of a two-word pattern, read on words. *)
Lemma replace_pair_tokens : forall k ws prev,
  (length ws <= k)%nat ->
  Forall good_tok ws -> is_word_opt prev = false ->
  rep_from r rep prev (unwords ws) = unwords (merge2 p1 p2 rep ws).
Proof.
  induction k as [|k IH]; intros ws prev Hk G Hprev.
  - destruct ws; [|simpl in Hk; lia]. apply word_at_end. exact q_head.
  - destruct ws as [|w ws]; [apply word_at_end; exact q_head|].
    inversion G as [|? ? Gw Gws]; subst.
    pose proof (pair_match_at_token prev w ws Hprev Gw Gws) as M.
    destruct ws as [|n ws].
    + rewrite unwords_cons in *. unfold r.
      rewrite (word_missed q rep) by assumption.
      cbn [sep_tail]. rewrite (word_at_end q rep q_head). reflexivity.
    + inversion Gws as [|? ? Gn Gws']; subst.
      rewrite merge2_cons2. destruct (str_eqb w p1 && str_eqb n p2) eqn:E.
      * apply andb_true_iff in E. destruct E as [E1 E2].
        apply str_eqb_eq in E1. apply str_eqb_eq in E2. subst w n.
        assert (U : unwords (p1 :: p2 :: ws) = q ++ sep_tail ws).
        { rewrite !unwords_cons. cbn [sep_tail]. rewrite unwords_cons.
          unfold q. rewrite <- app_assoc. reflexivity. }
        rewrite U in *. unfold r.
        rewrite (word_hit q rep) with (g := []).
        -- rewrite (word_tail q rep q_head). rewrite unwords_cons.
           rewrite sep_tail_merge2.
           destruct ws as [|w2 ws2]; [reflexivity|].
           fold r. rewrite IH; [reflexivity| |assumption|reflexivity].
           simpl in Hk. simpl. lia.
        -- unfold q. destruct p1; discriminate.
        -- exact M.
      * rewrite unwords_cons in M. rewrite unwords_cons. unfold r.
        rewrite (word_missed q rep) by assumption.
        rewrite (word_tail q rep q_head). fold r.
        rewrite IH; [|simpl in Hk; simpl; lia|assumption|reflexivity].
        rewrite (unwords_cons w). rewrite sep_tail_merge2. reflexivity.
Qed.

End TwoWords.

(** ** Normal forms and lists of words *)

Lemma nds_cons2 x a t :
  no_double_space (x :: a :: t)
  = negb ((x =? 32) && (a =? 32)) && no_double_space (a :: t).
Proof. reflexivity. Qed.

Lemma nds_cons_alnum a s :
  is_alnum a = true -> no_double_space (a :: s) = no_double_space s.
Proof.
  intros A. destruct s as [|b s]; [reflexivity|].
  cbn [no_double_space].
  replace (a =? 32) with false
    by (symmetry; apply N.eqb_neq, alnum_not_32; exact A).
  reflexivity.
Qed.

Lemma nds_alnum_app w s :
  Forall (fun c => is_alnum c = true) w ->
  no_double_space (w ++ s) = no_double_space s.
Proof.
  induction 1 as [|a w A _ IH]; [reflexivity|].
  cbn [app]. rewrite nds_cons_alnum by exact A. exact IH.
Qed.

Lemma hd_error_app (a b : str) : a <> [] -> hd_error (a ++ b) = hd_error a.
Proof. destruct a; [congruence|reflexivity]. Qed.

Lemma unwords_head w ws :
  good_tok w -> exists a t, unwords (w :: ws) = a :: t /\ is_alnum a = true.
Proof.
  intros G. destruct (good_tok_head w G) as (a & w' & -> & A & _).
  rewrite unwords_cons. exists a, (w' ++ sep_tail ws). split; [reflexivity|exact A].
Qed.

Lemma unwords_ok ws : Forall good_tok ws -> Forall ok_char (unwords ws).
Proof.
  induction 1 as [|w ws [_ Fw] _ IH]; [constructor|].
  rewrite unwords_cons. apply Forall_app. split.
  - eapply Forall_impl; [|exact Fw]. intros c Hc. left. exact Hc.
  - destruct ws; [constructor|]. cbn [sep_tail].
    constructor; [right; reflexivity|exact IH].
Qed.

Lemma unwords_nds ws : Forall good_tok ws -> no_double_space (unwords ws) = true.
Proof.
  induction 1 as [|w ws [_ Fw] Gs IH]; [reflexivity|].
  rewrite unwords_cons, nds_alnum_app by exact Fw.
  destruct ws as [|w2 ws]; [reflexivity|]. cbn [sep_tail].
  inversion Gs as [|? ? G2 _]; subst.
  destruct (unwords_head w2 ws G2) as (a & t & E & A).
  rewrite E in *. rewrite nds_cons2, IH.
  replace (a =? 32) with false
    by (symmetry; apply N.eqb_neq, alnum_not_32; exact A).
  reflexivity.
Qed.

Lemma unwords_last ws :
  Forall good_tok ws ->
  forall c, hd_error (rev (unwords ws)) = Some c -> is_alnum c = true.
Proof.
  induction 1 as [|w ws Gw Gs IH]; intros c H; [discriminate|].
  rewrite unwords_cons, rev_app_distr in H.
  destruct ws as [|w2 ws].
  - cbn [sep_tail rev app] in H. destruct Gw as [_ Fw].
    apply Forall_rev in Fw. destruct (rev w); [discriminate|].
    simpl in H. inversion H; subst. inversion Fw; subst. assumption.
  - cbn [sep_tail rev] in H. rewrite <- app_assoc in H.
    rewrite hd_error_app in H; [apply IH; exact H|].
    inversion Gs as [|? ? G2 _]; subst.
    destruct (unwords_head w2 ws G2) as (a & t & E & _).
    rewrite E. intros R. apply (f_equal (@rev N)) in R.
    rewrite rev_involutive in R. discriminate.
Qed.

Lemma tokens_normal_form ws : Forall good_tok ws -> normal_form (unwords ws).
Proof.
  intros G. split; [apply unwords_ok; exact G|].
  split; [apply unwords_nds; exact G|]. split.
  - destruct G as [|w ws Gw _]; [discriminate|].
    destruct (unwords_head w ws Gw) as (a & t & E & A). rewrite E.
    simpl. intros H. inversion H. subst. discriminate.
  - intros H. apply (unwords_last ws G) in H. discriminate.
Qed.

Lemma take_while_all p s : Forall (fun c => p c = true) (take_while p s).
Proof.
  induction s as [|a s IH]; simpl; [constructor|].
  destruct (p a) eqn:E; constructor; assumption.
Qed.

Lemma normal_form_tokens_bounded : forall n t,
  (length t <= n)%nat -> normal_form t ->
  exists ws, Forall good_tok ws /\ t = unwords ws.
Proof.
  induction n as [|n IH]; intros t Hn (F & D & H1 & H2).
  - destruct t; [|simpl in Hn; lia]. exists []. split; [constructor|reflexivity].
  - destruct t as [|c t]; [exists []; split; [constructor|reflexivity]|].
    assert (Ac : is_alnum c = true).
    { inversion F as [|? ? Hc _]; subst. destruct Hc as [Hc| ->]; [exact Hc|].
      exfalso. apply H1. reflexivity. }
    pose proof (take_drop_while is_alnum (c :: t)) as E.
    pose proof (take_while_all is_alnum (c :: t)) as Fw.
    pose proof (drop_while_head is_alnum (c :: t)) as Hd.
    set (w := take_while is_alnum (c :: t)) in *.
    set (d := drop_while is_alnum (c :: t)) in *.
    assert (Gw : good_tok w).
    { split; [|exact Fw]. subst w. cbn [take_while]. rewrite Ac. discriminate. }
    destruct d as [|x d'].
    + exists [w]. split; [constructor; [exact Gw|constructor]|].
      rewrite <- E. reflexivity.
    + assert (x = 32).
      { rewrite <- E in F. apply Forall_app in F. destruct F as [_ F].
        inversion F as [|? ? Hx _]; subst. destruct Hx as [Hx| ->];
          [congruence|reflexivity]. }
      subst x.
      assert (F' : Forall ok_char d').
      { rewrite <- E in F. apply Forall_app in F. destruct F as [_ F].
        inversion F; assumption. }
      assert (D' : no_double_space (32 :: d') = true).
      { rewrite <- E in D. apply no_double_space_app in D. apply D. }
      assert (R : rev (c :: t) = rev d' ++ 32 :: rev w).
      { rewrite <- E. rewrite rev_app_distr. cbn [rev].
        rewrite <- app_assoc. reflexivity. }
      assert (Nd : d' <> []).
      { intros ->. apply H2. rewrite R. reflexivity. }
      assert (NF' : normal_form d').
      { split; [exact F'|]. split.
        - apply (no_double_space_app [32] d'). exact D'.
        - split.
          + destruct d' as [|y d'']; [congruence|].
            cbn [no_double_space] in D'. apply andb_true_iff in D'.
            destruct D' as [D' _]. simpl. intros Hy. inversion Hy; subst.
            discriminate.
          + intros Hr. apply H2. rewrite R. rewrite hd_error_app; [exact Hr|].
            intros Z. apply Nd. apply (f_equal (@rev N)) in Z.
            rewrite rev_involutive in Z. exact Z. }
      assert (Ln : (length d' <= n)%nat).
      { apply (f_equal (@length N)) in E. rewrite length_app in E.
        simpl in E, Hn. simpl. lia. }
      destruct (IH d' Ln NF') as (ws & Gs & Eu).
      exists (w :: ws). split; [constructor; assumption|].
      rewrite unwords_cons. rewrite <- E. f_equal.
      destruct ws as [|w2 ws]; [simpl in Eu; congruence|].
      cbn [sep_tail]. rewrite Eu. reflexivity.
Qed.

Lemma normal_form_tokens t :
  normal_form t -> exists ws, Forall good_tok ws /\ t = unwords ws.
Proof. apply (normal_form_tokens_bounded (length t)). apply le_n. Qed.

(** ** The substitutions of [fuzzyNorm] on words *)

Lemma sub_tok_fixed p rep ws :
  Forall (fun w => w <> p) ws -> List.map (sub_tok p rep) ws = ws.
Proof.
  induction 1 as [|w ws Hw _ IH]; [reflexivity|].
  cbn [List.map]. rewrite IH. unfold sub_tok.
  destruct (str_eqb w p) eqn:E; [|reflexivity].
  apply str_eqb_eq in E. congruence.
Qed.

Lemma sub_tok_removes p rep ws :
  rep <> p -> Forall (fun w => w <> p) (List.map (sub_tok p rep) ws).
Proof.
  intros H. induction ws as [|w ws IH]; [constructor|].
  cbn [List.map]. constructor; [|exact IH]. unfold sub_tok.
  destruct (str_eqb w p) eqn:E; [exact H|].
  intros ->. rewrite str_eqb_refl in E. discriminate.
Qed.

Lemma sub_tok_avoids x p rep ws :
  rep <> x -> Forall (fun w => w <> x) ws ->
  Forall (fun w => w <> x) (List.map (sub_tok p rep) ws).
Proof.
  intros H. induction 1 as [|w ws Hw _ IH]; [constructor|].
  cbn [List.map]. constructor; [|exact IH]. unfold sub_tok.
  destruct (str_eqb w p); assumption.
Qed.

Lemma sub_tok_good p rep ws :
  good_tok rep -> Forall good_tok ws ->
  Forall good_tok (List.map (sub_tok p rep) ws).
Proof.
  intros H. induction 1 as [|w ws Hw _ IH]; [constructor|].
  cbn [List.map]. constructor; [|exact IH]. unfold sub_tok.
  destruct (str_eqb w p); assumption.
Qed.

Lemma merge2_all (P : str -> Prop) p1 p2 rep :
  P rep -> forall k ws, (length ws <= k)%nat ->
  Forall P ws -> Forall P (merge2 p1 p2 rep ws).
Proof.
  intros H. induction k as [|k IH]; intros ws Hk F.
  - destruct ws; [constructor|simpl in Hk; lia].
  - destruct ws as [|w ws]; [constructor|].
    destruct ws as [|n ws]; [exact F|].
    rewrite merge2_cons2. inversion F as [|? ? Pw F']; subst.
    inversion F' as [|? ? Pn F'']; subst.
    destruct (_ && _).
    + constructor; [exact H|]. apply IH; [simpl in Hk; lia|exact F''].
    + constructor; [exact Pw|]. apply IH; [simpl in Hk; simpl; lia|exact F'].
Qed.

Lemma merge2_Forall (P : str -> Prop) p1 p2 rep ws :
  P rep -> Forall P ws -> Forall P (merge2 p1 p2 rep ws).
Proof. intros H. apply (merge2_all P p1 p2 rep H (length ws)), le_n. Qed.

Lemma merge2_fixed p1 p2 rep : forall ws,
  no_pair p1 p2 ws -> merge2 p1 p2 rep ws = ws.
Proof.
  induction ws as [|w ws IH]; intros H; [reflexivity|].
  destruct ws as [|n ws]; [reflexivity|].
  rewrite merge2_cons2. destruct H as [H1 H2].
  destruct (str_eqb w p1 && str_eqb n p2) eqn:E.
  - exfalso. apply andb_true_iff in E. destruct E as [E1 E2].
    apply str_eqb_eq in E1. apply str_eqb_eq in E2. auto.
  - rewrite IH by exact H2. reflexivity.
Qed.

Lemma merge2_head p1 p2 rep w ws :
  exists t, merge2 p1 p2 rep (w :: ws) = rep :: t
            \/ merge2 p1 p2 rep (w :: ws) = w :: t.
Proof.
  destruct ws as [|n ws]; [exists []; right; reflexivity|].
  rewrite merge2_cons2. destruct (_ && _); eauto.
Qed.

Lemma merge2_no_pair p1 p2 rep :
  rep <> p1 -> rep <> p2 ->
  forall k ws, (length ws <= k)%nat -> no_pair p1 p2 (merge2 p1 p2 rep ws).
Proof.
  intros R1 R2. induction k as [|k IH]; intros ws Hk.
  - destruct ws; [exact I|simpl in Hk; lia].
  - destruct ws as [|w ws]; [exact I|].
    destruct ws as [|n ws]; [exact I|].
    rewrite merge2_cons2.
    destruct (str_eqb w p1 && str_eqb n p2) eqn:E.
    + assert (IH' := IH ws ltac:(simpl in Hk; lia)).
      cbn [no_pair]. destruct (merge2 p1 p2 rep ws) eqn:Em; [exact I|].
      split; [|exact IH']. intros [A _]. auto.
    + assert (IH' := IH (n :: ws) ltac:(simpl in Hk; simpl; lia)).
      destruct (merge2_head p1 p2 rep n ws) as (t & [Em|Em]);
        rewrite Em in *; cbn [no_pair]; (split; [|exact IH']).
      * intros [_ B]. auto.
      * intros [A B]. subst. rewrite !str_eqb_refl in E. discriminate.
Qed.

Lemma sub_tok_no_pair p rep p1 p2 :
  rep <> p1 -> rep <> p2 ->
  forall ws, no_pair p1 p2 ws -> no_pair p1 p2 (List.map (sub_tok p rep) ws).
Proof.
  intros R1 R2. induction ws as [|w ws IH]; intros H; [exact I|].
  destruct ws as [|n ws]; [exact I|].
  destruct H as [H1 H2]. cbn [List.map no_pair].
  split; [|apply IH; exact H2].
  intros [A B]. apply H1. unfold sub_tok in A, B.
  destruct (str_eqb w p); [congruence|].
  destruct (str_eqb n p); [congruence|]. auto.
Qed.

Lemma fuzzy_tokens_settled ws : settled (fuzzy_tokens ws).
Proof.
  unfold settled, fuzzy_tokens.
  set (t1 := List.map (sub_tok (js "nite") (js "night")) ws).
  set (t2 := List.map (sub_tok (js "midnight") (js "midnigh")) t1).
  set (t3 := List.map (sub_tok (js "midnite") (js "midnigh")) t2).
  set (t4 := merge2 (js "mid") (js "night") (js "midnigh") t3).
  assert (N1 : Forall (fun w => w <> js "nite") t1)
    by (apply sub_tok_removes; discriminate).
  assert (N2 : Forall (fun w => w <> js "nite") t2)
    by (apply sub_tok_avoids; [discriminate|exact N1]).
  assert (M2 : Forall (fun w => w <> js "midnight") t2)
    by (apply sub_tok_removes; discriminate).
  assert (N3 : Forall (fun w => w <> js "nite") t3)
    by (apply sub_tok_avoids; [discriminate|exact N2]).
  assert (M3 : Forall (fun w => w <> js "midnight") t3)
    by (apply sub_tok_avoids; [discriminate|exact M2]).
  assert (T3 : Forall (fun w => w <> js "midnite") t3)
    by (apply sub_tok_removes; discriminate).
  repeat split.
  - apply sub_tok_avoids; [discriminate|].
    apply (merge2_Forall (fun w => w <> js "nite"));
      [discriminate|exact N3].
  - apply sub_tok_avoids; [discriminate|].
    apply (merge2_Forall (fun w => w <> js "midnight"));
      [discriminate|exact M3].
  - apply sub_tok_avoids; [discriminate|].
    apply (merge2_Forall (fun w => w <> js "midnite"));
      [discriminate|exact T3].
  - apply sub_tok_no_pair; [discriminate|discriminate|].
    apply merge2_no_pair with (k := length t3);
      [discriminate|discriminate|apply le_n].
  - apply sub_tok_removes. discriminate.
Qed.

Lemma fuzzy_tokens_fixed ws : settled ws -> fuzzy_tokens ws = ws.
Proof.
  intros (A & B & C & D & E). unfold fuzzy_tokens.
  rewrite (sub_tok_fixed _ _ _ A), (sub_tok_fixed _ _ _ B),
    (sub_tok_fixed _ _ _ C), (merge2_fixed _ _ _ _ D), (sub_tok_fixed _ _ _ E).
  reflexivity.
Qed.

Lemma fuzzy_tokens_idempotent ws :
  fuzzy_tokens (fuzzy_tokens ws) = fuzzy_tokens ws.
Proof. apply fuzzy_tokens_fixed, fuzzy_tokens_settled. Qed.

Ltac good_word := split; [discriminate|repeat constructor].

Lemma fuzzy_tokens_good ws :
  Forall good_tok ws -> Forall good_tok (fuzzy_tokens ws).
Proof.
  intros G. unfold fuzzy_tokens.
  apply sub_tok_good; [good_word|].
  apply (merge2_Forall good_tok); [good_word|].
  repeat (apply sub_tok_good; [good_word|]). exact G.
Qed.

(** [fuzzyNorm] after [normalize], read on words. *)
Lemma fuzzy_after_tokens ws :
  Forall good_tok ws -> fuzzy_after (unwords ws) = unwords (fuzzy_tokens ws).
Proof.
  intros G. unfold fuzzy_after. rewrite !replace_all_rep_from.
  rewrite !re_word_is_units.
  rewrite (replace_word_tokens (js "nite") (js "night")) by
    (try good_word; try assumption; reflexivity).
  assert (G1 := sub_tok_good (js "nite") (js "night") ws ltac:(good_word) G).
  rewrite (replace_word_tokens (js "midnight") (js "midnigh")) by
    (try good_word; try assumption; reflexivity).
  assert (G2 := sub_tok_good (js "midnight") (js "midnigh") _ ltac:(good_word) G1).
  rewrite (replace_word_tokens (js "midnite") (js "midnigh")) by
    (try good_word; try assumption; reflexivity).
  assert (G3 := sub_tok_good (js "midnite") (js "midnigh") _ ltac:(good_word) G2).
  change (js "mid night") with (js "mid" ++ 32 :: js "night").
  rewrite (replace_pair_tokens (js "mid") (js "night") (js "midnigh")
             ltac:(good_word) ltac:(good_word) _ _ None (le_n _) G3 eq_refl).
  assert (G4 := merge2_Forall good_tok (js "mid") (js "night") (js "midnigh")
                  _ ltac:(good_word) G3).
  rewrite (replace_word_tokens (js "tha") (js "the")) by
    (try good_word; try assumption; reflexivity).
  assert (G5 := sub_tok_good (js "tha") (js "the") _ ltac:(good_word) G4).
  fold (fuzzy_tokens ws) in *.
  destruct (tokens_normal_form _ G5) as (F & D & H1 & H2).
  change (js " ") with [32].
  rewrite (collapse_fixed _ None F D).
  apply trim_fixed; intros c;
    apply ok_head_not_space; try assumption. apply Forall_rev. exact F.
Qed.

(** The examples of the specification. *)
Example fuzzyNorm_examples :
  fuzzyNorm (Str (js "Midnite")) = fuzzyNorm (Str (js "Midnight"))
  /\ fuzzyNorm (Str (js "Mid Night")) = fuzzyNorm (Str (js "Midnight"))
  /\ fuzzyNorm (Str (js "Saturday Nite")) = js "saturday night"
  /\ fuzzyNorm (Str (js "Tha Crossroads")) = js "the crossroads"
  /\ fuzzyNorm (Str (js "Dynamite")) = js "dynamite".
Proof. repeat split; vm_compute; reflexivity. Qed.

(** C10.  [fuzzyNorm] is idempotent, and its result is left unchanged by the
    substitutions: it is a fixed point of the part of [fuzzyNorm] that
    follows [normalize]. *)
Theorem fuzzyNorm_idempotent (v : jsval) :
  fuzzyNorm (Str (fuzzyNorm v)) = fuzzyNorm v
  /\ fuzzy_after (fuzzyNorm v) = fuzzyNorm v.
Proof.
  change (fuzzyNorm (Str (fuzzyNorm v)))
    with (fuzzy_after (normalize (Str (fuzzyNorm v)))).
  change (fuzzyNorm v) with (fuzzy_after (normalize v)).
  destruct (normal_form_tokens _ (normalize_normal_form v)) as (ws & G & E).
  rewrite E. rewrite (fuzzy_after_tokens ws G).
  pose proof (fuzzy_tokens_good ws G) as G'.
  rewrite (normalize_fixed _ (tokens_normal_form _ G')).
  rewrite (fuzzy_after_tokens _ G'). rewrite fuzzy_tokens_idempotent.
  split; reflexivity.
Qed.

(** ** [indexOf] *)

Lemma is_prefix_spec p : forall s,
  is_prefix p s = true <-> exists post, s = p ++ post.
Proof.
  induction p as [|a p IH]; intros s.
  - split; [intros _; exists s; reflexivity|reflexivity].
  - destruct s as [|c s].
    + split; [discriminate|intros [post H]; discriminate].
    + cbn [is_prefix]. rewrite andb_true_iff, N.eqb_eq, IH. split.
      * intros [-> [post ->]]. exists post. reflexivity.
      * intros [post H]. inversion H. split; [reflexivity|eauto].
Qed.

Lemma occurs_at_0 pat s : occurs_at pat s 0 <-> is_prefix pat s = true.
Proof.
  rewrite is_prefix_spec. unfold occurs_at. split.
  - intros (pre & post & E & L). destruct pre; [|discriminate].
    exists post. exact E.
  - intros (post & E). exists [], post. split; [exact E|reflexivity].
Qed.

Lemma occurs_at_S pat c s n :
  occurs_at pat (c :: s) (S n) <-> occurs_at pat s n.
Proof.
  unfold occurs_at. split.
  - intros (pre & post & E & L). destruct pre as [|x pre]; [discriminate|].
    inversion E. inversion L. exists pre, post. split; reflexivity.
  - intros (pre & post & E & L). exists (c :: pre), post.
    subst. split; reflexivity.
Qed.

Lemma occurs_at_nil pat n : occurs_at pat [] (S n) -> False.
Proof.
  intros (pre & post & E & L). destruct pre; discriminate.
Qed.

Lemma find_from_some pat : forall s i j,
  find_from pat s i = Some j ->
  exists n, j = (i + Z.of_nat n)%Z /\ first_occurrence pat s n.
Proof.
  induction s as [|c s IH]; intros i j H.
  - cbn [find_from] in H. destruct (is_prefix pat []) eqn:P; [|discriminate].
    inversion H; subst. exists 0%nat. split; [lia|].
    split; [apply occurs_at_0; exact P|intros k Hk; lia].
  - cbn [find_from] in H. destruct (is_prefix pat (c :: s)) eqn:P.
    + inversion H; subst. exists 0%nat. split; [lia|].
      split; [apply occurs_at_0; exact P|intros k Hk; lia].
    + destruct (IH _ _ H) as (n & -> & O & M). exists (S n).
      split; [lia|]. split; [apply occurs_at_S; exact O|].
      intros k Hk K. destruct k as [|k].
      * apply occurs_at_0 in K. congruence.
      * apply occurs_at_S in K. apply (M k); [lia|exact K].
Qed.

Lemma find_from_none pat : forall s i,
  find_from pat s i = None -> forall n, ~ occurs_at pat s n.
Proof.
  induction s as [|c s IH]; intros i H n O.
  - cbn [find_from] in H. destruct (is_prefix pat []) eqn:P; [discriminate|].
    destruct n; [apply occurs_at_0 in O; congruence|].
    exact (occurs_at_nil _ _ O).
  - cbn [find_from] in H. destruct (is_prefix pat (c :: s)) eqn:P;
      [discriminate|].
    destruct n; [apply occurs_at_0 in O; congruence|].
    apply occurs_at_S in O. exact (IH _ H n O).
Qed.

Lemma first_occurrence_unique pat s n m :
  first_occurrence pat s n -> first_occurrence pat s m -> n = m.
Proof.
  intros [O1 M1] [O2 M2].
  destruct (Nat.lt_trichotomy n m) as [H|[H|H]]; [|exact H|].
  - exfalso. exact (M2 n H O1).
  - exfalso. exact (M1 m H O2).
Qed.

(** [indexOf] returns the index of the first occurrence, or [-1] when there
    is none. *)
Lemma indexOf_first s pat n :
  first_occurrence pat s n <-> indexOf s pat = Z.of_nat n.
Proof.
  unfold indexOf. destruct (find_from pat s 0) as [j|] eqn:E.
  - destruct (find_from_some _ _ _ _ E) as (k & -> & F). split.
    + intros F'. rewrite (first_occurrence_unique _ _ _ _ F F'). lia.
    + intros H. assert (k = n) by lia. subst. exact F.
  - split.
    + intros [O _]. exfalso. exact (find_from_none _ _ _ E n O).
    + lia.
Qed.

Lemma indexOf_range s pat :
  indexOf s pat = (-1)%Z \/ exists n, indexOf s pat = Z.of_nat n.
Proof.
  unfold indexOf. destruct (find_from pat s 0) as [j|] eqn:E.
  - right. destruct (find_from_some _ _ _ _ E) as (k & -> & _).
    exists k. lia.
  - left. reflexivity.
Qed.

Lemma indexOf_present (s pat pre post : str) :
  s = pre ++ pat ++ post -> (0 <=? indexOf s pat)%Z = true.
Proof.
  intros E. unfold indexOf. destruct (find_from pat s 0) as [j|] eqn:F.
  - apply find_from_some in F. destruct F as (n & -> & _).
    apply Z.leb_le. lia.
  - exfalso. apply (find_from_none pat s 0%Z F (length pre)).
    exists pre, post. split; [exact E|reflexivity].
Qed.

(** ** [parseArtistTrack] *)

Lemma parseArtistTrack_from_spec query : forall rem,
  (exists higher sep lower i,
      rem = higher ++ sep :: lower
      /\ first_occurrence sep query i /\ (0 < i)%nat
      /\ (forall sep' i', In sep' higher ->
            first_occurrence sep' query i' -> i' = 0%nat)
      /\ parseArtistTrack_from rem query
         = {| artist := trim (firstn i query);
              track := trim (skipn (i + length sep) query) |})
  \/ ((forall sep i, In sep rem -> first_occurrence sep query i -> i = 0%nat)
      /\ parseArtistTrack_from rem query = {| artist := []; track := query |}).
Proof.
  induction rem as [|sep rem IH].
  - right. split; [intros ? ? []|reflexivity].
  - cbn [parseArtistTrack_from].
    destruct (0 <? indexOf query sep)%Z eqn:E.
    + left. apply Z.ltb_lt in E.
      destruct (indexOf_range query sep) as [H|[n H]]; [lia|].
      exists [], sep, rem, n. split; [reflexivity|].
      split; [apply indexOf_first; exact H|].
      split; [lia|]. split; [intros ? ? []|].
      rewrite H. unfold substring, substring_from.
      rewrite Nat2Z.id. cbn [Z.to_nat skipn]. rewrite Nat.sub_0_r.
      replace (Z.to_nat (Z.of_nat n + Z.of_nat (length sep)))
        with (n + length sep)%nat by lia.
      reflexivity.
    + apply Z.ltb_ge in E.
      assert (Hsep : forall i, first_occurrence sep query i -> i = 0%nat).
      { intros i F. apply indexOf_first in F. lia. }
      destruct IH as [(higher & sep2 & lower & i & -> & F & P & Hh & R)
                     |[Hn R]].
      * left. exists (sep :: higher), sep2, lower, i.
        split; [reflexivity|]. split; [exact F|]. split; [exact P|].
        split; [|exact R].
        intros sep' i' [<-|Hin]; [apply Hsep|apply Hh; exact Hin].
      * right. split; [|exact R].
        intros sep' i' [<-|Hin]; [apply Hsep|apply Hn; exact Hin].
Qed.

(** C6.  The separators are tried in the fixed order pipe, hyphen, en dash,
    em dash, colon.  Either some separator [sep] has its first occurrence at
    an index [i > 0] while every separator of higher priority occurs first
    at index 0 or not at all, and then the artist is the text before index
    [i] and the track the text after [sep], each without the white space at
    its two ends, whatever the separators of lower priority do; or no
    separator has its first occurrence at an index above 0, and then the
    artist is empty and the track is the whole query, unchanged. *)
Theorem parseArtistTrack_priority (query : str) :
  seps = [js " | "; js " - "; [32; 8211; 32]; [32; 8212; 32]; js ": "]
  /\ ((exists higher sep lower i,
         seps = higher ++ sep :: lower
         /\ first_occurrence sep query i /\ (0 < i)%nat
         /\ (forall sep' i', In sep' higher ->
               first_occurrence sep' query i' -> i' = 0%nat)
         /\ trimmed_of (firstn i query) (artist (parseArtistTrack query))
         /\ trimmed_of (skipn (i + length sep) query)
              (track (parseArtistTrack query)))
      \/ ((forall sep i, In sep seps -> first_occurrence sep query i ->
             i = 0%nat)
          /\ parseArtistTrack query = {| artist := []; track := query |})).
Proof.
  split; [reflexivity|]. unfold parseArtistTrack.
  destruct (parseArtistTrack_from_spec query seps)
    as [(higher & sep & lower & i & E & F & P & Hh & R)|H]; [left|right; exact H].
  exists higher, sep, lower, i. rewrite R. cbn [artist track].
  split; [exact E|]. split; [exact F|]. split; [exact P|].
  split; [exact Hh|]. split; apply trim_spec; reflexivity.
Qed.

(** The examples of the specification: the pipe wins over a hyphen, also
    over one that comes earlier, and a leading separator does not split. *)
Example parseArtistTrack_examples :
  parseArtistTrack (js "A | B - C") = {| artist := js "A"; track := js "B - C" |}
  /\ parseArtistTrack (js "A - B | C")
     = {| artist := js "A - B"; track := js "C" |}
  /\ parseArtistTrack (js " - Track Only")
     = {| artist := []; track := js " - Track Only" |}.
Proof. repeat split; vm_compute; reflexivity. Qed.

(** ** [tracklistContains] *)

Lemma str_in_spec x l : str_in x l = true <-> In x l.
Proof.
  unfold str_in. rewrite existsb_exists. split.
  - intros (y & Hy & E). apply str_eqb_eq in E. subst. exact Hy.
  - intros H. exists x. split; [exact H|apply str_eqb_refl].
Qed.

Lemma split_on_word w : ~ In 32 w -> split_on 32 w = [w].
Proof.
  induction w as [|c w IH]; intros H; [reflexivity|]. cbn [split_on].
  destruct (c =? 32) eqn:E.
  - apply N.eqb_eq in E. exfalso. apply H. left. exact E.
  - rewrite IH; [reflexivity|]. intros K. apply H. right. exact K.
Qed.

Lemma split_on_blank w t :
  ~ In 32 w -> split_on 32 (w ++ 32 :: t) = w :: split_on 32 t.
Proof.
  induction w as [|c w IH]; intros H; [reflexivity|].
  cbn [app split_on]. destruct (c =? 32) eqn:E.
  - apply N.eqb_eq in E. exfalso. apply H. left. exact E.
  - rewrite IH; [reflexivity|]. intros K. apply H. right. exact K.
Qed.

Lemma split_on_unwords : forall ws,
  ws <> [] -> Forall (fun w => ~ In 32 w) ws -> split_on 32 (unwords ws) = ws.
Proof.
  induction ws as [|w ws IH]; intros N F; [congruence|].
  inversion F as [|? ? Hw Hws]; subst. cbn [unwords].
  destruct ws as [|w2 ws].
  - rewrite app_nil_r. apply split_on_word, Hw.
  - rewrite (split_on_blank _ _ Hw), IH; [reflexivity|discriminate|exact Hws].
Qed.

Lemma words_of_split_on s : words_of s (split_on 32 s).
Proof.
  unfold words_of. induction s as [|c s IH].
  - split; [discriminate|]. split; [|reflexivity].
    constructor; [intros []|constructor].
  - destruct IH as (N & F & E).
    cbn [split_on]. destruct (c =? 32) eqn:C.
    + apply N.eqb_eq in C. subst c. split; [discriminate|]. split.
      * constructor; [intros []|exact F].
      * cbn [unwords app]. destruct (split_on 32 s); [congruence|].
        rewrite <- E. reflexivity.
    + destruct (split_on 32 s) as [|w ws]; [congruence|].
      split; [discriminate|].
      pose proof (Forall_inv F) as Hw. pose proof (Forall_inv_tail F) as Hws.
      cbn beta in Hw. split.
      * constructor; [|exact Hws]. intros [K|K]; [|exact (Hw K)].
        rewrite K in C. discriminate.
      * rewrite E. reflexivity.
Qed.

(** A string has one list of words, the one [split(" ")] returns. *)
Lemma words_of_unique s ws : words_of s ws <-> ws = split_on 32 s.
Proof.
  split.
  - intros (N & F & ->). symmetry. apply split_on_unwords; assumption.
  - intros ->. apply words_of_split_on.
Qed.

Lemma word_of_split_on w s : word_of w s <-> In w (split_on 32 s).
Proof.
  unfold word_of. split.
  - intros (ws & W & I). apply words_of_unique in W. subst ws. exact I.
  - intros I. exists (split_on 32 s). split; [apply words_of_split_on|exact I].
Qed.

Lemma wordsContain_spec haystack needle :
  wordsContain haystack needle = true <-> word_set_contained needle haystack.
Proof.
  unfold wordsContain, word_set_contained. rewrite forallb_forall.
  split; intros H w Hw.
  - apply word_of_split_on, str_in_spec, H, word_of_split_on, Hw.
  - apply str_in_spec, word_of_split_on, H, word_of_split_on, Hw.
Qed.

(** The test that skips an entry lets through the kind "track" and the
    entries without a kind. *)
Lemma not_a_track_spec t : not_a_track t = false <-> kind_track_or_none t.
Proof.
  unfold not_a_track, kind_track_or_none.
  destruct (type_ t) as [| |k]; cbn [truthy or_empty andb].
  - split; [auto|reflexivity].
  - split; [auto|reflexivity].
  - destruct k as [|c k]; cbn [truthy andb].
    + split; [auto|reflexivity].
    + rewrite negb_false_iff. split.
      * intros E. apply str_eqb_eq in E. rewrite E. auto.
      * intros [H|[H|[H|H]]]; try discriminate.
        replace (c :: k) with (js "track") by congruence.
        apply str_eqb_refl.
Qed.

Lemma normalize_falsy v : truthy v = false -> normalize v = [].
Proof.
  destruct v as [| |s]; try reflexivity.
  destruct s; [reflexivity|discriminate].
Qed.

Lemma tracklist_scan_short needle nf l :
  tracklist_scan needle nf true l = true
  <-> exists t, In t l
        /\ (not_a_track t = false /\ normalize (title t) <> [])
        /\ normalize (title t) = needle.
Proof.
  induction l as [|t l IH].
  - split; [discriminate|intros (t & [] & _)].
  - cbn [tracklist_scan]. destruct (not_a_track t) eqn:K.
    + rewrite IH. split.
      * intros (u & Hu & R). exists u. split; [right; exact Hu|exact R].
      * intros (u & [<-|Hu] & (K' & N) & E); [congruence|]. eauto.
    + destruct (normalize (title t)) as [|c n] eqn:T.
      * rewrite IH. split.
        -- intros (u & Hu & R). exists u. split; [right; exact Hu|exact R].
        -- intros (u & [<-|Hu] & (K' & N) & E); [congruence|]. eauto.
      * destruct (str_eqb (c :: n) needle) eqn:E.
        -- split; [intros _|reflexivity]. apply str_eqb_eq in E.
           exists t. rewrite T. repeat split; try assumption.
           ++ left. reflexivity.
           ++ discriminate.
        -- rewrite IH. split.
           ++ intros (u & Hu & R). exists u. split; [right; exact Hu|exact R].
           ++ intros (u & [<-|Hu] & (K' & N) & E'); [|eauto].
              rewrite T in E'. rewrite <- E', str_eqb_refl in E. discriminate.
Qed.

Lemma tracklist_scan_long trackName l :
  tracklist_scan (normalize trackName) (fuzzyNorm trackName) false l = true
  <-> exists t, In t l
        /\ (not_a_track t = false /\ normalize (title t) <> [])
        /\ words_overlap t trackName.
Proof.
  unfold words_overlap. induction l as [|t l IH].
  - split; [discriminate|intros (t & [] & _)].
  - cbn [tracklist_scan]. destruct (not_a_track t) eqn:K.
    + rewrite IH. split.
      * intros (u & Hu & R). exists u. split; [right; exact Hu|exact R].
      * intros (u & [<-|Hu] & (K' & N) & E); [congruence|]. eauto.
    + destruct (normalize (title t)) as [|c n] eqn:T.
      * rewrite IH. split.
        -- intros (u & Hu & R). exists u. split; [right; exact Hu|exact R].
        -- intros (u & [<-|Hu] & (K' & N) & E); [congruence|]. eauto.
      * rewrite <- T.
        destruct (wordsContain (normalize (title t)) (normalize trackName)
                  || wordsContain (normalize trackName) (normalize (title t)))
          eqn:W1.
        { split; [intros _|reflexivity]. exists t.
          split; [left; reflexivity|]. split; [split; [exact K|congruence]|].
          apply orb_true_iff in W1. rewrite !wordsContain_spec in W1.
          tauto. }
        destruct (wordsContain (fuzzyNorm (title t)) (fuzzyNorm trackName)
                  || wordsContain (fuzzyNorm trackName) (fuzzyNorm (title t)))
          eqn:W2.
        { split; [intros _|reflexivity]. exists t.
          split; [left; reflexivity|]. split; [split; [exact K|congruence]|].
          apply orb_true_iff in W2. rewrite !wordsContain_spec in W2.
          tauto. }
        rewrite IH. split.
        -- intros (u & Hu & R). exists u. split; [right; exact Hu|exact R].
        -- intros (u & [<-|Hu] & KN & O); [|eauto].
           exfalso. apply orb_false_iff in W1. apply orb_false_iff in W2.
           destruct W1 as [A B]. destruct W2 as [C D].
           rewrite <- not_true_iff_false, wordsContain_spec in A, B, C, D.
           tauto.
Qed.

(** C5.  [tracklistContains] is false when the normalised track name has
    fewer than two code units; for a normalised name of two or three code
    units it is true exactly when some entry of kind "track" (or without a
    kind) has a non-empty normalised title equal to the name; for four code
    units or more it is true exactly when for some such entry the words of
    one are all whole words of the other, in either direction, on the
    normalised forms or on the fuzzy forms. *)
Theorem tracklistContains_spec (tracklist : option (list TracklistEntry))
    (trackName : jsval) :
  ((length (normalize trackName) < 2)%nat ->
     tracklistContains tracklist trackName = false)
  /\ ((2 <= length (normalize trackName) <= 3)%nat ->
      (tracklistContains tracklist trackName = true
       <-> exists l t, tracklist = Some l /\ In t l /\ eligible_entry t
                       /\ normalize (title t) = normalize trackName))
  /\ ((4 <= length (normalize trackName))%nat ->
      (tracklistContains tracklist trackName = true
       <-> exists l t, tracklist = Some l /\ In t l /\ eligible_entry t
                       /\ words_overlap t trackName)).
Proof.
  unfold tracklistContains, eligible_entry. split; [|split].
  - intros H. destruct tracklist as [l|]; [|reflexivity].
    destruct (_ || _); [reflexivity|].
    apply Nat.ltb_lt in H. rewrite H. reflexivity.
  - intros [H2 H3]. destruct tracklist as [l|].
    2:{ split; [discriminate|intros (l & t & E & _); discriminate]. }
    assert (T : truthy trackName = true).
    { destruct (truthy trackName) eqn:T; [reflexivity|].
      rewrite (normalize_falsy _ T) in H2. simpl in H2. lia. }
    rewrite T. cbn [negb]. rewrite orb_false_r.
    destruct l as [|t0 l].
    { split; [discriminate|]. intros (l & t & E & I & _).
      inversion E; subst. destruct I. }
    cbn [length Nat.eqb].
    replace (length (normalize trackName) <? 2)%nat with false
      by (symmetry; apply Nat.ltb_ge; lia).
    replace (length (normalize trackName) <=? 3)%nat with true
      by (symmetry; apply Nat.leb_le; lia).
    rewrite tracklist_scan_short. split.
    + intros (t & I & (K & N) & E). exists (t0 :: l), t.
      split; [reflexivity|]. split; [exact I|].
      split; [split; [apply not_a_track_spec, K|exact N]|exact E].
    + intros (l' & t & E & I & (K & N) & R). inversion E; subst. exists t.
      split; [exact I|].
      split; [split; [apply not_a_track_spec, K|exact N]|exact R].
  - intros H4. destruct tracklist as [l|].
    2:{ split; [discriminate|intros (l & t & E & _); discriminate]. }
    assert (T : truthy trackName = true).
    { destruct (truthy trackName) eqn:T; [reflexivity|].
      rewrite (normalize_falsy _ T) in H4. simpl in H4. lia. }
    rewrite T. cbn [negb]. rewrite orb_false_r.
    destruct l as [|t0 l].
    { split; [discriminate|]. intros (l & t & E & I & _).
      inversion E; subst. destruct I. }
    cbn [length Nat.eqb].
    replace (length (normalize trackName) <? 2)%nat with false
      by (symmetry; apply Nat.ltb_ge; lia).
    replace (length (normalize trackName) <=? 3)%nat with false
      by (symmetry; apply Nat.leb_gt; lia).
    rewrite tracklist_scan_long. split.
    + intros (t & I & (K & N) & O). exists (t0 :: l), t.
      split; [reflexivity|]. split; [exact I|].
      split; [split; [apply not_a_track_spec, K|exact N]|exact O].
    + intros (l' & t & E & I & (K & N) & O). inversion E; subst. exists t.
      split; [exact I|].
      split; [split; [apply not_a_track_spec, K|exact N]|exact O].
Qed.

(** The examples of the specification. *)
Example tracklistContains_examples :
  tracklistContains (Some [titled "Ok"]) (Str (js "OK")) = true
  /\ tracklistContains (Some [titled "Longer Track Name"]) (Str (js "Lo"))
     = false
  /\ tracklistContains (Some [titled "A"]) (Str (js "A")) = false
  /\ tracklistContains (Some [titled "Firestarter"]) (Str (js "Fire")) = false
  /\ tracklistContains (Some [titled "Blue Monday Remix"])
       (Str (js "Blue Monday")) = true
  /\ tracklistContains (Some [titled "Saturday Night"])
       (Str (js "Saturday Nite")) = true
  /\ tracklistContains
       (Some [{| type_ := Str (js "heading"); title := Str (js "Side One") |}])
       (Str (js "Side One")) = false.
Proof. repeat split; vm_compute; reflexivity. Qed.

(** Uses of the three parts of the theorem: the one-letter name "A"; the
    short name "OK" against the title "Ok"; the name "Blue Monday", found in
    the track "Blue Monday Remix" behind a heading, and the name "Side One",
    not found in a tracklist that has it as a heading only. *)
Lemma tracklistContains_spec_witness :
  let side := {| type_ := Str (js "heading"); title := Str (js "Side One") |} in
  ((length (normalize (Str (js "A"))) < 2)%nat
   /\ tracklistContains (Some [titled "A"]) (Str (js "A")) = false)
  /\ ((2 <= length (normalize (Str (js "OK"))) <= 3)%nat
      /\ tracklistContains (Some [titled "Ok"]) (Str (js "OK")) = true)
  /\ ((4 <= length (normalize (Str (js "Blue Monday"))))%nat
      /\ tracklistContains (Some [side; titled "Blue Monday Remix"])
           (Str (js "Blue Monday")) = true)
  /\ ((4 <= length (normalize (Str (js "Side One"))))%nat
      /\ tracklistContains (Some [side]) (Str (js "Side One")) = false).
Proof.
  cbv zeta.
  assert (H1 : (length (normalize (Str (js "A"))) < 2)%nat)
    by (vm_compute; lia).
  assert (H2 : (2 <= length (normalize (Str (js "OK"))) <= 3)%nat)
    by (vm_compute; lia).
  assert (H3 : (4 <= length (normalize (Str (js "Blue Monday"))))%nat)
    by (vm_compute; lia).
  assert (H4 : (4 <= length (normalize (Str (js "Side One"))))%nat)
    by (vm_compute; lia).
  split; [split; [exact H1|]|split; [split; [exact H2|]
                            |split; [split; [exact H3|]|split; [exact H4|]]]].
  - exact (proj1 (tracklistContains_spec _ _) H1).
  - apply (proj1 (proj2 (tracklistContains_spec _ _)) H2).
    exists [titled "Ok"], (titled "Ok").
    split; [reflexivity|]. split; [left; reflexivity|].
    split; [split; [left; reflexivity|vm_compute; discriminate]|].
    vm_compute. reflexivity.
  - apply (proj2 (proj2 (tracklistContains_spec _ _)) H3).
    eexists _, (titled "Blue Monday Remix").
    split; [reflexivity|]. split; [right; left; reflexivity|].
    split; [split; [left; reflexivity|vm_compute; discriminate]|].
    left. apply wordsContain_spec. vm_compute. reflexivity.
  - destruct (tracklistContains
                (Some [{| type_ := Str (js "heading");
                          title := Str (js "Side One") |}])
                (Str (js "Side One"))) eqn:E; [|reflexivity].
    apply (proj2 (proj2 (tracklistContains_spec _ _)) H4) in E.
    destruct E as (l & t & El & I & (K & _) & _).
    injection El as <-. destruct I as [<-|[]].
    destruct K as [K|[K|[K|K]]]; vm_compute in K; discriminate K.
Defined.

(** ** Where a pattern matches *)

Lemma first_hit : forall ps seen,
  match hd_error (hits_of ps seen) with
  | Some _ => true
  | None => false
  end = existsb is_hit ps.
Proof.
  induction ps as [|[c|t g] ps IH]; intros seen; cbn [hits_of existsb is_hit];
    [reflexivity|apply IH|reflexivity].
Qed.

Lemma test_has_hit r s : test r s = existsb is_hit (pieces r s).
Proof. unfold test, match_first, exec_all. apply first_hit. Qed.

Lemma scan_has_hit r : forall s prev,
  existsb is_hit (scan r prev 0 s) = true
  <-> exists pre post,
        s = pre ++ post /\ match_here r (last_or prev pre) post <> None.
Proof.
  induction s as [|c s IH]; intros prev.
  - cbn [scan]. split.
    + intros H. exists [], []. split; [reflexivity|].
      change (last_or prev []) with prev.
      destruct (match_here r prev []); [discriminate|discriminate].
    + intros (pre & post & E & M). symmetry in E.
      apply app_eq_nil in E. destruct E as [-> ->].
      change (last_or prev []) with prev in M.
      destruct (match_here r prev []) as [[n g]|]; [reflexivity|contradiction].
  - cbn [scan]. destruct (match_here r prev (c :: s)) as [[n g]|] eqn:M.
    + split.
      * intros _. exists [], (c :: s). split; [reflexivity|].
        change (last_or prev []) with prev. rewrite M. discriminate.
      * intros _. destruct n; reflexivity.
    + cbn [existsb is_hit orb]. rewrite IH. split.
      * intros (pre & post & E & K). exists (c :: pre), post.
        split; [rewrite E; reflexivity|]. rewrite last_or_cons. exact K.
      * intros (pre & post & E & K). destruct pre as [|c' pre].
        -- cbn [app] in E. subst post.
           change (last_or prev []) with prev in K. contradiction.
        -- cbn [app] in E. inversion E; subst c' s.
           exists pre, post. split; [reflexivity|].
           rewrite last_or_cons in K. exact K.
Qed.

Lemma test_spec r s :
  test r s = true
  <-> exists pre post,
        s = pre ++ post /\ match_here r (last_or None pre) post <> None.
Proof. rewrite test_has_hit. apply scan_has_hit. Qed.

(** The leftmost match, when there is one. *)
Lemma first_hit_at r : forall pre post prev seen n g,
  (forall p1 p2, pre = p1 ++ p2 -> p2 <> [] ->
     match_here r (last_or prev p1) (p2 ++ post) = None) ->
  match_here r (last_or prev pre) post = Some (n, g) ->
  hd_error (hits_of (scan r prev 0 (pre ++ post)) seen)
  = Some (MatchResult (seen ++ pre) (firstn n post) g).
Proof.
  induction pre as [|c pre IH]; intros post prev seen n g Miss Hit.
  - change (last_or prev []) with prev in Hit. rewrite app_nil_r.
    cbn [app]. destruct post as [|c s]; cbn [scan]; rewrite Hit.
    + destruct n; reflexivity.
    + destruct n; reflexivity.
  - pose proof (Miss [] (c :: pre) eq_refl ltac:(discriminate)) as M0.
    change (last_or prev []) with prev in M0. cbn [app] in M0 |- *.
    cbn [scan]. rewrite M0. cbn [hits_of].
    rewrite (IH post (Some c) (seen ++ [c]) n g).
    + rewrite <- app_assoc. reflexivity.
    + intros p1 p2 -> K. rewrite <- (last_or_cons prev).
      apply (Miss (c :: p1) p2); [reflexivity|exact K].
    + rewrite <- (last_or_cons prev). exact Hit.
Qed.

Lemma replace_first_at r rep pre post g :
  (forall p1 p2, pre = p1 ++ p2 -> p2 <> [] ->
     match_here r (last_or None p1) (p2 ++ post) = None) ->
  match_here r (last_or None pre) post = Some (length post, g) ->
  replace_first r rep (pre ++ post) = pre ++ rep.
Proof.
  intros Miss Hit. unfold replace_first, match_first, exec_all, pieces.
  rewrite (first_hit_at r pre post None [] _ g Miss Hit).
  cbn [m_before m_text app]. rewrite firstn_all, <- length_app, skipn_all.
  rewrite app_nil_r. reflexivity.
Qed.

Lemma replace_first_none r rep s :
  (forall pre post, s = pre ++ post ->
     match_here r (last_or None pre) post = None) ->
  replace_first r rep s = s.
Proof.
  intros Miss. unfold replace_first.
  destruct (test r s) eqn:T.
  - apply test_spec in T. destruct T as (pre & post & E & M).
    rewrite (Miss pre post E) in M. contradiction.
  - unfold test in T. destruct (match_first r s); [discriminate|reflexivity].
Qed.

(** ** Literals without regard to case *)

Lemma liti_is_units w : liti w = liti_units (js w).
Proof. reflexivity. Qed.

Lemma is_prefix_ci_length p : forall s,
  is_prefix_ci p s = true -> (length p <= length s)%nat.
Proof.
  induction p as [|a p IH]; intros s H; [cbn; lia|].
  destruct s as [|c s]; [discriminate|].
  cbn [is_prefix_ci] in H. apply andb_true_iff in H. destruct H as [_ H].
  apply IH in H. cbn [length]. lia.
Qed.

Lemma rmatch_liti_units k : forall p b s g,
  rmatch (liti_units p) k (MState b s g)
  = if is_prefix_ci p s
    then k (MState (last_or b (firstn (length p) s)) (skipn (length p) s) g)
    else None.
Proof.
  unfold liti_units.
  induction p as [|a p IH]; intros b s g.
  - reflexivity.
  - cbn [List.map seq_of].
    change (rmatch (Seq ?x ?y) k ?st) with (rmatch x (rmatch y k) st).
    destruct s as [|c s]; [reflexivity|].
    rewrite rmatch_chr. cbn [is_prefix_ci].
    destruct (fold_case c =? fold_case a); [|reflexivity]. cbn [andb].
    rewrite IH. cbn [length firstn skipn]. rewrite last_or_cons. reflexivity.
Qed.

Lemma match_here_liti p prev s :
  match_here (liti_units p) prev s
  = if is_prefix_ci p s then Some (length p, []) else None.
Proof.
  unfold match_here. rewrite rmatch_liti_units.
  destruct (is_prefix_ci p s) eqn:P; [|reflexivity].
  cbn [rest caps]. f_equal. f_equal.
  apply is_prefix_ci_length in P. rewrite length_skipn. lia.
Qed.

Lemma is_prefix_ci_spec p : forall s,
  is_prefix_ci p s = true
  <-> exists w post, s = w ++ post /\ same_fold p w.
Proof.
  unfold same_fold. induction p as [|a p IH]; intros s.
  - cbn [is_prefix_ci]. split; [|reflexivity].
    intros _. exists [], s. split; reflexivity.
  - destruct s as [|c s]; cbn [is_prefix_ci].
    + split; [discriminate|]. intros (w & post & E & F).
      destruct w; [discriminate F|discriminate E].
    + rewrite andb_true_iff, IH, N.eqb_eq. split.
      * intros (E & w & post & -> & F). exists (c :: w), post.
        split; [reflexivity|]. cbn [List.map]. rewrite E, F. reflexivity.
      * intros (w & post & E & F). destruct w as [|c' w]; [discriminate F|].
        cbn [app List.map] in E, F. injection E as -> ->.
        injection F as F1 F2. split; [exact F1|].
        exists w, post. split; [reflexivity|exact F2].
Qed.

(** A greedy run of one class, followed by something that cannot begin
    with a code unit of the class: no backtracking into the run. *)
Lemma star_chr_then p (K : cont) :
  (forall b c s g, p c = true -> K (MState b (c :: s) g) = None) ->
  forall n b s g, (length s <= n)%nat ->
  star_loop (rmatch (Chr p)) n K (MState b s g)
  = K (MState (last_or b (take_while p s)) (drop_while p s) g).
Proof.
  intros HK. induction n as [|n IH]; intros b s g Hn.
  - destruct s; [|cbn in Hn; lia]. reflexivity.
  - cbn [star_loop]. destruct s as [|c s].
    + rewrite rmatch_chr_nil. reflexivity.
    + rewrite rmatch_chr. cbn [take_while drop_while].
      destruct (p c) eqn:Pc; [|reflexivity].
      cbn [rest length].
      replace (length s <? S (length s))%nat with true
        by (symmetry; apply Nat.ltb_lt; lia).
      rewrite IH by (cbn in Hn; lia). rewrite last_or_cons.
      destruct (K (MState (last_or (Some c) (take_while p s))
                     (drop_while p s) g)) eqn:E; [reflexivity|].
      apply HK, Pc.
Qed.

(** ** The listing loop of [parseFilteredPage] *)

Lemma process_block_spec usOnly vgPlus a block :
  let a' := process_block usOnly vgPlus a block in
  acc_listingsOnPage a'
    = (acc_listingsOnPage a + bump (is_validated block))%Z
  /\ acc_matched a'
     = (acc_matched a + bump (passes_filters usOnly vgPlus block))%Z
  /\ acc_prices a'
     = acc_prices a
       ++ (if passes_filters usOnly vgPlus block
           then price_list (listing_price block) else [])
  /\ ((acc_lowest a = None <-> acc_prices a = [])
      -> (acc_lowest a' = None <-> acc_prices a' = [])).
Proof.
  unfold process_block, is_validated, passes_filters, bump.
  destruct (validated block) as [condMatch|].
  2:{ cbn. rewrite !Z.add_0_r, app_nil_r. tauto. }
  destruct (vgPlus && negb (isVGPlusOrBetter (group_text 1 condMatch))).
  { cbn. rewrite Z.add_0_r, app_nil_r. tauto. }
  destruct (usOnly && negb (ships_from_us block)).
  { cbn. rewrite Z.add_0_r, app_nil_r. tauto. }
  destruct (listing_price block) as [val|]; cbn.
  - repeat split; try reflexivity.
    + intros H1. exfalso. destruct (acc_lowest a) as [low|];
        [destruct (Qltb val low)|]; discriminate.
    + intros H1. exfalso. destruct (acc_prices a); discriminate.
  - rewrite app_nil_r. tauto.
Qed.

Lemma listing_loop_spec usOnly vgPlus : forall blocks a,
  let a' := fold_left (process_block usOnly vgPlus) blocks a in
  acc_listingsOnPage a'
    = (acc_listingsOnPage a
       + Z.of_nat (length (filter is_validated blocks)))%Z
  /\ acc_matched a'
     = (acc_matched a
        + Z.of_nat (length (filter (passes_filters usOnly vgPlus) blocks)))%Z
  /\ acc_prices a'
     = acc_prices a
       ++ flat_map (fun b => price_list (listing_price b))
            (filter (passes_filters usOnly vgPlus) blocks)
  /\ ((acc_lowest a = None <-> acc_prices a = [])
      -> (acc_lowest a' = None <-> acc_prices a' = [])).
Proof.
  induction blocks as [|b blocks IH]; intros a.
  - cbn. rewrite !Z.add_0_r, app_nil_r. tauto.
  - cbn [fold_left].
    destruct (process_block_spec usOnly vgPlus a b) as (L & M & P & W).
    destruct (IH (process_block usOnly vgPlus a b)) as (L' & M' & P' & W').
    cbv zeta in *. cbn [filter]. unfold bump in *.
    split; [|split; [|split]].
    + rewrite L', L. destruct (is_validated b); cbn [length]; lia.
    + rewrite M', M.
      destruct (passes_filters usOnly vgPlus b); cbn [length]; lia.
    + rewrite P', P.
      destruct (passes_filters usOnly vgPlus b); cbn [flat_map];
        rewrite <- app_assoc; reflexivity.
    + intros H1. apply W', W, H1.
Qed.

Lemma passes_validated usOnly vgPlus block :
  passes_filters usOnly vgPlus block = true -> is_validated block = true.
Proof.
  unfold passes_filters, is_validated. destruct (validated block);
    [reflexivity|discriminate].
Qed.

Lemma filter_passes_nil usOnly vgPlus blocks :
  filter is_validated blocks = [] ->
  filter (passes_filters usOnly vgPlus) blocks = [].
Proof.
  induction blocks as [|b blocks IH]; [reflexivity|].
  cbn [filter]. destruct (is_validated b) eqn:V; [discriminate|].
  intros H. destruct (passes_filters usOnly vgPlus b) eqn:P.
  - apply passes_validated in P. congruence.
  - apply IH, H.
Qed.

(** The fields of the result, before the cap. *)
Lemma parseFilteredPage_fields html usOnly vgPlus :
  let r := parseFilteredPage html usOnly vgPlus in
  let n := validated_count html in
  let m := Z.of_nat (length (filter (passes_filters usOnly vgPlus)
                               (listing_blocks html))) in
  let cap := hasPagination html && (0 <? total r)%Z in
  listingsOnPage r = (if cap && (total r <? n)%Z then total r else n)
  /\ matched r = (if cap && (total r <? m)%Z then total r else m)
  /\ prices r = flat_map (fun b => price_list (listing_price b))
                  (filter (passes_filters usOnly vgPlus) (listing_blocks html))
  /\ (lowest r = None <-> prices r = [])
  /\ (hasPagination html = false ->
      total r = if (0 <? n)%Z then n
                else if test re_no_results html then 0%Z
                else count_matches re_marker html).
Proof.
  unfold parseFilteredPage, hasPagination, validated_count.
  set (a0 := {| acc_listingsOnPage := 0; acc_matched := 0;
                acc_prices := []; acc_lowest := None |}).
  destruct (listing_loop_spec usOnly vgPlus (listing_blocks html) a0)
    as (L & M & P & W).
  cbv zeta in *. cbn [total listingsOnPage matched prices lowest].
  assert (W0 : acc_lowest a0 = None <-> acc_prices a0 = []) by (cbn; tauto).
  apply W in W0. rewrite L, M, P in *.
  cbn [a0 acc_listingsOnPage acc_matched acc_prices app] in *.
  rewrite !Z.add_0_l.
  split; [reflexivity|]. split; [reflexivity|]. split; [reflexivity|].
  split; [exact W0|].
  destruct (match_first re_count html); [discriminate|]. intros _.
  cbn [negb andb]. reflexivity.
Qed.









(** ** The price of a listing *)




Lemma rmatch_group i r k st :
  rmatch (Group i r) k st
  = rmatch r (fun st' =>
                k (MState (before st') (rest st')
                     ((i, firstn (length (rest st) - length (rest st')) (rest st))
                        :: caps st'))) st.
Proof. reflexivity. Qed.










(** ** The matches of a scan *)

Lemma match_here_le r prev s n g :
  match_here r prev s = Some (n, g) -> (n <= length s)%nat.
Proof.
  unfold match_here. destruct (rmatch r _ _); [|discriminate].
  intros H. apply some_eq in H. injection H as <- _. lia.
Qed.

Lemma last_or_app prev a b : last_or prev (a ++ b) = last_or (last_or prev a) b.
Proof.
  revert prev. induction a as [|c a IH]; intros prev; [reflexivity|].
  cbn [app]. rewrite !last_or_cons. apply IH.
Qed.

(** Every match a scan finds stands in the string at the place the match
    object says, and the pattern matches there. *)
Lemma hits_of_scan r : forall k s prev seen pm,
  (length s <= k)%nat ->
  In pm (hits_of (scan r prev 0 s) seen) ->
  exists pre post,
    s = pre ++ m_text pm ++ post /\ m_before pm = seen ++ pre
    /\ match_here r (last_or prev pre) (m_text pm ++ post)
       = Some (length (m_text pm), m_groups pm).
Proof.
  induction k as [|k IH]; intros s prev seen pm Hk.
  - destruct s; [|cbn in Hk; lia]. cbn [scan].
    destruct (match_here r prev []) as [[n g]|] eqn:M; [|intros []].
    intros [<-|[]]. exists [], []. cbn [m_text m_before m_groups app length].
    rewrite app_nil_r. split; [reflexivity|]. split; [reflexivity|].
    change (last_or prev []) with prev. rewrite M.
    apply match_here_le in M. cbn in M. f_equal. f_equal. lia.
  - destruct s as [|c s].
    { cbn [scan].
      destruct (match_here r prev []) as [[n g]|] eqn:M; [|intros []].
      intros [<-|[]]. exists [], []. cbn [m_text m_before m_groups app length].
      rewrite app_nil_r. split; [reflexivity|]. split; [reflexivity|].
      change (last_or prev []) with prev. rewrite M.
      apply match_here_le in M. cbn in M. f_equal. f_equal. lia. }
    cbn [scan]. cbn [length] in Hk.
    destruct (match_here r prev (c :: s)) as [[[|n] g]|] eqn:M.
    + cbn [hits_of]. intros [<-|I].
      * exists [], (c :: s). cbn [m_text m_before m_groups app length].
        rewrite app_nil_r. repeat split. exact M.
      * apply IH in I; [|lia]. destruct I as (pre & post & E & B & H).
        exists (c :: pre), post. split; [rewrite E; reflexivity|].
        split; [rewrite B, app_nil_r, <- app_assoc; reflexivity|].
        rewrite last_or_cons. exact H.
    + pose proof (match_here_le _ _ _ _ _ M) as Ln. cbn [length] in Ln.
      cbn [hits_of]. intros [<-|I].
      * exists [], (skipn (S n) (c :: s)).
        cbn [m_text m_before m_groups app]. rewrite app_nil_r.
        rewrite firstn_skipn. split; [reflexivity|]. split; [reflexivity|].
        change (last_or prev []) with prev. rewrite M.
        rewrite length_firstn. cbn [length]. f_equal. f_equal. lia.
      * rewrite scan_skip in I by lia.
        apply IH in I; [|rewrite length_skipn; lia].
        destruct I as (pre & post & E & B & H).
        exists (c :: firstn n s ++ pre), post. split.
        -- cbn [app]. f_equal. rewrite <- app_assoc, <- E.
           symmetry. apply firstn_skipn.
        -- split.
           ++ rewrite B. cbn [firstn]. rewrite <- app_assoc. reflexivity.
           ++ rewrite last_or_cons, last_or_app. exact H.
    + cbn [hits_of]. intros I. apply IH in I; [|lia].
      destruct I as (pre & post & E & B & H).
      exists (c :: pre), post. split; [rewrite E; reflexivity|].
      split; [rewrite B, <- app_assoc; reflexivity|].
      rewrite last_or_cons. exact H.
Qed.

Lemma exec_all_in r s pm :
  In pm (exec_all r s) ->
  exists post,
    s = m_before pm ++ m_text pm ++ post
    /\ match_here r (last_or None (m_before pm)) (m_text pm ++ post)
       = Some (length (m_text pm), m_groups pm).
Proof.
  intros I. apply (hits_of_scan r (length s)) in I; [|apply le_n].
  destruct I as (pre & post & E & B & H). cbn [app] in B. subst pre.
  exists post. split; assumption.
Qed.



(** ** The amounts of a block *)

Lemma app_inv_length (A : Type) (a b c d : list A) :
  a ++ b = c ++ d -> length a = length c -> a = c /\ b = d.
Proof.
  revert c. induction a as [|x a IH]; intros [|y c] E L; try discriminate L.
  - split; [reflexivity|exact E].
  - cbn [app] in E. injection E as -> E. cbn [length] in L.
    destruct (IH c E ltac:(lia)) as [-> ->]. split; reflexivity.
Qed.





(** ** The three tests of the price loop *)

















(** The examples of the specification for the price of a listing. *)
Example parseFilteredPage_price_examples :
  lowest (parseFilteredPage
            (js "1 - 25 of 10 Media Condition: Very Good Plus (VG+) Sleeve Condition: VG $50.00 +$6.00 shipping $56.00 Ships From: Germany")
            false false) = Some 50%Q
  /\ lowest (parseFilteredPage
               (js "1 - 25 of 50 Media Condition: Very Good Plus (VG+) Sleeve Condition: VG " ++ [8364] ++ js "80.00 about $94.12 $50.00 Ships From: Germany")
               false false) = Some 50%Q
  /\ total (parseFilteredPage
              (js "<div>1 - 25 of 150</div><div>Media Condition</div><span>$20.00</span>")
              false false) = 150%Z.
Proof. repeat split; vm_compute; reflexivity. Qed.

(** ** Pages without a listing *)

(** A block counts as a listing only with an amount, a grade label and a
    "Ships From:" marker. *)
Lemma validated_needs_all block condMatch :
  validated block = Some condMatch ->
  test re_has_price block = true
  /\ match_first re_condition block = Some condMatch
  /\ test re_ships block = true.
Proof.
  unfold validated. destruct (test re_has_price block); [|discriminate].
  destruct (match_first re_condition block) as [c|]; [|discriminate].
  destruct (test re_ships block); [|discriminate].
  intros H. inversion H. repeat split.
Qed.

(** What holds on every page without pagination text and without a
    validated block: no listing is counted and no price is produced. *)
Lemma parseFilteredPage_no_listing html usOnly vgPlus :
  hasPagination html = false -> validated_count html = 0%Z ->
  let r := parseFilteredPage html usOnly vgPlus in
  listingsOnPage r = 0%Z /\ matched r = 0%Z /\ prices r = []
  /\ lowest r = None
  /\ total r = (if test re_no_results html then 0%Z
                else count_matches re_marker html).
Proof.
  intros HP HV.
  destruct (parseFilteredPage_fields html usOnly vgPlus)
    as (L & M & P & W & T).
  cbv zeta in *. specialize (T HP). rewrite HP in L, M. cbn [andb] in L, M.
  rewrite HV in *. cbn [Z.ltb Z.compare] in T.
  assert (F : filter (passes_filters usOnly vgPlus) (listing_blocks html) = []).
  { apply filter_passes_nil. unfold validated_count in HV.
    destruct (filter is_validated (listing_blocks html));
      [reflexivity|discriminate]. }
  rewrite F in *. cbn [length flat_map Z.of_nat] in *.
  split; [exact L|]. split; [exact M|]. split; [exact P|].
  split; [apply W, P|exact T].
Qed.

(** C8, the failing input.  A page that holds only a sidebar filter heading
    has no pagination text and no validated block, and yet its total is 1,
    the number of marker occurrences. *)
Theorem parseFilteredPage_sidebar_total :
  let html := js "<div class=sidebar>Media Condition: <a>Very Good Plus (VG+)</a><span>5</span></div>" in
  hasPagination html = false
  /\ test re_no_results html = false
  /\ validated_count html = 0%Z
  /\ parseFilteredPage html false false
     = {| total := 1; listingsOnPage := 0; matched := 0; prices := [];
          lowest := None |}.
Proof. cbv zeta. repeat split; vm_compute; reflexivity. Qed.

(** C1, the failing inputs.  [parseFilteredPage] takes no rate table and
    reads amounts in dollars only: a listing priced in euros only gets no
    price (the "about" annotation is passed over), and an amount in Canadian
    dollars is read as the same number of US dollars. *)
Theorem parseFilteredPage_foreign_currency :
  (let html := js "1 - 25 of 5 Media Condition: Very Good Plus (VG+) Sleeve Condition: VG " ++ [8364] ++ js "25.00 about $28.12 Ships From: Germany" in
   let r := parseFilteredPage html false false in
   matched r = 1%Z /\ prices r = [] /\ lowest r = None)
  /\ (let html := js "1 - 25 of 5 Media Condition: Very Good Plus (VG+) Sleeve Condition: VG CA$30.00 Ships From: Canada" in
      let r := parseFilteredPage html false false in
      matched r = 1%Z /\ prices r = [30%Q] /\ lowest r = Some 30%Q).
Proof. cbv zeta. repeat split; vm_compute; reflexivity. Qed.

(** ** The aggregates *)

Lemma sort_num_nil l : sort_num l = [] -> l = [].
Proof.
  destruct l as [|x l]; [reflexivity|]. cbn [sort_num fold_right].
  destruct (fold_right insert_num [] l) as [|y t]; cbn [insert_num];
    [discriminate|]. destruct (Qle_bool x y); discriminate.
Qed.

(** [gatherPricing] without prices has neither a lowest price nor a median,
    so the fall-back branch of [buildResult] adds nothing. *)
Lemma gatherPricing_no_prices fetch m usOnly :
  p_scrapedPrices (gatherPricing fetch m usOnly) = [] ->
  p_lowestPrice (gatherPricing fetch m usOnly) = None
  /\ p_medianPrice (gatherPricing fetch m usOnly) = None.
Proof.
  unfold gatherPricing. cbn [p_scrapedPrices p_lowestPrice p_medianPrice].
  intros H. apply sort_num_nil in H.
  destruct (pricing_page fetch m) as [r|] eqn:E; [|split; reflexivity].
  unfold pricing_page in E.
  destruct (pricing_url m) as [u|]; [|discriminate].
  destruct (fetch u) as [|[|] html]; try discriminate.
  inversion E; subst r. rewrite H.
  destruct (parseFilteredPage_fields html false false) as (_ & _ & _ & W & _).
  split; [apply W; exact H|reflexivity].
Qed.

(** The loop of [buildResult] throws exactly when [makeSellUrl] throws for
    one of the matches; otherwise it leaves the variables as the updates
    make them. *)
Lemma build_loop_spec fetch enc query usOnly : forall matches b,
  match build_loop fetch enc query usOnly matches b with
  | Some b' => b' = fold_left (build_update fetch usOnly) matches b
               /\ forall m, In m matches -> makeSellUrl enc m query <> None
  | None => exists m, In m matches /\ makeSellUrl enc m query = None
  end.
Proof.
  induction matches as [|m matches IH]; intros b; cbn [build_loop].
  - split; [reflexivity|intros m []].
  - unfold build_step. destruct (makeSellUrl enc m query) as [u|] eqn:E.
    + specialize (IH (build_update fetch usOnly b m)).
      destruct (build_loop fetch enc query usOnly matches _) as [b'|].
      * destruct IH as [-> H]. split; [reflexivity|].
        intros m' [<-|I]; [congruence|apply H, I].
      * destruct IH as (m' & I & N). exists m'. split; [right; exact I|exact N].
    + exists m. split; [left; reflexivity|exact E].
Qed.

(** [buildResult] throws on an empty list of matches and where
    [makeSellUrl] throws; otherwise it returns the aggregate of the
    variables of the loop. *)
Lemma buildResult_spec fetch enc matches query usOnly :
  match buildResult fetch enc matches query usOnly with
  | Some r =>
      matches <> []
      /\ (forall m, In m matches -> makeSellUrl enc m query <> None)
      /\ let b := fold_left (build_update fetch usOnly) matches
                    {| b_totalForSale := 0; b_globalLowest := None;
                       b_allPrices := []; b_matchDetails := [] |}%Z in
         r = {| r_matchCount := Z.of_nat (length matches);
                r_numForSale := b_totalForSale b;
                r_lowestPrice := b_globalLowest b;
                r_medianPrice := computeMedian (sort_num (b_allPrices b));
                r_matches :=
                  sort_details
                    (filter (fun d => (0 <? d_numForSale d)%Z)
                       (b_matchDetails b)) |}
  | None =>
      matches = [] \/ exists m, In m matches /\ makeSellUrl enc m query = None
  end.
Proof.
  unfold buildResult.
  match goal with
  | |- context [build_loop _ _ _ _ _ ?b0] =>
      pose proof (build_loop_spec fetch enc query usOnly matches b0) as H
  end.
  destruct (build_loop fetch enc query usOnly matches _) as [b|].
  - destruct H as [-> H]. destruct matches as [|m matches];
      [left; reflexivity|].
    split; [discriminate|]. split; [exact H|reflexivity].
  - right. exact H.
Qed.

Lemma build_loop_prices fetch usOnly : forall matches b,
  b_allPrices (fold_left (build_update fetch usOnly) matches b)
  = b_allPrices b ++ pooled_prices fetch matches.
Proof.
  induction matches as [|m matches IH]; intros b.
  - cbn. rewrite app_nil_r. reflexivity.
  - cbn [fold_left]. rewrite IH. unfold pooled_prices. cbn [flat_map].
    rewrite app_assoc. f_equal.
    unfold build_update. cbn [b_allPrices].
    destruct (p_scrapedPrices (gatherPricing fetch m usOnly)) eqn:E.
    + destruct (gatherPricing_no_prices fetch m usOnly E) as [-> ->].
      unfold gatherPricing in E. cbn [p_scrapedPrices] in E. rewrite E.
      reflexivity.
    + rewrite <- E. reflexivity.
Qed.

(** In the unfiltered aggregate the median is taken over the pooled prices
    of all the listings. *)
Lemma buildResult_median_pooled fetch enc matches query usOnly r :
  buildResult fetch enc matches query usOnly = Some r ->
  r_medianPrice r = computeMedian (sort_num (pooled_prices fetch matches)).
Proof.
  intros E. pose proof (buildResult_spec fetch enc matches query usOnly) as H.
  rewrite E in H. destruct H as (_ & _ & ->). cbv zeta.
  cbn [r_medianPrice]. rewrite build_loop_prices. reflexivity.
Qed.

Lemma filtered_loop_medians fetch usOnly vgPlus : forall matches h,
  let h' := fold_left (filtered_step fetch usOnly vgPlus) matches h in
  h_allMedians h = entity_medians (h_matchStats h) ->
  h_allMedians h' = entity_medians (h_matchStats h').
Proof.
  induction matches as [|m matches IH]; intros h; [exact (fun H => H)|].
  cbn [fold_left]. intros H. apply IH.
  unfold filtered_step. destruct (truthy m); [|exact H].
  cbn [negb h_allMedians h_matchStats]. unfold entity_medians in *.
  rewrite flat_map_app. cbn [flat_map]. rewrite app_nil_r, <- H.
  destruct (s_medianPrice _); cbn [price_list];
    [reflexivity|rewrite app_nil_r; reflexivity].
Qed.

(** In the filtered aggregate the median is taken over the medians of the
    entities. *)
Lemma handleFilteredStats_median_of_medians fetch matches usOnly vgPlus :
  let f := handleFilteredStats fetch matches usOnly vgPlus in
  f_medianPrice f = computeMedian (sort_num (entity_medians (f_matchStats f))).
Proof.
  unfold handleFilteredStats. cbn [f_medianPrice f_matchStats].
  match goal with
  | |- context [fold_left _ _ ?h0] =>
      rewrite (filtered_loop_medians fetch usOnly vgPlus matches h0 eq_refl)
  end.
  reflexivity.
Qed.

(** C2, the failing input.  Two releases, one with listings at $1, $2 and
    $3 and one with a listing at $10.  The unfiltered aggregate has the
    median of the pooled prices, 2.5; the filtered aggregate, on the same
    pages with both filters off, has the median of the two entity medians
    2 and 10, which is 6. *)
Theorem handleFilteredStats_median_differs :
  let urls := [Str (js "https://www.discogs.com/sell/release/1?ev=rb");
               Str (js "https://www.discogs.com/sell/release/2?ev=rb")] in
  let refs := [{| masterId := None; releaseId := Some 1%Z |};
               {| masterId := None; releaseId := Some 2%Z |}] in
  pooled_prices two_releases refs = [1; 2; 3; 10]%Q
  /\ computeMedian (sort_num (pooled_prices two_releases refs)) = Some (5 # 2)
  /\ option_map r_medianPrice
       (buildResult two_releases Some refs (js "a query") false)
     = Some (Some (5 # 2))
  /\ List.map s_medianPrice
       (f_matchStats (handleFilteredStats two_releases urls false false))
     = [Some 2%Q; Some 10%Q]
  /\ f_medianPrice (handleFilteredStats two_releases urls false false)
     = Some 6%Q.
Proof. cbv zeta. repeat split; vm_compute; reflexivity. Qed.

(** The medians of the specification. *)
Example computeMedian_examples :
  computeMedian [] = None
  /\ computeMedian [15%Q] = Some 15%Q
  /\ computeMedian [58%Q; 7059 # 100] = Some (12859 # 200)
  /\ computeMedian [10; 20; 30]%Q = Some 20%Q
  /\ computeMedian [5; 10; 20; 30]%Q = Some 15%Q.
Proof. repeat split; vm_compute; reflexivity. Qed.

(** ** The filtered display *)

Lemma min_or_inf_pos n cap :
  (0 <= cap)%Z -> (0 < n)%Z -> (0 <? min_or_inf n cap)%Z = true.
Proof.
  intros Hc Hn. unfold min_or_inf. apply Z.ltb_lt.
  destruct (cap =? 0)%Z eqn:E; [exact Hn|]. apply Z.eqb_neq in E. lia.
Qed.

Lemma min_or_inf_nonpos n cap :
  (n <= 0)%Z -> (0 <? min_or_inf n cap)%Z = false.
Proof.
  intros Hn. unfold min_or_inf. apply Z.ltb_ge.
  destruct (cap =? 0)%Z; lia.
Qed.

(** C3, as amended.  With the VG+ filter on and a filtered count above
    zero, the lowest and the median price shown are the scraped ones
    whenever the scrape produced them, and the values of the cached
    aggregate only where the scrape produced none; with a filtered count of
    zero, whatever the filters, both are null, in the aggregate and in the
    row of a release. *)
Theorem showFilteredData_prices (vg : bool) (g : GlobalStats)
    (fData : FilteredStats) :
  let shown := showFilteredData vg g fData in
  (vg = true -> (0 <= g_numForSale g)%Z -> (0 < f_numForSale fData)%Z ->
     (forall x, f_lowestPrice fData = Some x -> shown_lowestPrice shown = Some x)
     /\ (forall x, f_medianPrice fData = Some x ->
           shown_medianPrice shown = Some x)
     /\ (f_lowestPrice fData = None ->
           shown_lowestPrice shown = g_lowestPrice g)
     /\ (f_medianPrice fData = None ->
           shown_medianPrice shown = g_medianPrice g))
  /\ ((f_numForSale fData <= 0)%Z ->
      shown_lowestPrice shown = None /\ shown_medianPrice shown = None)
  /\ (forall m msRaw,
        (match msRaw with Some s => s_numForSale s | None => 0 end <= 0)%Z ->
        row_price (shown_row vg m msRaw) = None).
Proof.
  cbv zeta. unfold showFilteredData.
  cbn [shown_lowestPrice shown_medianPrice]. split; [|split].
  - intros -> Hg Hf. rewrite (min_or_inf_pos _ _ Hg Hf). cbn [orb].
    repeat split.
    + intros x ->. reflexivity.
    + intros x ->. reflexivity.
    + intros ->. reflexivity.
    + intros ->. reflexivity.
  - intros Hf. rewrite (min_or_inf_nonpos _ (g_numForSale g) Hf).
    split; reflexivity.
  - intros m msRaw H. unfold shown_row. cbn [row_price].
    rewrite (min_or_inf_nonpos _ (d_numForSale m) H). reflexivity.
Qed.

(** The sentence of the specification, as written, fails when the scrape
    counts copies and produces no price: the prices shown are those of the
    cached aggregate. *)
Lemma showFilteredData_prices_counterexample :
  let g := {| g_numForSale := 8; g_lowestPrice := Some 12%Q;
              g_medianPrice := Some 18%Q; g_vgPlusPrice := None;
              g_lowestGrade := None |} in
  let fData := {| f_numForSale := 2; f_scrapedTotal := Some 8%Z;
                  f_lowestPrice := None; f_medianPrice := None;
                  f_matchStats := [] |} in
  (0 < f_numForSale fData)%Z
  /\ shown_lowestPrice (showFilteredData true g fData) = g_lowestPrice g
  /\ shown_medianPrice (showFilteredData true g fData) = g_medianPrice g
  /\ ~ (shown_lowestPrice (showFilteredData true g fData) = f_lowestPrice fData
        /\ shown_medianPrice (showFilteredData true g fData)
           = f_medianPrice fData).
Proof.
  cbv zeta. split; [reflexivity|]. split; [reflexivity|].
  split; [reflexivity|]. intros [H _]. vm_compute in H. discriminate.
Qed.

Lemma showFilteredData_prices_witness :
  let g := {| g_numForSale := 10; g_lowestPrice := Some (235 # 100);
              g_medianPrice := Some 5%Q; g_vgPlusPrice := None;
              g_lowestGrade := None |} in
  let fData := {| f_numForSale := 10; f_scrapedTotal := Some 10%Z;
                  f_lowestPrice := Some (327 # 100);
                  f_medianPrice := Some 6%Q; f_matchStats := [] |} in
  (0 <= g_numForSale g)%Z /\ (0 < f_numForSale fData)%Z
  /\ shown_lowestPrice (showFilteredData true g fData) = Some (327 # 100)
  /\ shown_medianPrice (showFilteredData true g fData) = Some 6%Q.
Proof.
  cbv zeta.
  split; [cbn; lia|]. split; [cbn; lia|].
  pose proof (proj1 (showFilteredData_prices true
    {| g_numForSale := 10; g_lowestPrice := Some (235 # 100);
       g_medianPrice := Some 5%Q; g_vgPlusPrice := None;
       g_lowestGrade := None |}
    {| f_numForSale := 10; f_scrapedTotal := Some 10%Z;
       f_lowestPrice := Some (327 # 100);
       f_medianPrice := Some 6%Q; f_matchStats := [] |})
    eq_refl ltac:(cbn; lia) ltac:(cbn; lia)) as (A & B & _ & _).
  split; [apply A; reflexivity|apply B; reflexivity].
Defined.

(* ================================================================== *)
(** * Part III. Further properties of the code                         *)
(* ================================================================== *)

(** ** Least elements, sorting and medians *)

Lemma lowest_of_lower o1 l1 o2 l2 :
  lowest_of o1 l1 -> lowest_of o2 l2 -> lowest_of (lower_of o1 o2) (l2 ++ l1).
Proof.
  destruct o1 as [x|], o2 as [y|]; cbn [lowest_of lower_of].
  - intros [I1 F1] [I2 F2]. destruct (Qltb x y) eqn:E.
    + apply Qltb_true in E. split; [apply in_or_app; right; exact I1|].
      apply Forall_app. split; [|exact F1].
      eapply Forall_impl; [|exact F2]. cbn. intros z Hz.
      eapply Qle_trans; [apply Qlt_le_weak; exact E|exact Hz].
    + apply Qltb_false in E. split; [apply in_or_app; left; exact I2|].
      apply Forall_app. split; [exact F2|].
      eapply Forall_impl; [|exact F1]. cbn. intros z Hz.
      eapply Qle_trans; [exact E|exact Hz].
  - intros [I1 F1] ->. cbn [app]. split; assumption.
  - intros -> H. rewrite app_nil_r. exact H.
  - intros -> ->. reflexivity.
Qed.

Lemma lowest_of_single o : lowest_of o (price_list o).
Proof.
  destruct o as [x|]; cbn; [|reflexivity].
  split; [left; reflexivity|]. constructor; [apply Qle_refl|constructor].
Qed.

Lemma lowest_of_perm o l l' :
  Permutation l l' -> lowest_of o l -> lowest_of o l'.
Proof.
  intros P. destruct o as [a|]; cbn [lowest_of].
  - intros [I F]. split.
    + eapply Permutation_in; eassumption.
    + eapply Permutation_Forall; eassumption.
  - intros ->. apply Permutation_nil in P. exact P.
Qed.

Lemma lowest_of_none o l : lowest_of o l -> (o = None <-> l = []).
Proof.
  destruct o as [a|]; cbn [lowest_of].
  - intros [I _]. split; [discriminate|]. intros ->. destruct I.
  - intros ->. tauto.
Qed.

Lemma insert_num_perm x l : Permutation (insert_num x l) (x :: l).
Proof.
  induction l as [|y l IH]; cbn [insert_num]; [reflexivity|].
  destruct (Qle_bool x y); [reflexivity|].
  rewrite IH. apply perm_swap.
Qed.

Lemma sort_num_perm l : Permutation (sort_num l) l.
Proof.
  induction l as [|x l IH]; cbn [sort_num fold_right]; [reflexivity|].
  fold (sort_num l). rewrite insert_num_perm, IH. reflexivity.
Qed.

Lemma insert_num_sorted x l :
  StronglySorted Qle l -> StronglySorted Qle (insert_num x l).
Proof.
  induction l as [|y l IH]; cbn [insert_num]; intros S.
  - constructor; constructor.
  - destruct (Qle_bool x y) eqn:E.
    + apply Qle_bool_iff in E. constructor; [exact S|].
      constructor; [exact E|].
      apply StronglySorted_inv in S. destruct S as [_ F].
      eapply Forall_impl; [|exact F]. cbn. intros z Hz.
      eapply Qle_trans; eassumption.
    + apply Qle_bool_false in E.
      apply StronglySorted_inv in S. destruct S as [S F].
      constructor; [apply IH, S|].
      eapply Permutation_Forall; [symmetry; apply insert_num_perm|].
      constructor; assumption.
Qed.

Lemma sort_num_sorted l : StronglySorted Qle (sort_num l).
Proof.
  induction l as [|x l IH]; cbn [sort_num fold_right]; [constructor|].
  apply insert_num_sorted, IH.
Qed.

Lemma computeMedian_none l : computeMedian l = None <-> l = [].
Proof.
  unfold computeMedian. destruct l as [|x l]; [cbn; tauto|].
  cbn [length Nat.eqb].
  destruct (S (length l) mod 2 =? 1)%nat; split; discriminate.
Qed.

Lemma mid_between (x y : Q) :
  (x <= y)%Q -> (x <= Qred ((x + y) / 2) /\ Qred ((x + y) / 2) <= y)%Q.
Proof.
  intros H. rewrite Qred_correct. split.
  - apply Qle_shift_div_l; lra.
  - apply Qle_shift_div_r; lra.
Qed.

Lemma half_lt n : (0 < n)%nat -> (n / 2 < n)%nat.
Proof. intros H. apply Nat.div_lt; lia. Qed.

(** The median lies between two elements of the list. *)
Lemma computeMedian_between l m :
  computeMedian l = Some m ->
  exists a b, In a l /\ In b l /\ (a <= m)%Q /\ (m <= b)%Q.
Proof.
  unfold computeMedian.
  destruct (length l =? 0)%nat eqn:E0; [discriminate|].
  apply Nat.eqb_neq in E0.
  assert (K : (length l / 2 < length l)%nat) by (apply half_lt; lia).
  destruct (length l mod 2 =? 1)%nat eqn:E1; intros H; apply some_eq in H;
    subst m.
  - exists (nth (length l / 2) l 0%Q), (nth (length l / 2) l 0%Q).
    repeat split; try (apply nth_In; exact K); apply Qle_refl.
  - set (x := nth (length l / 2 - 1) l 0%Q).
    set (y := nth (length l / 2) l 0%Q).
    assert (Ix : In x l) by (apply nth_In; lia).
    assert (Iy : In y l) by (apply nth_In; exact K).
    destruct (Qlt_le_dec y x) as [L|L].
    + exists y, x. apply Qlt_le_weak in L.
      destruct (mid_between y x L) as [A B].
      repeat split; try assumption.
      * setoid_replace (x + y)%Q with (y + x)%Q by ring. exact A.
      * setoid_replace (x + y)%Q with (y + x)%Q by ring. exact B.
    + exists x, y. destruct (mid_between x y L) as [A B].
      repeat split; assumption.
Qed.

Lemma lowest_le_median o l :
  lowest_of o l ->
  (o = None <-> computeMedian (sort_num l) = None)
  /\ (forall a m, o = Some a -> computeMedian (sort_num l) = Some m ->
        (a <= m)%Q).
Proof.
  intros L. split.
  - rewrite computeMedian_none, (lowest_of_none o l L). split.
    + intros ->. reflexivity.
    + apply sort_num_nil.
  - intros a m -> M. cbn [lowest_of] in L. destruct L as [_ F].
    destruct (computeMedian_between _ _ M) as (x & _ & Ix & _ & Hx & _).
    apply (Permutation_in _ (sort_num_perm l)) in Ix.
    rewrite Forall_forall in F. eapply Qle_trans; [apply F, Ix|exact Hx].
Qed.








(** ** Subsequences *)

Lemma subseq_refl (A : Type) (l : list A) : subseq l l.
Proof. induction l; constructor; assumption. Qed.

Lemma subseq_nil_l (A : Type) (l : list A) : subseq [] l.
Proof. induction l; constructor; assumption. Qed.

Lemma subseq_app (A : Type) (a b c d : list A) :
  subseq a b -> subseq c d -> subseq (a ++ c) (b ++ d).
Proof.
  intros H. induction H; intros K; cbn [app];
    [exact K|constructor; auto|constructor; auto].
Qed.

Lemma subseq_length (A : Type) (a b : list A) :
  subseq a b -> (length a <= length b)%nat.
Proof. intros H. induction H; cbn [length]; lia. Qed.

Lemma subseq_In (A : Type) (a b : list A) x : subseq a b -> In x a -> In x b.
Proof.
  intros H. induction H; cbn [In]; [tauto| |]; intros K.
  - destruct K as [K|K]; [left; exact K|right; auto].
  - right; auto.
Qed.

Lemma subseq_filter (A : Type) (p q : A -> bool) l :
  (forall x, p x = true -> q x = true) -> subseq (filter p l) (filter q l).
Proof.
  intros H. induction l as [|x l IH]; cbn [filter]; [constructor|].
  destruct (p x) eqn:P.
  - rewrite (H x P). constructor. exact IH.
  - destruct (q x); [constructor|]; exact IH.
Qed.

Lemma subseq_flat_map (A B : Type) (f : A -> list B) a b :
  subseq a b -> subseq (flat_map f a) (flat_map f b).
Proof.
  intros H. induction H; cbn [flat_map].
  - constructor.
  - apply subseq_app; [apply subseq_refl|exact IHsubseq].
  - change (flat_map f a) with ([] ++ flat_map f a).
    apply subseq_app; [apply subseq_nil_l|exact IHsubseq].
Qed.

(** ** The result of [parseFilteredPage] *)

Lemma first_price_pos block : forall ms v,
  first_price block ms = Some v -> (0 < v)%Q.
Proof.
  induction ms as [|pm ms IH]; intros v; cbn [first_price]; [discriminate|].
  destruct (match group 1 (m_groups pm) with
            | Some t => str_eqb t (js "+")
            | None => false
            end); [apply IH|].
  destruct (0 <=? indexOf (m_text pm) (js "about"))%Z; [apply IH|].
  destruct (test re_shipping_end _); [apply IH|].
  destruct (parseFloat _) as [val|]; [|apply IH].
  destruct (Qltb 0 val) eqn:E; [|apply IH].
  intros H. apply some_eq in H. subst v. apply Qltb_true, E.
Qed.

Lemma process_block_lowest usOnly vgPlus a block :
  prices_inv a -> prices_inv (process_block usOnly vgPlus a block).
Proof.
  unfold prices_inv, process_block. intros [L F].
  destruct (validated block) as [condMatch|]; [|split; assumption].
  destruct (vgPlus && negb (isVGPlusOrBetter (group_text 1 condMatch)));
    [split; assumption|].
  destruct (usOnly && negb (ships_from_us block)); [split; assumption|].
  destruct (listing_price block) as [val|] eqn:E;
    cbn [acc_lowest acc_prices]; [|split; assumption].
  split.
  - replace (match acc_lowest a with
             | Some low => if Qltb val low then Some val else Some low
             | None => Some val
             end) with (lower_of (Some val) (acc_lowest a))
      by (destruct (acc_lowest a); reflexivity).
    apply lowest_of_lower; [apply (lowest_of_single (Some val))|exact L].
  - apply Forall_app. split; [exact F|].
    constructor; [|constructor].
    apply (first_price_pos block _ _ E).
Qed.

Lemma listing_loop_lowest usOnly vgPlus : forall blocks a,
  prices_inv a -> prices_inv (fold_left (process_block usOnly vgPlus) blocks a).
Proof.
  induction blocks as [|b blocks IH]; intros a H; cbn [fold_left];
    [exact H|].
  apply IH, process_block_lowest, H.
Qed.

Lemma page_prices_inv html usOnly vgPlus :
  let r := parseFilteredPage html usOnly vgPlus in
  lowest_of (lowest r) (prices r) /\ Forall (fun p => (0 < p)%Q) (prices r).
Proof.
  unfold parseFilteredPage. cbv zeta. cbn [lowest prices].
  apply (listing_loop_lowest usOnly vgPlus (listing_blocks html)).
  split; [reflexivity|constructor].
Qed.

(** X2.  In every result of [parseFilteredPage], [lowest] is the least of
    [prices] (and [null] exactly when there is no price), and every price is
    greater than zero. *)
Theorem parseFilteredPage_lowest_is_min (html : str) (usOnly vgPlus : bool) :
  let r := parseFilteredPage html usOnly vgPlus in
  (lowest r = None <-> prices r = [])
  /\ (forall low, lowest r = Some low ->
        In low (prices r) /\ Forall (fun p => (low <= p)%Q) (prices r))
  /\ Forall (fun p => (0 < p)%Q) (prices r).
Proof.
  destruct (page_prices_inv html usOnly vgPlus) as [L F]. cbv zeta in *.
  split; [apply lowest_of_none, L|]. split; [|exact F].
  intros low E. rewrite E in L. exact L.
Qed.

Lemma passes_none block : passes_filters false false block = is_validated block.
Proof.
  unfold passes_filters, is_validated.
  destruct (validated block); reflexivity.
Qed.

Lemma filter_passes_none blocks :
  filter (passes_filters false false) blocks = filter is_validated blocks.
Proof. apply filter_ext. intros b. apply passes_none. Qed.

Lemma parseFilteredPage_total html usOnly vgPlus :
  total (parseFilteredPage html usOnly vgPlus)
  = total (parseFilteredPage html false false).
Proof.
  unfold parseFilteredPage. cbv zeta. cbn [total].
  set (a0 := {| acc_listingsOnPage := 0; acc_matched := 0;
                acc_prices := []; acc_lowest := None |}).
  destruct (listing_loop_spec usOnly vgPlus (listing_blocks html) a0)
    as (L & _).
  destruct (listing_loop_spec false false (listing_blocks html) a0)
    as (L' & _).
  cbv zeta in *. rewrite L, L'. reflexivity.
Qed.

Lemma capped_mono (c : bool) (t m n : Z) :
  (m <= n)%Z ->
  ((if c && (t <? m)%Z then t else m)
   <= (if c && (t <? n)%Z then t else n))%Z.
Proof.
  intros H. destruct c; cbn [andb]; [|exact H].
  destruct (t <? m)%Z eqn:A, (t <? n)%Z eqn:B;
    rewrite ?Z.ltb_lt, ?Z.ltb_ge in *; lia.
Qed.

Lemma page_prices_subseq html usOnly vgPlus :
  subseq (prices (parseFilteredPage html usOnly vgPlus))
         (prices (parseFilteredPage html false false)).
Proof.
  destruct (parseFilteredPage_fields html usOnly vgPlus)
    as (_ & _ & P & _).
  destruct (parseFilteredPage_fields html false false)
    as (_ & _ & P' & _).
  cbv zeta in *. rewrite P, P'.
  apply subseq_flat_map, subseq_filter.
  intros b Hb. rewrite passes_none. eapply passes_validated, Hb.
Qed.

(** X3.  The two filters only narrow a page.  [total] and [listingsOnPage]
    do not depend on them; without filters every listing of the page is
    matched; with filters [matched] can only go down and [prices] is what
    is left of the unfiltered prices, in the same order. *)
Theorem parseFilteredPage_filters_narrow (html : str) (usOnly vgPlus : bool) :
  let all := parseFilteredPage html false false in
  let r := parseFilteredPage html usOnly vgPlus in
  total r = total all
  /\ listingsOnPage r = listingsOnPage all
  /\ matched all = listingsOnPage all
  /\ (matched r <= matched all)%Z
  /\ subseq (prices r) (prices all).
Proof.
  cbv zeta.
  pose proof (parseFilteredPage_total html usOnly vgPlus) as T.
  destruct (parseFilteredPage_fields html usOnly vgPlus)
    as (L & M & _).
  destruct (parseFilteredPage_fields html false false)
    as (L' & M' & _).
  cbv zeta in *. rewrite filter_passes_none in M'.
  fold (validated_count html) in M'. rewrite T in L, M.
  split; [exact T|]. split; [congruence|]. split; [congruence|].
  split; [|apply page_prices_subseq].
  rewrite M, M'. apply capped_mono. unfold validated_count.
  apply Nat2Z.inj_le, subseq_length, subseq_filter.
  intros b Hb. eapply passes_validated, Hb.
Qed.

(** X4.  A filter never lowers the lowest price of a page: when the
    filtered page has a lowest price, the unfiltered page has one too, and
    it is no higher. *)
Theorem parseFilteredPage_filter_lowest (html : str) (usOnly vgPlus : bool)
    (b : Q) :
  lowest (parseFilteredPage html usOnly vgPlus) = Some b ->
  exists a, lowest (parseFilteredPage html false false) = Some a
            /\ (a <= b)%Q.
Proof.
  intros E.
  destruct (page_prices_inv html usOnly vgPlus) as [L _].
  destruct (page_prices_inv html false false) as [L' _].
  cbv zeta in *. rewrite E in L. cbn [lowest_of] in L. destruct L as [I _].
  apply (subseq_In _ _ _ _ (page_prices_subseq html usOnly vgPlus)) in I.
  destruct (lowest (parseFilteredPage html false false)) as [a|];
    cbn [lowest_of] in L'.
  - exists a. split; [reflexivity|]. destruct L' as [_ F].
    rewrite Forall_forall in F. apply F, I.
  - rewrite L' in I. destruct I.
Qed.

Lemma parseFilteredPage_filter_lowest_witness :
  let html := js "Media Condition: Good (G) $3.00 Ships From: France Media Condition: Mint (M) $9.50 Ships From: United States" in
  lowest (parseFilteredPage html true true) = Some (19 # 2)
  /\ exists a, lowest (parseFilteredPage html false false) = Some a
               /\ (a <= 19 # 2)%Q.
Proof.
  cbv zeta.
  assert (E : lowest (parseFilteredPage (js "Media Condition: Good (G) $3.00 Ships From: France Media Condition: Mint (M) $9.50 Ships From: United States") true true) = Some (19 # 2))
    by (vm_compute; reflexivity).
  split; [exact E|].
  exact (parseFilteredPage_filter_lowest _ true true (19 # 2) E).
Defined.

(** ** The page loop of [scrapeFilteredListings] *)

Lemma scrape_pages_inv fetch usOnly vgPlus sellUrl : forall left page a,
  scrape_inv a ->
  match scrape_pages fetch left page sellUrl usOnly vgPlus a with
  | Finished a' => scrape_inv a'
  | Returned r => s_lowestPrice r = None /\ s_medianPrice r = None
  | Thrown => True
  end.
Proof.
  induction left as [|left IH]; intros page a H; cbn [scrape_pages].
  - exact H.
  - destruct (fetch _) as [|[|] html]; [exact I| |exact H].
    destruct (page_prices_inv html usOnly vgPlus) as [Lp Fp].
    cbv zeta in Lp, Fp.
    set (pg := parseFilteredPage html usOnly vgPlus) in *.
    destruct ((page =? 1)%Z && _); [split; reflexivity|].
    assert (H' : scrape_inv
                   {| sc_allPrices := sc_allPrices a ++ prices pg;
                      sc_allMatched := sc_allMatched a + matched pg;
                      sc_totalListings :=
                        if (page =? 1)%Z then total pg else sc_totalListings a;
                      sc_totalOnPages := sc_totalOnPages a + listingsOnPage pg;
                      sc_lowestPrice :=
                        lower_of (lowest pg) (sc_lowestPrice a) |}%Z).
    { destruct H as [L F]. split; cbn [sc_lowestPrice sc_allPrices].
      - apply lowest_of_lower; assumption.
      - apply Forall_app. split; assumption. }
    destruct (_ || _); [exact H'|]. apply IH, H'.
Qed.

(** The prices behind the result of a scrape. *)
Lemma scrape_stats_inv fetch sellUrl usOnly vgPlus :
  let s := scrapeFilteredListings fetch sellUrl usOnly vgPlus in
  exists l, lowest_of (s_lowestPrice s) l
            /\ s_medianPrice s = computeMedian (sort_num l)
            /\ Forall (fun p => (0 < p)%Q) l.
Proof.
  cbv zeta. unfold scrapeFilteredListings.
  set (a0 := {| sc_allPrices := []; sc_allMatched := 0;
                sc_totalListings := 0; sc_totalOnPages := 0;
                sc_lowestPrice := None |}%Z).
  assert (H0 : scrape_inv a0) by (split; [reflexivity|constructor]).
  pose proof (scrape_pages_inv fetch usOnly vgPlus sellUrl
                MAX_SCRAPE_PAGES 1%Z a0 H0) as H.
  destruct (scrape_pages fetch MAX_SCRAPE_PAGES 1 sellUrl usOnly vgPlus a0)
    as [|r|a].
  - exists []. cbn. repeat split. constructor.
  - exists []. destruct H as [H1 H2]. rewrite H1, H2.
    repeat split. constructor.
  - exists (sc_allPrices a). destruct H as [L F].
    cbn [s_lowestPrice s_medianPrice]. repeat split; assumption.
Qed.

(** X5.  Whatever the marketplace answers, the statistics of
    [scrapeFilteredListings] are consistent: there is a lowest price exactly
    when there is a median; the lowest price is greater than zero and never
    above the median. *)
Theorem scrapeFilteredListings_lowest_le_median
    (fetch : str -> fetch_result) (sellUrl : str) (usOnly vgPlus : bool) :
  let s := scrapeFilteredListings fetch sellUrl usOnly vgPlus in
  (s_lowestPrice s = None <-> s_medianPrice s = None)
  /\ (forall low med,
        s_lowestPrice s = Some low -> s_medianPrice s = Some med ->
        (0 < low)%Q /\ (low <= med)%Q).
Proof.
  destruct (scrape_stats_inv fetch sellUrl usOnly vgPlus) as (l & L & M & F).
  cbv zeta in *. rewrite M.
  destruct (lowest_le_median _ _ L) as [N C].
  split; [exact N|]. intros low med E1 E2. split; [|apply C; assumption].
  rewrite E1 in L. destruct L as [I _].
  rewrite Forall_forall in F. apply F, I.
Qed.

(** X6.  [scrapeFilteredListings] reads at most two addresses, the sell URL
    and its second page: two marketplaces that answer alike on these two
    give the same statistics. *)
Theorem scrapeFilteredListings_two_requests
    (fetch1 fetch2 : str -> fetch_result) (sellUrl : str)
    (usOnly vgPlus : bool) :
  fetch1 sellUrl = fetch2 sellUrl ->
  fetch1 (sellUrl ++ query_sep sellUrl ++ js "page=2")
  = fetch2 (sellUrl ++ query_sep sellUrl ++ js "page=2") ->
  scrapeFilteredListings fetch1 sellUrl usOnly vgPlus
  = scrapeFilteredListings fetch2 sellUrl usOnly vgPlus.
Proof.
  intros H1 H2. unfold scrapeFilteredListings, MAX_SCRAPE_PAGES.
  cbn [scrape_pages]. change (1 <? 1)%Z with false. cbv iota.
  change (1 <? 1 + 1)%Z with true. cbv iota.
  change (js "page=" ++ dec_str (1 + 1)) with (js "page=2").
  rewrite H1. destruct (fetch2 sellUrl) as [|[|] html]; try reflexivity.
  destruct (_ && _); [reflexivity|].
  destruct (_ || _); [reflexivity|].
  rewrite H2. reflexivity.
Qed.

Lemma scrapeFilteredListings_two_requests_witness :
  let sellUrl := js "https://www.discogs.com/sell/release/1?ev=rb&sort=price%2Casc" in
  two_releases sellUrl = one_release sellUrl
  /\ two_releases (sellUrl ++ query_sep sellUrl ++ js "page=2")
     = one_release (sellUrl ++ query_sep sellUrl ++ js "page=2")
  /\ two_releases (js "https://www.discogs.com/sell/release/2?ev=rb&sort=price%2Casc")
     <> one_release (js "https://www.discogs.com/sell/release/2?ev=rb&sort=price%2Casc")
  /\ scrapeFilteredListings two_releases sellUrl false false
     = scrapeFilteredListings one_release sellUrl false false.
Proof.
  cbv zeta.
  assert (H1 : two_releases (js "https://www.discogs.com/sell/release/1?ev=rb&sort=price%2Casc")
               = one_release (js "https://www.discogs.com/sell/release/1?ev=rb&sort=price%2Casc"))
    by (vm_compute; reflexivity).
  assert (H2 : two_releases (js "https://www.discogs.com/sell/release/1?ev=rb&sort=price%2Casc" ++ query_sep (js "https://www.discogs.com/sell/release/1?ev=rb&sort=price%2Casc") ++ js "page=2")
               = one_release (js "https://www.discogs.com/sell/release/1?ev=rb&sort=price%2Casc" ++ query_sep (js "https://www.discogs.com/sell/release/1?ev=rb&sort=price%2Casc") ++ js "page=2"))
    by (vm_compute; reflexivity).
  split; [exact H1|]. split; [exact H2|].
  split; [vm_compute; discriminate|].
  exact (scrapeFilteredListings_two_requests _ _ _ false false H1 H2).
Defined.



(** ** The loop of [handleFilteredStats] *)

Lemma sum_Z_app a b : sum_Z (a ++ b) = (sum_Z a + sum_Z b)%Z.
Proof.
  induction a as [|x a IH]; cbn [app sum_Z fold_right]; [reflexivity|].
  fold (sum_Z (a ++ b)). fold (sum_Z a). rewrite IH. lia.
Qed.

Lemma sum_Z_cons x l : sum_Z (x :: l) = (x + sum_Z l)%Z.
Proof. reflexivity. Qed.

Lemma entity_lowests_app a b :
  entity_lowests (a ++ b) = entity_lowests a ++ entity_lowests b.
Proof. apply flat_map_app. Qed.

Lemma finite_prices_app a b :
  finite_prices (a ++ b) = finite_prices a ++ finite_prices b.
Proof. apply filter_app. Qed.

Lemma is_Infinity_le x y :
  is_Infinity x = true -> (x <= y)%Q -> is_Infinity y = true.
Proof.
  unfold is_Infinity. rewrite !Qle_bool_iff. intros A B.
  eapply Qle_trans; eassumption.
Qed.

Lemma Qle_bool_lt a b : Qle_bool a b = false -> (b < a)%Q.
Proof.
  intros H. apply Qnot_le_lt. intros L. apply Qle_bool_iff in L. congruence.
Qed.

Lemma finite_prices_in x l :
  In x (finite_prices l) <-> In x l /\ is_Infinity x = false.
Proof.
  unfold finite_prices. rewrite filter_In, negb_true_iff. tauto.
Qed.

Lemma finite_prices_nil l :
  finite_prices l = [] <-> Forall (fun p => is_Infinity p = true) l.
Proof.
  unfold finite_prices. induction l as [|x l IH]; cbn [filter].
  - split; [constructor|reflexivity].
  - destruct (is_Infinity x) eqn:E; cbn [negb].
    + rewrite IH. split; [intros F; constructor; assumption|].
      intros F. exact (Forall_inv_tail F).
    + split; [discriminate|]. intros F. apply Forall_inv in F. congruence.
Qed.

(** The least of the finite prices of a list is below all its prices. *)
Lemma lowest_finite low l :
  lowest_of (Some low) (finite_prices l) ->
  In low l /\ is_Infinity low = false /\ Forall (fun p => (low <= p)%Q) l.
Proof.
  cbn [lowest_of]. intros [I F]. apply finite_prices_in in I.
  destruct I as [I N]. split; [exact I|]. split; [exact N|].
  apply Forall_forall. intros p Ip.
  destruct (is_Infinity p) eqn:E.
  - unfold is_Infinity in *. apply Qle_bool_iff in E.
    apply Qle_bool_lt in N. apply Qlt_le_weak.
    eapply Qlt_le_trans; eassumption.
  - rewrite Forall_forall in F. apply F, finite_prices_in.
    split; assumption.
Qed.

(** The update of a lowest price that starts as [Infinity]. *)
Lemma sentinel_update low old l x :
  lowest_of (Some x) l -> lowest_of low (finite_prices old) ->
  lowest_of (if below_sentinel x low then Some x else low)
    (finite_prices (old ++ l)).
Proof.
  intros [Ix Fx] L. rewrite finite_prices_app.
  destruct (is_Infinity x) eqn:E.
  - assert (Nl : finite_prices l = []).
    { apply finite_prices_nil. eapply Forall_impl; [|exact Fx].
      cbn beta. intros p Hp. exact (is_Infinity_le x p E Hp). }
    rewrite Nl, app_nil_r.
    assert (B : below_sentinel x low = false).
    { destruct low as [y|]; cbn [below_sentinel]; [|rewrite E; reflexivity].
      destruct (lowest_finite y old L) as (_ & Ny & _).
      unfold Qltb. apply negb_false_iff. apply Qle_bool_iff.
      unfold is_Infinity in *. apply Qle_bool_iff in E.
      apply Qle_bool_lt in Ny. apply Qlt_le_weak.
      eapply Qlt_le_trans; eassumption. }
    rewrite B. exact L.
  - assert (Lx : lowest_of (Some x) (finite_prices l)).
    { split; [apply finite_prices_in; split; assumption|].
      apply Forall_forall. intros p Ip. apply finite_prices_in in Ip.
      rewrite Forall_forall in Fx. apply Fx, Ip. }
    replace (if below_sentinel x low then Some x else low)
      with (lower_of (Some x) low).
    + apply lowest_of_lower; assumption.
    + destruct low as [y|]; cbn [lower_of below_sentinel].
      * destruct (Qltb x y); reflexivity.
      * rewrite E. reflexivity.
Qed.

Lemma filtered_step_fields fetch usOnly vgPlus h u :
  let h1 := filtered_step fetch usOnly vgPlus h u in
  let row := if truthy u then [scrape_sorted fetch usOnly vgPlus (or_empty u)]
             else [] in
  h_matchStats h1 = h_matchStats h ++ row
  /\ h_totalForSale h1
     = (h_totalForSale h + sum_Z (List.map s_numForSale row))%Z
  /\ (lowest_of (h_allLowest h)
        (finite_prices (entity_lowests (h_matchStats h))) ->
      lowest_of (h_allLowest h1)
        (finite_prices (entity_lowests (h_matchStats h1)))).
Proof.
  cbv zeta. unfold filtered_step, scrape_sorted, sorted_url.
  destruct (truthy u); cbn [negb].
  - cbn [h_matchStats h_totalForSale h_allLowest List.map sum_Z fold_right].
    split; [reflexivity|]. split; [lia|].
    intros H. rewrite entity_lowests_app. cbn [entity_lowests flat_map].
    rewrite app_nil_r.
    destruct (s_lowestPrice _) as [x|]; cbn [price_list].
    + apply sentinel_update; [|exact H]. apply (lowest_of_single (Some x)).
    + rewrite app_nil_r. exact H.
  - cbn [List.map sum_Z fold_right]. rewrite app_nil_r, Z.add_0_r. tauto.
Qed.

Lemma filtered_loop_rows fetch usOnly vgPlus : forall matches h,
  let h' := fold_left (filtered_step fetch usOnly vgPlus) matches h in
  let rows := List.map (scrape_sorted fetch usOnly vgPlus)
                (List.map or_empty (filter truthy matches)) in
  h_matchStats h' = h_matchStats h ++ rows
  /\ h_totalForSale h'
     = (h_totalForSale h + sum_Z (List.map s_numForSale rows))%Z
  /\ (lowest_of (h_allLowest h)
        (finite_prices (entity_lowests (h_matchStats h))) ->
      lowest_of (h_allLowest h')
        (finite_prices (entity_lowests (h_matchStats h')))).
Proof.
  induction matches as [|u matches IH]; intros h; cbv zeta.
  - cbn. rewrite app_nil_r, Z.add_0_r. tauto.
  - cbn [fold_left filter].
    destruct (IH (filtered_step fetch usOnly vgPlus h u)) as (R & T & L).
    destruct (filtered_step_fields fetch usOnly vgPlus h u) as (R1 & T1 & L1).
    cbv zeta in R, T, L, R1, T1, L1. clear IH.
    split; [|split]; [| |intros H; apply L, L1, H].
    + rewrite R, R1. destruct (truthy u); cbn [List.map app].
      * rewrite <- app_assoc. reflexivity.
      * rewrite app_nil_r. reflexivity.
    + rewrite T, T1. destruct (truthy u); cbn [List.map app].
      * rewrite !sum_Z_cons. cbn [sum_Z fold_right]. lia.
      * cbn [sum_Z fold_right]. lia.
Qed.

Lemma handleFilteredStats_fields fetch matches usOnly vgPlus :
  let f := handleFilteredStats fetch matches usOnly vgPlus in
  f_matchStats f
  = List.map (scrape_sorted fetch usOnly vgPlus)
      (List.map or_empty (filter truthy matches))
  /\ f_numForSale f = sum_Z (List.map s_numForSale (f_matchStats f))
  /\ lowest_of (f_lowestPrice f)
       (finite_prices (entity_lowests (f_matchStats f))).
Proof.
  cbv zeta. unfold handleFilteredStats.
  cbn [f_matchStats f_numForSale f_lowestPrice].
  set (h0 := {| h_totalForSale := 0; h_scrapedTotal := Some 0%Z;
                h_allLowest := None; h_allMedians := [];
                h_matchStats := [] |}).
  destruct (filtered_loop_rows fetch usOnly vgPlus matches h0) as (R & T & L).
  cbv zeta in R, T, L. cbn [h0 h_matchStats h_totalForSale app] in R, T.
  split; [exact R|]. split; [rewrite T, R; lia|].
  apply L. reflexivity.
Qed.


Lemma entity_lowests_in stats x :
  In x (entity_lowests stats)
  <-> exists s, In s stats /\ s_lowestPrice s = Some x.
Proof.
  unfold entity_lowests. rewrite in_flat_map. split.
  - intros (s & I & P). exists s. split; [exact I|].
    destruct (s_lowestPrice s); cbn in P; [|destruct P].
    destruct P as [->|[]]. reflexivity.
  - intros (s & I & E). exists s. split; [exact I|].
    rewrite E. left. reflexivity.
Qed.

Lemma entity_medians_in stats x :
  In x (entity_medians stats)
  <-> exists s, In s stats /\ s_medianPrice s = Some x.
Proof.
  unfold entity_medians. rewrite in_flat_map. split.
  - intros (s & I & P). exists s. split; [exact I|].
    destruct (s_medianPrice s); cbn in P; [|destruct P].
    destruct P as [->|[]]. reflexivity.
  - intros (s & I & E). exists s. split; [exact I|].
    rewrite E. left. reflexivity.
Qed.

Lemma scrape_low_median fetch sellUrl usOnly vgPlus :
  let s := scrapeFilteredListings fetch sellUrl usOnly vgPlus in
  (s_lowestPrice s = None <-> s_medianPrice s = None)
  /\ (forall low med,
        s_lowestPrice s = Some low -> s_medianPrice s = Some med ->
        (low <= med)%Q).
Proof.
  destruct (scrape_stats_inv fetch sellUrl usOnly vgPlus) as (l & L & M & _).
  cbv zeta in *. rewrite M. apply lowest_le_median, L.
Qed.

(** X9.  The aggregate of [handleFilteredStats] is consistent as well.
    It has a median (taken over the medians of the rows) exactly when some
    row has a lowest price, and a lowest price exactly when one of these is
    finite; a lowest price comes with a median and is never above it. *)
Theorem handleFilteredStats_lowest_le_median (fetch : str -> fetch_result)
    (matches : list jsval) (usOnly vgPlus : bool) :
  let f := handleFilteredStats fetch matches usOnly vgPlus in
  (f_medianPrice f = None <-> entity_lowests (f_matchStats f) = [])
  /\ (f_lowestPrice f = None
      <-> Forall (fun p => is_Infinity p = true)
            (entity_lowests (f_matchStats f)))
  /\ (forall low, f_lowestPrice f = Some low ->
        exists med, f_medianPrice f = Some med /\ (low <= med)%Q).
Proof.
  destruct (handleFilteredStats_fields fetch matches usOnly vgPlus)
    as (R & _ & L).
  pose proof (handleFilteredStats_median_of_medians fetch matches usOnly vgPlus)
    as M.
  cbv zeta in *. rewrite M.
  set (stats := f_matchStats (handleFilteredStats fetch matches usOnly vgPlus))
    in *.
  assert (Each : forall s, In s stats ->
            (s_lowestPrice s = None <-> s_medianPrice s = None)
            /\ (forall low med, s_lowestPrice s = Some low ->
                  s_medianPrice s = Some med -> (low <= med)%Q)).
  { intros s I. rewrite R in I. apply in_map_iff in I.
    destruct I as (u & <- & _). apply scrape_low_median. }
  assert (Med : computeMedian (sort_num (entity_medians stats)) = None
                <-> entity_lowests stats = []).
  { rewrite computeMedian_none. split.
    - intros E. apply sort_num_nil in E.
      destruct (entity_lowests stats) as [|x t] eqn:El; [reflexivity|].
      assert (I : In x (entity_lowests stats)) by (rewrite El; left; reflexivity).
      apply entity_lowests_in in I. destruct I as (s & I & Es).
      destruct (s_medianPrice s) as [y|] eqn:Em.
      + assert (J : In y (entity_medians stats))
          by (apply entity_medians_in; exists s; split; assumption).
        rewrite E in J. destruct J.
      + apply (Each s I) in Em. congruence.
    - intros E. destruct (entity_medians stats) as [|x t] eqn:Em;
        [reflexivity|].
      assert (I : In x (entity_medians stats)) by (rewrite Em; left; reflexivity).
      apply entity_medians_in in I. destruct I as (s & I & Es).
      destruct (s_lowestPrice s) as [y|] eqn:El.
      + assert (J : In y (entity_lowests stats))
          by (apply entity_lowests_in; exists s; split; assumption).
        rewrite E in J. destruct J.
      + apply (Each s I) in El. congruence. }
  split; [exact Med|]. split.
  - rewrite <- finite_prices_nil. apply lowest_of_none, L.
  - intros low E1. rewrite E1 in L. apply lowest_finite in L.
    destruct L as (I & _ & F).
    destruct (computeMedian (sort_num (entity_medians stats)))
      as [med|] eqn:E2.
    2:{ rewrite (proj1 Med eq_refl) in I. destruct I. }
    exists med. split; [reflexivity|].
    destruct (computeMedian_between _ _ E2) as (x & _ & Ix & _ & Hx & _).
    apply (Permutation_in _ (sort_num_perm _)) in Ix.
    apply entity_medians_in in Ix. destruct Ix as (s & Is & Es).
    destruct (s_lowestPrice s) as [y|] eqn:El.
    + assert (J : In y (entity_lowests stats))
        by (apply entity_lowests_in; exists s; split; assumption).
      rewrite Forall_forall in F.
      eapply Qle_trans; [apply F, J|].
      eapply Qle_trans; [|exact Hx].
      apply (proj2 (Each s Is) y x El Es).
    + apply (Each s Is) in El. congruence.
Qed.

(** The case the sentinel decides: the only price is [Infinity], the row
    has it as its lowest price and the aggregate has a median, but no
    lowest price. *)
Lemma handleFilteredStats_infinite_price :
  let f := handleFilteredStats huge_market
             [Str (js "https://www.discogs.com/sell/release/1?ev=rb")]
             false false in
  length (entity_lowests (f_matchStats f)) = 1%nat
  /\ Forall (fun p => is_Infinity p = true) (entity_lowests (f_matchStats f))
  /\ f_lowestPrice f = None
  /\ f_medianPrice f <> None.
Proof.
  cbv zeta. split; [vm_compute; reflexivity|].
  split; [vm_compute; repeat constructor|].
  split; [vm_compute; reflexivity|vm_compute; discriminate].
Qed.

(** ** The loop of [buildResult] *)









Lemma gatherPricing_inv fetch m usOnly :
  let p := gatherPricing fetch m usOnly in
  (0 <= p_totalForSale p)%Z
  /\ lowest_of (p_lowestPrice p) (p_scrapedPrices p)
  /\ p_medianPrice p = computeMedian (p_scrapedPrices p).
Proof.
  cbv zeta. unfold gatherPricing.
  cbn [p_totalForSale p_lowestPrice p_scrapedPrices p_medianPrice].
  destruct (pricing_page fetch m) as [r|] eqn:E.
  - split; [destruct (0 <? total r)%Z eqn:T;
              [apply Z.ltb_lt in T; lia|lia]|].
    split; [|reflexivity].
    apply (lowest_of_perm _ (prices r)); [symmetry; apply sort_num_perm|].
    unfold pricing_page in E. destruct (pricing_url m); [|discriminate].
    destruct (fetch s) as [|[|] html]; try discriminate.
    apply some_eq in E. subst r. apply page_prices_inv.
  - split; [lia|]. split; reflexivity.
Qed.

(** The details [buildResult] collects for a match. *)
Lemma build_loop_details fetch usOnly : forall matches b,
  let b' := fold_left (build_update fetch usOnly) matches b in
  let ds := List.map (detail_of fetch usOnly) matches in
  b_matchDetails b' = b_matchDetails b ++ ds
  /\ b_totalForSale b'
     = (b_totalForSale b + sum_Z (List.map d_numForSale ds))%Z
  /\ (lowest_of (b_globalLowest b) (finite_prices (b_allPrices b)) ->
      lowest_of (b_globalLowest b') (finite_prices (b_allPrices b'))).
Proof.
  induction matches as [|m matches IH]; intros b; cbv zeta.
  - cbn. rewrite app_nil_r, Z.add_0_r. tauto.
  - cbn [fold_left List.map].
    destruct (IH (build_update fetch usOnly b m)) as (D & T & L).
    cbv zeta in D, T, L. clear IH.
    destruct (gatherPricing_inv fetch m usOnly) as (_ & Lp & Mp).
    cbv zeta in Lp, Mp.
    split; [|split].
    { rewrite D. unfold build_update. cbn [b_matchDetails].
      rewrite <- app_assoc. reflexivity. }
    { rewrite T. unfold build_update. cbn [b_totalForSale].
      rewrite sum_Z_cons.
      change (d_numForSale (detail_of fetch usOnly m))
        with (p_totalForSale (gatherPricing fetch m usOnly)). lia. }
    intros H. apply L. clear L D T.
    unfold build_update. cbn [b_globalLowest b_allPrices].
    destruct (p_scrapedPrices (gatherPricing fetch m usOnly)) as [|x t] eqn:E.
    + cbn [lowest_of] in Lp.
      assert (N : p_lowestPrice (gatherPricing fetch m usOnly) = None).
      { destruct (p_lowestPrice _); [destruct Lp as [[] _]|reflexivity]. }
      rewrite N in *. rewrite Mp. cbn. rewrite app_nil_r. exact H.
    + destruct (p_lowestPrice (gatherPricing fetch m usOnly)) as [low|].
      * apply sentinel_update; assumption.
      * cbn [lowest_of] in Lp. discriminate Lp.
Qed.

Lemma build_loop_fields fetch matches usOnly :
  let b := fold_left (build_update fetch usOnly) matches
             {| b_totalForSale := 0; b_globalLowest := None;
                b_allPrices := []; b_matchDetails := [] |}%Z in
  exists ds,
    length ds = length matches
    /\ Forall (fun d => (0 <= d_numForSale d)%Z) ds
    /\ b_totalForSale b = sum_Z (List.map d_numForSale ds)
    /\ b_matchDetails b = ds
    /\ b_allPrices b = pooled_prices fetch matches
    /\ lowest_of (b_globalLowest b)
         (finite_prices (pooled_prices fetch matches)).
Proof.
  cbv zeta.
  set (b0 := {| b_totalForSale := 0; b_globalLowest := None;
                b_allPrices := []; b_matchDetails := [] |}%Z).
  destruct (build_loop_details fetch usOnly matches b0) as (D & T & L).
  cbv zeta in D, T, L.
  cbn [b0 b_matchDetails b_totalForSale app] in D, T.
  pose proof (build_loop_prices fetch usOnly matches b0) as P.
  cbn [b0 b_allPrices app] in P.
  exists (List.map (detail_of fetch usOnly) matches).
  split; [apply length_map|]. split; [|split; [lia|]].
  - apply Forall_forall. intros d I. apply in_map_iff in I.
    destruct I as (m & <- & _). unfold detail_of. cbn [d_numForSale].
    apply gatherPricing_inv.
  - split; [exact D|]. split; [exact P|]. rewrite <- P.
    apply L. reflexivity.
Qed.


(** X11.  The aggregate [buildResult] returns is consistent.  It has a
    median exactly when the pages of the matches hold a price, and a lowest
    price exactly when one of the prices is finite; the lowest price is the
    least of all the prices and comes with a median that is not below
    it. *)
Theorem buildResult_lowest_le_median (fetch : str -> fetch_result)
    (encodeURIComponent : str -> option str)
    (matches : list ReleaseRef) (query : str) (usOnly : bool)
    (r : AggregateStats) :
  buildResult fetch encodeURIComponent matches query usOnly = Some r ->
  (r_medianPrice r = None <-> pooled_prices fetch matches = [])
  /\ (r_lowestPrice r = None
      <-> Forall (fun p => is_Infinity p = true) (pooled_prices fetch matches))
  /\ (forall low, r_lowestPrice r = Some low ->
        In low (pooled_prices fetch matches)
        /\ Forall (fun p => (low <= p)%Q) (pooled_prices fetch matches)
        /\ exists med, r_medianPrice r = Some med /\ (low <= med)%Q).
Proof.
  intros E.
  pose proof (buildResult_spec fetch encodeURIComponent matches query usOnly)
    as H.
  rewrite E in H. destruct H as (_ & _ & ->).
  destruct (build_loop_fields fetch matches usOnly)
    as (ds & _ & _ & _ & _ & P & L).
  cbv zeta in *. cbn [r_medianPrice r_lowestPrice]. rewrite P.
  set (l := pooled_prices fetch matches) in *.
  assert (Med : computeMedian (sort_num l) = None <-> l = []).
  { rewrite computeMedian_none. split; [apply sort_num_nil|].
    intros ->. reflexivity. }
  split; [exact Med|]. split.
  - rewrite <- finite_prices_nil. apply lowest_of_none, L.
  - intros low E1. rewrite E1 in L. apply lowest_finite in L.
    destruct L as (I & _ & F). split; [exact I|]. split; [exact F|].
    destruct (computeMedian (sort_num l)) as [med|] eqn:E2.
    2:{ rewrite (proj1 Med eq_refl) in I. destruct I. }
    exists med. split; [reflexivity|].
    destruct (computeMedian_between _ _ E2) as (x & _ & Ix & _ & Hx & _).
    apply (Permutation_in _ (sort_num_perm _)) in Ix.
    rewrite Forall_forall in F. eapply Qle_trans; [apply F, Ix|exact Hx].
Qed.

Lemma buildResult_lowest_le_median_witness :
  let refs := [{| masterId := None; releaseId := Some 1%Z |};
               {| masterId := None; releaseId := Some 2%Z |}] in
  exists r,
    buildResult two_releases Some refs (js "a query") false = Some r
    /\ r_lowestPrice r = Some 1%Q
    /\ exists med, r_medianPrice r = Some med /\ (1 <= med)%Q.
Proof.
  cbv zeta. eexists. split; [vm_compute; reflexivity|].
  split; [reflexivity|].
  apply (buildResult_lowest_le_median two_releases Some
           [{| masterId := None; releaseId := Some 1%Z |};
            {| masterId := None; releaseId := Some 2%Z |}]
           (js "a query") false _ eq_refl).
  reflexivity.
Defined.

Lemma buildResult_infinite_price :
  exists r,
    buildResult huge_market Some
      [{| masterId := None; releaseId := Some 1%Z |}] (js "a query") false
    = Some r
    /\ pooled_prices huge_market
         [{| masterId := None; releaseId := Some 1%Z |}] <> []
    /\ r_lowestPrice r = None
    /\ r_medianPrice r <> None.
Proof.
  eexists. split; [vm_compute; reflexivity|].
  split; [vm_compute; discriminate|].
  split; [reflexivity|discriminate].
Qed.

(** ** The filtered display *)

(** X12.  The counts [showFilteredData] displays never exceed the scraped
    count, nor the cached unfiltered count when that is not zero, for the
    aggregate and for every row; and a location-only filter that leaves the
    count where it was displays the cached unfiltered statistics as they
    are. *)
Theorem showFilteredData_count_capped (vg : bool) (g : GlobalStats)
    (fData : FilteredStats) :
  let shown := showFilteredData vg g fData in
  (shown_numForSale shown <= f_numForSale fData)%Z
  /\ (g_numForSale g <> 0%Z -> (shown_numForSale shown <= g_numForSale g)%Z)
  /\ (vg = false -> (0 < g_numForSale g <= f_numForSale fData)%Z ->
      shown = {| shown_numForSale := g_numForSale g;
                 shown_lowestPrice := g_lowestPrice g;
                 shown_medianPrice := g_medianPrice g;
                 shown_vgPlusPrice := g_vgPlusPrice g;
                 shown_lowestGrade := g_lowestGrade g |})
  /\ (forall m s,
        (row_numForSale (shown_row vg m (Some s)) <= s_numForSale s)%Z
        /\ (d_numForSale m <> 0%Z ->
            (row_numForSale (shown_row vg m (Some s)) <= d_numForSale m)%Z)
        /\ (vg = false -> (0 < d_numForSale m <= s_numForSale s)%Z ->
            shown_row vg m (Some s)
            = {| row_numForSale := d_numForSale m;
                 row_price := d_lowestPrice m |})).
Proof.
  cbv zeta. unfold showFilteredData, shown_row, min_or_inf.
  cbn [shown_numForSale row_numForSale].
  split; [|split; [|split]].
  - destruct (g_numForSale g =? 0)%Z; lia.
  - intros H. apply Z.eqb_neq in H. rewrite H. lia.
  - intros -> [A B].
    assert (E : (g_numForSale g =? 0)%Z = false) by (apply Z.eqb_neq; lia).
    rewrite E. rewrite (Z.min_r _ _ B), Z.ltb_irrefl.
    apply Z.ltb_lt in A. rewrite A. reflexivity.
  - intros m s. split; [|split].
    + destruct (d_numForSale m =? 0)%Z; lia.
    + intros H. apply Z.eqb_neq in H. rewrite H. lia.
    + intros -> [A B].
      assert (E : (d_numForSale m =? 0)%Z = false) by (apply Z.eqb_neq; lia).
      rewrite E. rewrite (Z.min_r _ _ B), Z.ltb_irrefl.
      apply Z.ltb_lt in A. rewrite A. reflexivity.
Qed.

(** ** The condition filter *)

Lemma isVGPlusOrBetter_labels grade :
  isVGPlusOrBetter grade = true <-> In grade vg_plus_labels.
Proof.
  unfold isVGPlusOrBetter, GRADE_RANK, vg_plus_labels. cbn [lookup_rank In].
  split.
  - repeat match goal with
           | |- context [str_eqb grade ?k] =>
               let E := fresh "E" in
               destruct (str_eqb grade k) eqn:E;
               [apply str_eqb_eq in E|]
           end; try discriminate; intros _; subst grade; tauto.
  - intros [<-|[<-|[<-|[]]]]; vm_compute; reflexivity.
Qed.

Lemma label_at_spec s l :
  label_at s = Some l -> In l grade_labels /\ s = l ++ skipn (length l) s.
Proof.
  unfold label_at. intros H. apply find_some in H. destruct H as [I P].
  split; [exact I|]. apply is_prefix_spec in P. destruct P as [post ->].
  rewrite skipn_app, Nat.sub_diag, skipn_all. reflexivity.
Qed.

Lemma label_at_app l post : In l grade_labels -> label_at (l ++ post) = Some l.
Proof.
  unfold grade_labels, GRADE_RANK. cbn [List.map fst In].
  intros [<-|[<-|[<-|[<-|[<-|[<-|[<-|[<-|[]]]]]]]]]; reflexivity.
Qed.

Lemma label_head l : In l grade_labels ->
  exists c t, l = c :: t /\ is_space c = false /\ c <> 60.
Proof.
  unfold grade_labels, GRADE_RANK. cbn [List.map fst In].
  intros [<-|[<-|[<-|[<-|[<-|[<-|[<-|[<-|[]]]]]]]]];
    eexists; eexists; (split; [reflexivity|]); split;
    try reflexivity; discriminate.
Qed.

Lemma label_at_head c s l :
  label_at (c :: s) = Some l -> is_space c = false /\ c <> 60.
Proof.
  intros H. apply label_at_spec in H. destruct H as [I E].
  destruct (label_head l I) as (c' & t & -> & A & B).
  cbn in E. injection E as -> _. split; assumption.
Qed.

Lemma after_tags_spec b s g :
  after_tags (MState b s g)
  = match label_at s with
    | Some l => Some (MState (last_or b l) (skipn (length l) s) ((1%nat, l) :: g))
    | None => None
    end.
Proof.
  unfold after_tags.
  change (rmatch (Seq re_label Eps) ?k ?st)
    with (rmatch re_label (rmatch Eps k) st).
  unfold re_label. rewrite rmatch_group.
  cbn [rmatch before rest caps].
  change (lit ?x) with (lit_units (js x)).
  rewrite !rmatch_lit_units.
  unfold label_at, grade_labels, GRADE_RANK. cbn [List.map fst find].
  repeat match goal with
         | |- context [is_prefix ?l s] =>
             let E := fresh "E" in
             destruct (is_prefix l s) eqn:E;
             [apply is_prefix_spec in E; destruct E as [post E]; subst s;
              cbn [before rest caps];
              rewrite ?length_skipn, ?length_app;
              f_equal; f_equal; f_equal; f_equal;
              match goal with
              | |- firstn ?n _ = _ =>
                  replace n with (length l) by (cbn [length]; lia)
              end;
              rewrite firstn_app, Nat.sub_diag, firstn_all;
              cbn [firstn]; apply app_nil_r
             |]
         end.
  reflexivity.
Qed.

Lemma after_tags_none b c s g :
  is_space c = true \/ c = 60 -> after_tags (MState b (c :: s) g) = None.
Proof.
  intros H. rewrite after_tags_spec.
  destruct (label_at (c :: s)) as [l|] eqn:E; [|reflexivity].
  apply label_at_head in E. destruct E as [A B].
  destruct H; congruence.
Qed.

Lemma rmatch_seq r1 r2 k st :
  rmatch (Seq r1 r2) k st = rmatch r1 (rmatch r2 k) st.
Proof. reflexivity. Qed.

Lemma rmatch_star r k st :
  rmatch (Star r) k st = star_loop (rmatch r) (length (rest st)) k st.
Proof. reflexivity. Qed.

Lemma rmatch_tag_open (K : cont) b c s g :
  rmatch re_tag K (MState b (c :: s) g)
  = if c =? 60
    then star_loop (rmatch (Chr (fun c => negb (c =? 62)))) (length s)
           (rmatch (seq_of [lit ">"; Star white]) K) (MState (Some c) s g)
    else None.
Proof.
  unfold re_tag. cbn [seq_of]. rewrite rmatch_seq.
  change (lit "<") with (Seq (Chr (N.eqb 60)) Eps).
  rewrite rmatch_seq, rmatch_chr. rewrite (N.eqb_sym 60 c).
  destruct (c =? 60); reflexivity.
Qed.

Lemma rmatch_tag_nil (K : cont) b g : rmatch re_tag K (MState b [] g) = None.
Proof. reflexivity. Qed.

(** A run of tags does not start with white space. *)
Lemma tags_loop_space n b c s g :
  is_space c = true ->
  star_loop (rmatch re_tag) n after_tags (MState b (c :: s) g) = None.
Proof.
  intros H.
  assert (E : (c =? 60) = false).
  { destruct (c =? 60) eqn:E; [|reflexivity].
    apply N.eqb_eq in E. subst c. discriminate H. }
  destruct n as [|n]; cbn [star_loop].
  - apply after_tags_none. left. exact H.
  - rewrite rmatch_tag_open, E. apply after_tags_none. left. exact H.
Qed.

(** The greedy run of tags ends where [skip_tags] does. *)
Lemma tags_loop : forall n b s g,
  exists b',
    star_loop (rmatch re_tag) n after_tags (MState b s g)
    = after_tags (MState b' (skip_tags n s) g).
Proof.
  induction n as [|n IH]; intros b s g; cbn [star_loop skip_tags].
  - exists b. reflexivity.
  - destruct s as [|c t].
    + rewrite rmatch_tag_nil. exists b. reflexivity.
    + rewrite rmatch_tag_open. cbn [rest].
      destruct (c =? 60) eqn:E; [|exists b; reflexivity].
      apply N.eqb_eq in E. subst c.
      set (k' := fun st' : mstate =>
                   if (length (rest st') <? length (60%N :: t))%nat
                   then star_loop (rmatch re_tag) n after_tags st' else None).
      rewrite star_chr_then; [|
        intros b0 c0 s0 g0 P; cbn [seq_of]; rewrite rmatch_seq;
        change (lit ">") with (Seq (Chr (N.eqb 62)) Eps);
        rewrite rmatch_seq, rmatch_chr, (N.eqb_sym 62 c0);
        apply negb_true_iff in P; rewrite P; reflexivity
      | apply Nat.le_refl].
      pose proof (drop_while_head (fun c => negb (c =? 62)) t) as Hd.
      pose proof (drop_while_length (fun c => negb (c =? 62)) t) as Ld.
      destruct (drop_while (fun c => negb (c =? 62)) t) as [|d u].
      * exists b. reflexivity.
      * apply negb_false_iff in Hd.
        cbn [seq_of]. rewrite rmatch_seq.
        change (lit ">") with (Seq (Chr (N.eqb 62)) Eps).
        rewrite rmatch_seq, rmatch_chr, (N.eqb_sym 62 d), Hd.
        change (rmatch Eps ?k ?st) with (k st).
        rewrite rmatch_seq, rmatch_star. cbn [rest]. unfold white.
        rewrite star_chr_then; [|
          intros b0 c0 s0 g0 P;
          change (rmatch Eps ?k ?st) with (k st); unfold k';
          destruct (_ <? _)%nat; [apply tags_loop_space, P|reflexivity]
        | apply Nat.le_refl].
        change (rmatch Eps ?k ?st) with (k st). unfold k'. cbn [rest].
        pose proof (drop_while_length is_space u) as Lu.
        cbn [length] in Ld.
        assert (Lt : (length (drop_while is_space u) <? length (60%N :: t))%nat
                     = true) by (apply Nat.ltb_lt; cbn [length]; lia).
        rewrite Lt.
        destruct (IH (last_or (Some d) (take_while is_space u))
                    (drop_while is_space u) g) as [b' Hb].
        exists b'. rewrite Hb.
        destruct (after_tags (MState b' _ g)); [reflexivity|].
        apply after_tags_none. right. reflexivity.
Qed.

(** What the condition pattern matches at the head of a string. *)
Lemma match_here_condition prev s :
  match_here re_condition prev s
  = let s1 := drop_while is_space s in
    let s2 := skip_tags (length s1) s1 in
    match label_at s2 with
    | Some l => Some ((length s - length (skipn (length l) s2))%nat,
                      [(1%nat, l)])
    | None => None
    end.
Proof.
  cbv zeta. unfold match_here, re_condition. cbn [seq_of].
  rewrite rmatch_seq, rmatch_star. cbn [rest]. unfold white.
  rewrite star_chr_then; [|
    intros b0 c0 s0 g0 P; rewrite rmatch_seq;
    change (rmatch re_tags ?k ?st)
      with (star_loop (rmatch re_tag) (length (rest st)) k st);
    apply (tags_loop_space _ b0 c0 s0 g0 P)
  | apply Nat.le_refl].
  rewrite rmatch_seq.
  change (rmatch re_tags ?k ?st)
    with (star_loop (rmatch re_tag) (length (rest st)) k st).
  cbn [rest].
  destruct (tags_loop (length (drop_while is_space s))
              (last_or prev (take_while is_space s))
              (drop_while is_space s) []) as [b' Hb].
  change (rmatch (Seq _ Eps) (fun st => Some st)) with after_tags.
  rewrite Hb, after_tags_spec.
  destruct (label_at _); reflexivity.
Qed.

Lemma drop_while_stop (p : N -> bool) (a : str) c (b : str) :
  Forall (fun x => p x = true) a -> p c = false ->
  drop_while p (a ++ c :: b) = c :: b.
Proof.
  intros F H. rewrite drop_while_app_all by exact F.
  cbn [drop_while]. rewrite H. reflexivity.
Qed.

(** What [skip_tags] passes over is a run of tags. *)
Lemma skip_tags_run : forall n s,
  exists tags, s = concat tags ++ skip_tags n s /\ Forall is_tag tags.
Proof.
  induction n as [|n IH]; intros s; cbn [skip_tags].
  - exists []. split; [reflexivity|constructor].
  - destruct s as [|c t]; [exists []; split; [reflexivity|constructor]|].
    destruct (c =? 60) eqn:E;
      [|exists []; split; [reflexivity|constructor]].
    apply N.eqb_eq in E. subst c.
    pose proof (drop_while_head (fun c => negb (c =? 62)) t) as Hd.
    pose proof (take_drop_while (fun c => negb (c =? 62)) t) as Ht.
    pose proof (take_while_all (fun c => negb (c =? 62)) t) as Hi.
    destruct (drop_while (fun c => negb (c =? 62)) t) as [|d u];
      [exists []; split; [reflexivity|constructor]|].
    apply negb_false_iff, N.eqb_eq in Hd. subst d.
    destruct (IH (drop_while is_space u)) as (tags & E & F).
    exists ((60 :: take_while (fun c => negb (c =? 62)) t
               ++ 62 :: take_while is_space u) :: tags).
    split.
    + cbn [concat app]. rewrite <- !app_assoc. rewrite <- E. cbn [app].
      rewrite (take_drop_while is_space u), Ht. reflexivity.
    + constructor; [|exact F].
      exists (take_while (fun c => negb (c =? 62)) t), (take_while is_space u).
      split; [reflexivity|]. split; [|apply take_while_all].
      eapply Forall_impl; [|exact Hi]. cbn beta. intros a Ha ->.
      discriminate Ha.
Qed.

Lemma tags_then_label_head tags l post :
  Forall is_tag tags -> In l grade_labels ->
  exists c r, concat tags ++ l ++ post = c :: r /\ is_space c = false.
Proof.
  intros F I. destruct tags as [|tg tags].
  - destruct (label_head l I) as (c & t & -> & A & _).
    exists c, (t ++ post). split; [reflexivity|exact A].
  - apply Forall_inv in F. destruct F as (inner & sp & -> & _).
    eexists. eexists. split; [reflexivity|reflexivity].
Qed.

Lemma drop_spaces_before (ws : str) c (r : str) :
  Forall (fun x => is_space x = true) ws -> is_space c = false ->
  drop_while is_space (ws ++ c :: r) = c :: r.
Proof. apply drop_while_stop. Qed.

(** [skip_tags] passes over a run of tags that a label follows. *)
Lemma skip_tags_over l post : forall tags n,
  Forall is_tag tags -> In l grade_labels ->
  (length (concat tags ++ l ++ post) <= n)%nat ->
  skip_tags n (concat tags ++ l ++ post) = l ++ post.
Proof.
  induction tags as [|tg tags IH]; intros n F I L.
  - cbn [concat app]. destruct (label_head l I) as (c & t & -> & _ & B).
    apply N.eqb_neq in B. destruct n as [|n]; cbn [skip_tags app];
      [reflexivity|]. rewrite B. reflexivity.
  - pose proof (Forall_inv F) as (inner & sp & -> & Fi & Fs).
    apply Forall_inv_tail in F.
    destruct (tags_then_label_head tags l post F I) as (c & r & E & Hc).
    set (S := concat (_ :: tags) ++ l ++ post) in *.
    assert (Es : S = 60 :: inner ++ 62 :: sp ++ c :: r).
    { subst S. rewrite <- E. cbn [concat app].
      repeat (rewrite <- app_assoc; cbn [app]). reflexivity. }
    rewrite Es in L. rewrite Es. clear S Es.
    destruct n as [|n]; [cbn [length] in L; lia|].
    cbn [skip_tags]. rewrite N.eqb_refl.
    rewrite drop_while_stop; [| |reflexivity].
    2:{ eapply Forall_impl; [|exact Fi]. cbn beta. intros a Ha.
        apply negb_true_iff, N.eqb_neq, Ha. }
    rewrite drop_spaces_before by assumption. rewrite <- E.
    apply IH; [exact F|exact I|].
    rewrite E. cbn [length] in L. rewrite !length_app in L.
    cbn [length] in L. rewrite length_app in L. lia.
Qed.

(** The condition pattern matches where a label stands behind white space
    and tags, and captures that label. *)
Lemma match_here_condition_shape prev ws tags l post :
  Forall (fun c => is_space c = true) ws -> Forall is_tag tags ->
  In l grade_labels ->
  match_here re_condition prev (ws ++ concat tags ++ l ++ post)
  = Some (length (ws ++ concat tags ++ l), [(1%nat, l)]).
Proof.
  intros Fw Ft I. rewrite match_here_condition. cbv zeta.
  destruct (tags_then_label_head tags l post Ft I) as (c & r & E & Hc).
  rewrite E, drop_spaces_before by assumption. rewrite <- E.
  rewrite skip_tags_over by (try assumption; apply Nat.le_refl).
  rewrite label_at_app by exact I.
  rewrite skipn_app, Nat.sub_diag, skipn_all. cbn [skipn app].
  f_equal. f_equal. rewrite !length_app. lia.
Qed.

(** Whatever the condition pattern matches has this shape. *)
Lemma match_here_condition_inv prev s n g :
  match_here re_condition prev s = Some (n, g) ->
  exists ws tags l post,
    s = ws ++ concat tags ++ l ++ post
    /\ Forall (fun c => is_space c = true) ws /\ Forall is_tag tags
    /\ In l grade_labels /\ g = [(1%nat, l)].
Proof.
  rewrite match_here_condition. cbv zeta.
  destruct (label_at _) as [l|] eqn:E; [|discriminate].
  intros H. injection H as _ <-.
  apply label_at_spec in E. destruct E as [I E].
  destruct (skip_tags_run (length (drop_while is_space s))
              (drop_while is_space s)) as (tags & Et & Ft).
  exists (take_while is_space s), tags, l, (skipn (length l)
    (skip_tags (length (drop_while is_space s)) (drop_while is_space s))).
  split; [|split; [apply take_while_all|split; [exact Ft|split;
    [exact I|reflexivity]]]].
  rewrite <- E, <- Et. symmetry. apply take_drop_while.
Qed.

(** The first match of a scan is the leftmost one. *)
Lemma scan_first r : forall s prev seen pm ms,
  hits_of (scan r prev 0 s) seen = pm :: ms ->
  forall pre' post',
    s = pre' ++ post' ->
    (length seen + length pre' < length (m_before pm))%nat ->
    match_here r (last_or prev pre') post' = None.
Proof.
  induction s as [|c s IH]; intros prev seen pm ms H pre' post' E L;
    cbn [scan] in H.
  - destruct (match_here r prev []) as [[k g]|]; [|discriminate H].
    cbn [hits_of] in H. injection H as <- _. cbn [m_before] in L. lia.
  - destruct (match_here r prev (c :: s)) as [[[|k] g]|] eqn:M.
    + cbn [hits_of] in H. injection H as <- _. cbn [m_before] in L. lia.
    + cbn [hits_of] in H. injection H as <- _. cbn [m_before] in L. lia.
    + cbn [hits_of] in H. destruct pre' as [|c' pre'].
      * cbn [app] in E. subst post'. exact M.
      * cbn [app] in E. injection E as <- E. rewrite last_or_cons.
        apply (IH (Some c) (seen ++ [c]) pm ms H pre' post' E).
        rewrite length_app. cbn [length] in *. lia.
Qed.

Lemma match_first_spec r s m :
  match_first r s = Some m ->
  (exists post,
     s = m_before m ++ m_text m ++ post
     /\ match_here r (last_or None (m_before m)) (m_text m ++ post)
        = Some (length (m_text m), m_groups m))
  /\ (forall pre' post',
        s = pre' ++ post' -> (length pre' < length (m_before m))%nat ->
        match_here r (last_or None pre') post' = None).
Proof.
  unfold match_first. intros H.
  destruct (exec_all r s) as [|pm ms] eqn:E; [discriminate H|].
  cbn [hd_error] in H. injection H as ->. split.
  - apply exec_all_in. rewrite E. left. reflexivity.
  - intros pre' post' Es L. unfold exec_all, pieces in E.
    apply (scan_first r s None [] m ms E pre' post' Es). exact L.
Qed.

(** The label [condMatch] captures is the first label of the block. *)
Lemma condMatch_first_label block m :
  match_first re_condition block = Some m ->
  first_label block (group_text 1 m)
  /\ forall g, first_label block g -> g = group_text 1 m.
Proof.
  intros H. apply match_first_spec in H.
  destruct H as [(post & E & M) Left].
  destruct (match_here_condition_inv _ _ _ _ M)
    as (ws & tags & l & post' & Es & Fw & Ft & I & G).
  assert (Gt : group_text 1 m = l).
  { unfold group_text. rewrite G. reflexivity. }
  rewrite Gt.
  assert (B : label_behind block (m_before m) l).
  { exists ws, tags, post'. rewrite <- Es. auto. }
  assert (Min : forall pre' g', label_behind block pre' g' ->
                  (length (m_before m) <= length pre')%nat).
  { intros pre' g' (ws' & tags' & q & E' & Fw' & Ft' & I').
    destruct (Nat.le_gt_cases (length (m_before m)) (length pre'))
      as [K|K]; [exact K|].
    pose proof (Left pre' _ E' K) as N.
    rewrite match_here_condition_shape in N by assumption.
    discriminate N. }
  split; [exists (m_before m); split; [exact B|exact Min]|].
  intros g (pre' & B' & Min').
  pose proof (Min _ _ B') as L1. pose proof (Min' _ _ B) as L2.
  destruct B' as (ws' & tags' & q & E' & Fw' & Ft' & I').
  assert (X : pre' = m_before m
              /\ ws' ++ concat tags' ++ g ++ q = m_text m ++ post).
  { apply app_inv_length; [congruence|lia]. }
  destruct X as [_ X]. rewrite <- X in M.
  rewrite match_here_condition_shape in M by assumption.
  injection M as _ M. rewrite <- M in G. injection G as G. exact G.
Qed.

(** X13.  [isVGPlusOrBetter] holds of exactly three strings, the labels of
    Mint, Near Mint and Very Good Plus.  With the condition filter on, the
    listing loop counts a block as matched only if the first grade label of
    the block is one of them: the label that stands, behind white space and
    tags, after the shortest beginning of the block.  That label need not
    be the grade of the media: a listing whose media is not graded and
    whose sleeve is Mint is counted. *)
Theorem isVGPlusOrBetter_spec (grade : str) :
  (isVGPlusOrBetter grade = true
   <-> grade = js "Mint (M)" \/ grade = js "Near Mint (NM or M-)"
       \/ grade = js "Very Good Plus (VG+)")
  /\ (forall usOnly a block,
        acc_matched (process_block usOnly true a block) <> acc_matched a ->
        exists g,
          first_label block g
          /\ (forall g', first_label block g' -> g' = g)
          /\ (g = js "Mint (M)" \/ g = js "Near Mint (NM or M-)"
              \/ g = js "Very Good Plus (VG+)"))
  /\ matched (parseFilteredPage
                (js "Media Condition: Not Graded Sleeve Condition: Mint (M) $5.00 Ships From: United States")
                false true) = 1%Z.
Proof.
  assert (L : forall g, isVGPlusOrBetter g = true
                <-> g = js "Mint (M)" \/ g = js "Near Mint (NM or M-)"
                    \/ g = js "Very Good Plus (VG+)").
  { intros g. rewrite isVGPlusOrBetter_labels. unfold vg_plus_labels.
    cbn [In]. split; [intros [H|[H|[H|[]]]]; auto|intros [H|[H|H]]; auto]. }
  split; [apply L|]. split; [|vm_compute; reflexivity].
  intros usOnly a block. unfold process_block, validated.
  destruct (negb (test re_has_price block)); [intros H; congruence|].
  destruct (match_first re_condition block) as [condMatch|] eqn:M;
    [|intros H; congruence].
  destruct (negb (test re_ships block)); [intros H; congruence|].
  destruct (condMatch_first_label block condMatch M) as [F U].
  cbn [andb]. destruct (isVGPlusOrBetter (group_text 1 condMatch)) eqn:V;
    cbn [negb]; [|cbn [acc_matched]; intros H; congruence].
  intros _. exists (group_text 1 condMatch).
  split; [exact F|]. split; [exact U|]. apply L, V.
Qed.

(** ** Word containment and the track matcher *)

(** X14.  [wordsContain] is a preorder: every string contains its own
    words, and containment passes along a chain. *)
Theorem wordsContain_preorder (a b c : str) :
  wordsContain a a = true
  /\ (wordsContain a b = true -> wordsContain b c = true ->
      wordsContain a c = true).
Proof.
  rewrite !wordsContain_spec. unfold word_set_contained. split.
  - intros w H. exact H.
  - intros H1 H2 w H. apply H1, H2, H.
Qed.

Lemma fuzzyNorm_after v : fuzzyNorm v = fuzzy_after (normalize v).
Proof. reflexivity. Qed.

(** [tracklistContains] reads the track name through [normalize] only. *)
Lemma tracklistContains_via_normalize tracklist v :
  tracklistContains tracklist v
  = match tracklist with
    | None => false
    | Some l =>
        if (length (normalize v) <? 2)%nat then false
        else tracklist_scan (normalize v) (fuzzy_after (normalize v))
               (length (normalize v) <=? 3)%nat l
    end.
Proof.
  unfold tracklistContains. destruct tracklist as [l|]; [|reflexivity].
  rewrite fuzzyNorm_after.
  destruct l as [|t l].
  - cbn [length Nat.eqb orb tracklist_scan].
    destruct (length (normalize v) <? 2)%nat; reflexivity.
  - cbn [length Nat.eqb orb]. destruct (truthy v) eqn:T; [reflexivity|].
    cbn [negb]. rewrite (normalize_falsy v T). reflexivity.
Qed.

(** X15.  [tracklistContains] depends on the track name through
    [normalize] only: two names with the same normal form (the same up to
    case, punctuation and the amount of white space) are found in the same
    tracklists. *)
Theorem tracklistContains_normalized
    (tracklist : option (list TracklistEntry)) (a b : jsval) :
  normalize a = normalize b ->
  tracklistContains tracklist a = tracklistContains tracklist b.
Proof.
  intros E. rewrite !tracklistContains_via_normalize, E. reflexivity.
Qed.

Lemma tracklistContains_normalized_witness :
  normalize (Str (js "Blue Monday")) = normalize (Str (js "  BLUE   monday!! "))
  /\ tracklistContains (Some [titled "Blue Monday (Remix)"])
       (Str (js "Blue Monday"))
     = tracklistContains (Some [titled "Blue Monday (Remix)"])
         (Str (js "  BLUE   monday!! ")).
Proof.
  assert (E : normalize (Str (js "Blue Monday"))
              = normalize (Str (js "  BLUE   monday!! ")))
    by (vm_compute; reflexivity).
  split; [exact E|].
  exact (tracklistContains_normalized _ _ _ E).
Defined.

Lemma tracklist_scan_found trackName l :
  (2 <= length (normalize trackName))%nat ->
  (exists t, In t l /\ eligible_entry t
             /\ normalize (title t) = normalize trackName) ->
  tracklistContains (Some l) trackName = true.
Proof.
  intros Len (t & I & (K & N) & E). apply not_a_track_spec in K.
  rewrite tracklistContains_via_normalize.
  assert (L2 : (length (normalize trackName) <? 2)%nat = false)
    by (apply Nat.ltb_ge; exact Len).
  rewrite L2. destruct (length (normalize trackName) <=? 3)%nat.
  - apply tracklist_scan_short. exists t. repeat split; assumption.
  - rewrite <- fuzzyNorm_after. apply tracklist_scan_long.
    exists t. split; [exact I|]. split; [split; assumption|].
    left. rewrite E. intros w H. exact H.
Qed.

(** X16.  A tracklist contains each of its own titles: an entry of kind
    "track" (or without a kind) whose normalised title has two characters
    or more is found under its own title, wherever it stands in the
    list. *)
Theorem tracklistContains_own_title (pre post : list TracklistEntry)
    (t : TracklistEntry) :
  not_a_track t = false -> (2 <= length (normalize (title t)))%nat ->
  tracklistContains (Some (pre ++ t :: post)) (title t) = true.
Proof.
  intros K Len. apply tracklist_scan_found; [exact Len|].
  exists t. split; [apply in_or_app; right; left; reflexivity|].
  split; [|reflexivity]. split; [apply not_a_track_spec, K|].
  intros E. rewrite E in Len. cbn [length] in Len. lia.
Qed.

Lemma tracklistContains_own_title_witness :
  not_a_track (titled "Da Funk") = false
  /\ (2 <= length (normalize (title (titled "Da Funk"))))%nat
  /\ tracklistContains
       (Some ([titled "Revolution 909"] ++ titled "Da Funk" :: [titled "Phoenix"]))
       (title (titled "Da Funk")) = true.
Proof.
  assert (K : not_a_track (titled "Da Funk") = false) by reflexivity.
  assert (Len : (2 <= length (normalize (title (titled "Da Funk"))))%nat)
    by (vm_compute; lia).
  split; [exact K|]. split; [exact Len|].
  exact (tracklistContains_own_title [titled "Revolution 909"]
           [titled "Phoenix"] (titled "Da Funk") K Len).
Defined.

(** X17.  The answer of [tracklistContains] does not depend on the order of
    the tracklist and can only turn to [true] when entries are added: a
    name found in a list is found in every list that has the same
    entries and possibly more. *)
Theorem tracklistContains_incl (l l' : list TracklistEntry)
    (trackName : jsval) :
  incl l l' ->
  tracklistContains (Some l) trackName = true ->
  tracklistContains (Some l') trackName = true.
Proof.
  intros Inc. rewrite !tracklistContains_via_normalize.
  destruct (length (normalize trackName) <? 2)%nat; [discriminate|].
  destruct (length (normalize trackName) <=? 3)%nat.
  - rewrite !tracklist_scan_short. intros (t & I & H).
    exists t. split; [apply Inc, I|exact H].
  - rewrite <- fuzzyNorm_after, !tracklist_scan_long. intros (t & I & H).
    exists t. split; [apply Inc, I|exact H].
Qed.

Lemma tracklistContains_incl_witness :
  incl [titled "Phoenix"; titled "Da Funk"]
       [titled "Da Funk"; titled "Revolution 909"; titled "Phoenix"]
  /\ tracklistContains (Some [titled "Phoenix"; titled "Da Funk"])
       (Str (js "da funk")) = true
  /\ tracklistContains
       (Some [titled "Da Funk"; titled "Revolution 909"; titled "Phoenix"])
       (Str (js "da funk")) = true.
Proof.
  assert (Inc : incl [titled "Phoenix"; titled "Da Funk"]
                  [titled "Da Funk"; titled "Revolution 909"; titled "Phoenix"]).
  { intros x [<-|[<-|[]]]; cbn [In]; tauto. }
  assert (H : tracklistContains (Some [titled "Phoenix"; titled "Da Funk"])
                (Str (js "da funk")) = true) by (vm_compute; reflexivity).
  split; [exact Inc|]. split; [exact H|].
  exact (tracklistContains_incl _ _ _ Inc H).
Defined.

(** ** Joining and splitting a query *)

Lemma find_from_absent pat d :
  In d pat -> forall s i, ~ In d s -> find_from pat s i = None.
Proof.
  intros Id. induction s as [|c s IH]; intros i N; cbn [find_from].
  - destruct (is_prefix pat []) eqn:E; [|reflexivity].
    apply is_prefix_spec in E. destruct E as [post E].
    symmetry in E. apply app_eq_nil in E. destruct E as [-> _]. destruct Id.
  - destruct (is_prefix pat (c :: s)) eqn:E.
    + apply is_prefix_spec in E. destruct E as [post E]. exfalso.
      apply N. rewrite E. apply in_or_app. left. exact Id.
    + apply IH. intros H. apply N. right. exact H.
Qed.

Lemma indexOf_absent s pat d :
  In d pat -> ~ In d s -> indexOf s pat = (-1)%Z.
Proof.
  intros Id N. unfold indexOf. rewrite (find_from_absent pat d Id s 0%Z N).
  reflexivity.
Qed.

Lemma find_from_here pat s i :
  is_prefix pat s = true -> find_from pat s i = Some i.
Proof. intros H. destruct s; cbn [find_from]; rewrite H; reflexivity. Qed.

Lemma find_from_app pat : forall a rest i,
  (forall a1 a2, a = a1 ++ a2 -> a2 <> [] ->
     is_prefix pat (a2 ++ rest) = false) ->
  find_from pat (a ++ rest) i
  = find_from pat rest (i + Z.of_nat (length a))%Z.
Proof.
  induction a as [|c a IH]; intros rest i H.
  - cbn [app length]. f_equal. cbn. lia.
  - pose proof (H [] (c :: a) eq_refl ltac:(discriminate)) as E.
    cbn [app] in E |- *. cbn [find_from]. rewrite E.
    rewrite IH.
    + f_equal. cbn [length]. lia.
    + intros a1 a2 -> K. apply (H (c :: a1) a2); [reflexivity|exact K].
Qed.

Lemma mark_false c :
  sep_mark c = false ->
  c <> 124 /\ c <> 45 /\ c <> 8211 /\ c <> 8212 /\ c <> 58.
Proof.
  unfold sep_mark. intros H.
  repeat (apply orb_false_iff in H; destruct H as [H ?]).
  repeat match goal with
         | K : (_ =? _) = false |- _ => apply N.eqb_neq in K
         end.
  repeat split; assumption.
Qed.

Lemma mark_absent d (a sep t : str) :
  sep_mark d = true ->
  Forall (fun c => sep_mark c = false) a ->
  Forall (fun c => sep_mark c = false) t ->
  ~ In d sep -> ~ In d (a ++ sep ++ t).
Proof.
  intros M Fa Ft Ns H. rewrite Forall_forall in Fa, Ft.
  apply in_app_or in H. destruct H as [H|H].
  - apply Fa in H. congruence.
  - apply in_app_or in H. destruct H as [H|H]; [exact (Ns H)|].
    apply Ft in H. congruence.
Qed.

Lemma sep_not_prefix (sep a2 rest : str) :
  In sep seps -> a2 <> [] ->
  Forall (fun c => sep_mark c = false) a2 ->
  is_prefix sep (a2 ++ sep ++ rest) = false.
Proof.
  intros I N F. destruct a2 as [|c a2]; [contradiction|].
  apply Forall_cons_iff in F. destruct F as [Fc F].
  apply mark_false in Fc. destruct Fc as (c1 & c2 & c3 & c4 & c5).
  unfold seps in I. cbn [In] in I.
  destruct I as [<-|[<-|[<-|[<-|[<-|[]]]]]].
  1-4: destruct a2 as [|e a2];
    [cbn [app is_prefix js List.map list_ascii_of_string];
     apply andb_false_iff; right; reflexivity|];
    apply Forall_cons_iff in F; destruct F as [Fe _];
    apply mark_false in Fe; destruct Fe as (e1 & e2 & e3 & e4 & e5);
    cbn [app is_prefix js List.map list_ascii_of_string];
    apply andb_false_iff; right; apply andb_false_iff; left;
    apply N.eqb_neq; intros K; cbn in K; congruence.
  cbn [app is_prefix js List.map list_ascii_of_string].
  apply andb_false_iff. left. apply N.eqb_neq. intros K. cbn in K.
  congruence.
Qed.

Lemma Forall_suffix (P : N -> Prop) (a a1 a2 : str) :
  a = a1 ++ a2 -> Forall P a -> Forall P a2.
Proof. intros -> F. apply Forall_app in F. apply F. Qed.

Lemma indexOf_joined (a sep t : str) :
  In sep seps -> Forall (fun c => sep_mark c = false) a ->
  indexOf (a ++ sep ++ t) sep = Z.of_nat (length a).
Proof.
  intros I F. unfold indexOf. rewrite find_from_app.
  - rewrite find_from_here; [reflexivity|apply is_prefix_app_self].
  - intros a1 a2 E K. apply sep_not_prefix; [exact I|exact K|].
    eapply Forall_suffix; eassumption.
Qed.

Lemma parse_from_skip sep' rem q :
  indexOf q sep' = (-1)%Z ->
  parseArtistTrack_from (sep' :: rem) q = parseArtistTrack_from rem q.
Proof. intros E. cbn [parseArtistTrack_from]. rewrite E. reflexivity. Qed.

Lemma parse_from_hit sep rem (a t : str) :
  a <> [] -> indexOf (a ++ sep ++ t) sep = Z.of_nat (length a) ->
  trim a = a -> trim t = t ->
  parseArtistTrack_from (sep :: rem) (a ++ sep ++ t)
  = {| artist := a; track := t |}.
Proof.
  intros N E Ta Tt. cbn [parseArtistTrack_from]. rewrite E.
  assert (P : (0 <? Z.of_nat (length a))%Z = true).
  { apply Z.ltb_lt. destruct a; [contradiction|cbn [length]; lia]. }
  rewrite P. unfold substring, substring_from.
  rewrite <- Nat2Z.inj_add, !Nat2Z.id. cbn [Z.to_nat skipn].
  rewrite Nat.sub_0_r, firstn_app_self, Ta.
  replace (skipn (length a + length sep) (a ++ sep ++ t)) with t.
  - rewrite Tt. reflexivity.
  - rewrite app_assoc, <- length_app. symmetry. apply skipn_app_self.
Qed.

(** X18.  Joining and splitting are inverse on plain names.  When the
    artist and the track contain none of the marks of a separator (pipe,
    hyphen, en dash, em dash, colon) and have no white space at their ends,
    and the artist is not empty, [parseArtistTrack] cuts the query "artist,
    separator, track" back into exactly the two, for each of the five
    separators. *)
Theorem parseArtistTrack_round_trip (a t sep : str) :
  In sep seps -> a <> [] -> plain_name a -> plain_name t ->
  parseArtistTrack (a ++ sep ++ t) = {| artist := a; track := t |}.
Proof.
  intros I N (Fa & Ha & La) (Ft & Ht & Lt).
  pose proof (trim_fixed a Ha La) as Ta.
  pose proof (trim_fixed t Ht Lt) as Tt.
  pose proof (indexOf_joined a sep t I Fa) as E.
  assert (Skip : forall d sep' rem,
            In d sep' -> sep_mark d = true -> ~ In d sep ->
            parseArtistTrack_from (sep' :: rem) (a ++ sep ++ t)
            = parseArtistTrack_from rem (a ++ sep ++ t)).
  { intros d sep' rem Id M Ns. apply parse_from_skip.
    apply (indexOf_absent _ _ d Id). apply mark_absent; assumption. }
  unfold parseArtistTrack, seps in *. cbn [In] in I.
  destruct I as [<-|[<-|[<-|[<-|[<-|[]]]]]].
  - apply parse_from_hit; assumption.
  - rewrite (Skip 124); [apply parse_from_hit; assumption| | |];
      [cbn; tauto|reflexivity|cbn; intuition discriminate].
  - rewrite (Skip 124), (Skip 45); [apply parse_from_hit; assumption|..];
      first [reflexivity|cbn; tauto|cbn; intuition discriminate].
  - rewrite (Skip 124), (Skip 45), (Skip 8211);
      [apply parse_from_hit; assumption|..];
      first [reflexivity|cbn; tauto|cbn; intuition discriminate].
  - rewrite (Skip 124), (Skip 45), (Skip 8211), (Skip 8212);
      [apply parse_from_hit; assumption|..];
      first [reflexivity|cbn; tauto|cbn; intuition discriminate].
Qed.

Lemma parseArtistTrack_round_trip_witness :
  In [32; 8211; 32] seps /\ js "Daft Punk" <> []
  /\ plain_name (js "Daft Punk") /\ plain_name (js "One More Time")
  /\ parseArtistTrack (js "Daft Punk" ++ [32; 8211; 32] ++ js "One More Time")
     = {| artist := js "Daft Punk"; track := js "One More Time" |}.
Proof.
  assert (I : In [32; 8211; 32] seps) by (cbn; tauto).
  assert (N : js "Daft Punk" <> []) by discriminate.
  assert (Pa : plain_name (js "Daft Punk")).
  { split; [repeat constructor|].
    split; intros c H; vm_compute in H; apply some_eq in H; subst c;
      reflexivity. }
  assert (Pt : plain_name (js "One More Time")).
  { split; [repeat constructor|].
    split; intros c H; vm_compute in H; apply some_eq in H; subst c;
      reflexivity. }
  split; [exact I|]. split; [exact N|]. split; [exact Pa|].
  split; [exact Pt|].
  exact (parseArtistTrack_round_trip _ _ _ I N Pa Pt).
Defined.

(** ** Request pacing *)

Lemma filter_all (A : Type) (p : A -> bool) (l : list A) :
  Forall (fun x => p x = true) l -> filter p l = l.
Proof.
  induction 1 as [|x l H F IH]; [reflexivity|].
  cbn [filter]. rewrite H, IH. reflexivity.
Qed.

Lemma shift_old_sorted now windowMs : forall stamps,
  StronglySorted Z.le stamps ->
  shift_old now windowMs stamps
  = filter (fun t => (now - t <=? windowMs)%Z) stamps.
Proof.
  induction stamps as [|t stamps IH]; intros Srt; [reflexivity|].
  apply StronglySorted_inv in Srt. destruct Srt as [Srt F].
  cbn [shift_old filter]. destruct (windowMs <? now - t)%Z eqn:E.
  - apply Z.ltb_lt in E.
    assert (E' : (now - t <=? windowMs)%Z = false) by (apply Z.leb_gt; lia).
    rewrite E'. apply IH, Srt.
  - apply Z.ltb_ge in E.
    assert (E' : (now - t <=? windowMs)%Z = true) by (apply Z.leb_le; lia).
    rewrite E'. f_equal. symmetry. apply filter_all.
    eapply Forall_impl; [|exact F]. cbn. intros u Hu. apply Z.leb_le. lia.
Qed.

(** X19.  On stamps in ascending order (the order in which [discogsGet]
    pushes them), [rateOk] leaves in the array exactly the stamps of the
    last [windowMs] milliseconds, and answers [true] exactly when these are
    fewer than [limit]. *)
Theorem rateOk_window (now : Z) (stamps : list Z) (limit windowMs : Z) :
  StronglySorted Z.le stamps ->
  let recent := filter (fun t => (now - t <=? windowMs)%Z) stamps in
  rateOk now stamps limit windowMs
  = ((Z.of_nat (length recent) <? limit)%Z, recent).
Proof.
  intros Srt. cbv zeta. unfold rateOk.
  rewrite (shift_old_sorted now windowMs stamps Srt). reflexivity.
Qed.

Lemma rateOk_window_witness :
  StronglySorted Z.le [0; 1000; 50000; 70000]%Z
  /\ rateOk 70500 [0; 1000; 50000; 70000]%Z 3 60000
     = (true, [50000; 70000]%Z).
Proof.
  assert (Srt : StronglySorted Z.le [0; 1000; 50000; 70000]%Z).
  { repeat (constructor; [|repeat constructor; lia]). constructor. }
  split; [exact Srt|].
  exact (rateOk_window 70500 [0; 1000; 50000; 70000]%Z 3 60000 Srt).
Defined.

(** ** The result cache *)

Lemma subseq_trans (A : Type) (a b c : list A) :
  subseq a b -> subseq b c -> subseq a c.
Proof.
  intros H K. revert a H. induction K as [|x b c K IH|x b c K IH]; intros a H.
  - exact H.
  - inversion H; subst; constructor; apply IH; assumption.
  - constructor. apply IH, H.
Qed.

Lemma subseq_map (A B : Type) (f : A -> B) (a b : list A) :
  subseq a b -> subseq (List.map f a) (List.map f b).
Proof. intros H. induction H; cbn [List.map]; constructor; assumption. Qed.

Lemma subseq_NoDup (A : Type) (a b : list A) :
  subseq a b -> NoDup b -> NoDup a.
Proof.
  intros H. induction H; intros N.
  - constructor.
  - apply NoDup_cons_iff in N. destruct N as [N1 N2].
    constructor; [|apply IHsubseq, N2].
    intros I. apply N1. eapply subseq_In; eassumption.
  - apply NoDup_cons_iff in N. apply IHsubseq, N.
Qed.

Lemma subseq_of_filter (A : Type) (p : A -> bool) (l : list A) :
  subseq (filter p l) l.
Proof.
  induction l as [|x l IH]; cbn [filter]; [constructor|].
  destruct (p x); constructor; exact IH.
Qed.

Lemma oldest_of_in : forall more e, In (oldest_of e more) (e :: more).
Proof.
  induction more as [|x more IH]; intros e; cbn [oldest_of].
  - left. reflexivity.
  - destruct (c_time x <? c_time e)%Z.
    + right. apply IH.
    + destruct (IH e) as [H|H]; [left; exact H|right; right; exact H].
Qed.

Lemma oldest_of_least : forall more e x,
  In x (e :: more) -> (c_time (oldest_of e more) <= c_time x)%Z.
Proof.
  induction more as [|y more IH]; intros e x I; cbn [oldest_of].
  - destruct I as [<-|[]]. lia.
  - destruct (c_time y <? c_time e)%Z eqn:E.
    + apply Z.ltb_lt in E. destruct I as [<-|I].
      * pose proof (IH y y (or_introl eq_refl)). lia.
      * apply IH, I.
    + apply Z.ltb_ge in E. destruct I as [<-|[<-|I]].
      * apply IH. left. reflexivity.
      * pose proof (IH e e (or_introl eq_refl)). lia.
      * apply IH. right. exact I.
Qed.

Lemma remove_key_length : forall cache e,
  In e cache -> S (length (remove_key (c_key e) cache)) = length cache.
Proof.
  induction cache as [|x cache IH]; intros e I; [destruct I|].
  cbn [remove_key]. destruct (str_eqb (c_key x) (c_key e)) eqn:E.
  - reflexivity.
  - destruct I as [->|I]; [rewrite str_eqb_refl in E; discriminate|].
    cbn [length]. rewrite (IH e I). reflexivity.
Qed.

Lemma remove_key_subseq k : forall cache, subseq (remove_key k cache) cache.
Proof.
  induction cache as [|x cache IH]; cbn [remove_key]; [constructor|].
  destruct (str_eqb (c_key x) k).
  - constructor. apply subseq_refl.
  - constructor. exact IH.
Qed.

Lemma remove_key_others : forall cache o x,
  NoDup (List.map c_key cache) -> In o cache -> In x cache ->
  In x (remove_key (c_key o) cache) \/ x = o.
Proof.
  induction cache as [|e cache IH]; intros o x N Io Ix; [destruct Io|].
  cbn [List.map] in N. apply NoDup_cons_iff in N. destruct N as [N1 N2].
  cbn [remove_key]. destruct (str_eqb (c_key e) (c_key o)) eqn:E.
  - apply str_eqb_eq in E.
    assert (Eo : o = e).
    { destruct Io as [Io|Io]; [symmetry; exact Io|]. exfalso. apply N1.
      rewrite E. apply in_map, Io. }
    subst o. destruct Ix as [Ix|Ix]; [right; symmetry; exact Ix|left; exact Ix].
  - assert (Io' : In o cache).
    { destruct Io as [->|Io]; [rewrite str_eqb_refl in E; discriminate|].
      exact Io. }
    destruct Ix as [->|Ix]; [left; left; reflexivity|].
    destruct (IH o x N2 Io' Ix) as [H|H]; [left; right; exact H|right; exact H].
Qed.

Lemma evict_length : forall rounds cache,
  (length cache <= rounds)%nat ->
  (length (evict rounds cache) < CACHE_MAX)%nat.
Proof.
  induction rounds as [|rounds IH]; intros cache L; cbn [evict].
  - unfold CACHE_MAX. lia.
  - destruct (CACHE_MAX <=? length cache)%nat eqn:E;
      [|apply Nat.leb_gt in E; exact E].
    destruct cache as [|e more]; [unfold CACHE_MAX; cbn [length]; lia|].
    apply IH.
    pose proof (remove_key_length (e :: more) _ (oldest_of_in more e)) as R.
    lia.
Qed.

Lemma evict_subseq : forall rounds cache, subseq (evict rounds cache) cache.
Proof.
  induction rounds as [|rounds IH]; intros cache; cbn [evict].
  - apply subseq_refl.
  - destruct (CACHE_MAX <=? length cache)%nat; [|apply subseq_refl].
    destruct cache as [|e more]; [constructor|].
    eapply subseq_trans; [apply IH|apply remove_key_subseq].
Qed.

Lemma evict_small rounds cache :
  (length cache < CACHE_MAX)%nat -> evict rounds cache = cache.
Proof.
  intros L. destruct rounds as [|rounds]; cbn [evict]; [reflexivity|].
  apply Nat.leb_gt in L. rewrite L. reflexivity.
Qed.

Lemma evict_oldest_first : forall rounds cache,
  NoDup (List.map c_key cache) ->
  forall x y, In x cache -> ~ In x (evict rounds cache) ->
              In y (evict rounds cache) -> (c_time x <= c_time y)%Z.
Proof.
  induction rounds as [|rounds IH]; intros cache N x y Ix Nx Iy;
    cbn [evict] in *; [contradiction|].
  destruct (CACHE_MAX <=? length cache)%nat; [|contradiction].
  destruct cache as [|e more]; [destruct Ix|].
  set (o := oldest_of e more) in *.
  set (cache' := remove_key (c_key o) (e :: more)) in *.
  assert (Sub : subseq cache' (e :: more)) by apply remove_key_subseq.
  assert (N' : NoDup (List.map c_key cache'))
    by (eapply subseq_NoDup; [apply subseq_map, Sub|exact N]).
  destruct (remove_key_others (e :: more) o x N (oldest_of_in more e) Ix)
    as [H|H].
  - apply (IH cache' N' x y H Nx Iy).
  - subst x. apply oldest_of_least.
    eapply subseq_In; [exact Sub|].
    eapply subseq_In; [apply evict_subseq|exact Iy].
Qed.

(** X20.  [pruneCache] leaves fewer than [CACHE_MAX] entries, so that one
    can be added; it adds and reorders nothing; no entry older than
    [CACHE_TTL] is left; an entry that was still fresh is evicted only if
    it is at most as recent as every entry kept; and a cache of fewer than
    [CACHE_MAX] entries loses its expired entries only. *)
Theorem pruneCache_spec (now : Z) (cache : list CacheEntry) :
  let kept := pruneCache now cache in
  (length kept < CACHE_MAX)%nat
  /\ subseq kept cache
  /\ Forall (fun e => (now - c_time e <= CACHE_TTL)%Z) kept
  /\ (NoDup (List.map c_key cache) ->
      forall x y, In x cache -> ~ In x kept -> In y kept ->
        expired now x = true \/ (c_time x <= c_time y)%Z)
  /\ ((length cache < CACHE_MAX)%nat ->
      kept = filter (fun e => negb (expired now e)) cache).
Proof.
  cbv zeta. unfold pruneCache.
  set (live := filter (fun e => negb (expired now e)) cache).
  assert (SubL : subseq live cache) by apply subseq_of_filter.
  split; [apply evict_length; lia|].
  split; [eapply subseq_trans; [apply evict_subseq|exact SubL]|].
  split; [|split].
  - apply Forall_forall. intros e I.
    apply (subseq_In _ _ _ _ (evict_subseq _ _)) in I.
    apply filter_In in I. destruct I as [_ I].
    apply negb_true_iff in I. unfold expired in I.
    apply Z.ltb_ge in I. exact I.
  - intros N x y Ix Nx Iy.
    destruct (expired now x) eqn:E; [left; reflexivity|right].
    apply (evict_oldest_first (length live) live); try assumption.
    + eapply subseq_NoDup; [apply subseq_map, SubL|exact N].
    + apply filter_In. split; [exact Ix|]. rewrite E. reflexivity.
  - intros L. apply evict_small.
    pose proof (subseq_length _ _ _ SubL). lia.
Qed.

(** ** Search results without repetition *)

Lemma NoDup_map_key (l : list GoogleResult) :
  NoDup (List.map seen_key l) -> NoDup (List.map result_key l).
Proof.
  induction l as [|r l IH]; cbn [List.map]; intros N; [constructor|].
  apply NoDup_cons_iff in N. destruct N as [N1 N2].
  constructor; [|apply IH, N2].
  intros I. apply N1. apply in_map_iff in I. destruct I as (r' & E & I).
  apply in_map_iff. exists r'. split; [|exact I].
  unfold result_key in E. unfold seen_key. inversion E. reflexivity.
Qed.

Lemma NoDup_snoc (A : Type) (l : list A) (x : A) :
  NoDup l -> ~ In x l -> NoDup (l ++ [x]).
Proof.
  intros N H. apply NoDup_rev in N.
  rewrite <- (rev_involutive (l ++ [x])). apply NoDup_rev.
  rewrite rev_app_distr. cbn [rev app]. constructor; [|exact N].
  intros I. apply H. apply in_rev. exact I.
Qed.

Lemma note_match_inv r prefix ty url st :
  js prefix = match ty with Master => js "m" | Release => js "r" end ->
  url_inv st -> url_inv (note_match r prefix ty url st).
Proof.
  intros P [N S]. unfold note_match.
  destruct (match_first r url) as [m|]; [|split; assumption].
  destruct (str_in _ (snd st)) eqn:E; [split; assumption|].
  assert (K : ~ In (js prefix ++ num_str (parseInt (group_text 1 m))) (snd st)).
  { intros I. apply str_in_spec in I. congruence. }
  assert (Ek : seen_key {| gr_type := ty;
                           gr_id := parseInt (group_text 1 m);
                           gr_url := url |}
               = js prefix ++ num_str (parseInt (group_text 1 m))).
  { unfold seen_key. cbn [gr_type gr_id]. rewrite P. reflexivity. }
  split; cbn [fst snd].
  - rewrite map_app. cbn [List.map]. apply NoDup_snoc; [exact N|].
    rewrite Ek. intros I. apply K. apply in_map_iff in I.
    destruct I as (r' & E' & I). rewrite <- E'. apply S, I.
  - intros r' I. apply in_app_or in I. apply in_or_app.
    destruct I as [I|[<-|[]]]; [left; apply S, I|right; left].
    symmetry. exact Ek.
Qed.

Lemma parseDiscogsUrl_inv url st : url_inv st -> url_inv (parseDiscogsUrl url st).
Proof.
  intros H. unfold parseDiscogsUrl.
  apply note_match_inv; [reflexivity|].
  apply note_match_inv; [reflexivity|exact H].
Qed.

Lemma url_loop_inv (A : Type) (f : A -> str) : forall (ms : list A) st,
  url_inv st ->
  url_inv (fold_left (fun st m => parseDiscogsUrl (f m) st) ms st).
Proof.
  induction ms as [|m ms IH]; intros st H; cbn [fold_left]; [exact H|].
  apply IH, parseDiscogsUrl_inv, H.
Qed.

Lemma redirect_loop_inv dec : forall ms st st',
  url_inv st -> redirect_loop dec ms st = Some st' -> url_inv st'.
Proof.
  induction ms as [|m ms IH]; intros st st' H; cbn [redirect_loop].
  - intros E. apply some_eq in E. subst st'. exact H.
  - destruct (dec (group_text 1 m)) as [decoded|]; [|discriminate].
    apply IH, parseDiscogsUrl_inv, H.
Qed.

Lemma url_inv_empty : url_inv ([], []).
Proof. split; [constructor|intros r []]. Qed.

(** X21.  No release or master is listed twice.  Whatever URLs
    [parseDiscogsUrl] is fed, starting from empty [results] and [seen], no
    two results have the same kind and number; so the results of
    [googleDiscogsSearch] have no repetition either, and a search page that
    is not [ok] gives no result. *)
Theorem googleDiscogsSearch_distinct (fetch : str -> fetch_result)
    (encodeURIComponent decodeURIComponent : str -> option str)
    (query : str) (results : list GoogleResult) :
  googleDiscogsSearch fetch encodeURIComponent decodeURIComponent query
  = Some results ->
  NoDup (List.map result_key results)
  /\ (forall urls,
        NoDup (List.map result_key
                 (fst (fold_left (fun st u => parseDiscogsUrl u st) urls
                         ([], [])))))
  /\ (forall q body,
        encodeURIComponent (query ++ js " discogs vinyl") = Some q ->
        fetch (js "https://www.google.com/search?q=" ++ q ++ js "&num=10")
        = Response false body ->
        results = []).
Proof.
  intros G. split; [|split].
  - unfold googleDiscogsSearch in G.
    destruct (encodeURIComponent _) as [q|]; [|discriminate].
    destruct (fetch _) as [|[|] html]; [discriminate| |].
    + destruct (redirect_loop _ _ _) as [st1|] eqn:E1; [|discriminate].
      apply some_eq in G. subst results. apply NoDup_map_key.
      apply (url_loop_inv _ m_text), (url_loop_inv _ (group_text 1)).
      apply (redirect_loop_inv _ _ _ _ url_inv_empty E1).
    + apply some_eq in G. subst results. constructor.
  - intros urls. apply NoDup_map_key.
    apply (url_loop_inv _ (fun u => u)), url_inv_empty.
  - intros q body Eq Ef. unfold googleDiscogsSearch in G.
    rewrite Eq, Ef in G. apply some_eq in G. symmetry. exact G.
Qed.

Lemma googleDiscogsSearch_distinct_witness :
  let results :=
    [ {| gr_type := Master; gr_id := Some 123%Z;
         gr_url := js "https://www.discogs.com/master/123" |};
      {| gr_type := Release; gr_id := Some 456%Z;
         gr_url := js "https://www.discogs.com/release/456" |} ] in
  googleDiscogsSearch google_only Some Some (js "Daft Punk - Da Funk")
  = Some results
  /\ NoDup (List.map result_key results).
Proof.
  cbv zeta.
  assert (G : googleDiscogsSearch google_only Some Some
                (js "Daft Punk - Da Funk")
              = Some [ {| gr_type := Master; gr_id := Some 123%Z;
                          gr_url := js "https://www.discogs.com/master/123" |};
                       {| gr_type := Release; gr_id := Some 456%Z;
                          gr_url := js "https://www.discogs.com/release/456" |} ])
    by (vm_compute; reflexivity).
  split; [exact G|].
  exact (proj1 (googleDiscogsSearch_distinct _ _ _ _ _ G)).
Defined.

(** ** Sell URLs *)

Lemma makeSellUrl_has_query enc m query u :
  makeSellUrl enc m query = Some u ->
  u <> [] /\ (0 <=? indexOf u (js "?"))%Z = true.
Proof.
  unfold makeSellUrl.
  destruct (id_truthy (releaseId m)); [|destruct (id_truthy (masterId m))];
    [| |destruct (enc query) as [q|]; [|discriminate]];
    intros E; apply some_eq in E; subst u; (split; [discriminate|]).
  - apply (indexOf_present _ _
             (js "https://www.discogs.com/sell/release/" ++ id_str (releaseId m))
             (js "ev=rb")).
    rewrite <- app_assoc. reflexivity.
  - apply (indexOf_present _ _ (js "https://www.discogs.com/sell/list")
             (js "master_id=" ++ id_str (masterId m)
              ++ js "&ev=mb&format=Vinyl")).
    reflexivity.
  - apply (indexOf_present _ _ (js "https://www.discogs.com/search/")
             (js "q=" ++ q ++ js "&format=Vinyl")).
    reflexivity.
Qed.

(** X22.  For a match with a release or a master number, the URL
    [handleFilteredStats] scrapes ([sellUrl] as [makeSellUrl] builds it,
    with the sort parameter appended) is the URL [gatherPricing] read for
    the unfiltered statistics: both views start from the same page. *)
Theorem makeSellUrl_pricing_url (encodeURIComponent : str -> option str)
    (m : ReleaseRef) (query : str) :
  id_truthy (releaseId m) || id_truthy (masterId m) = true ->
  exists u, makeSellUrl encodeURIComponent m query = Some u
            /\ pricing_url m = Some (sorted_url u).
Proof.
  intros H. destruct (makeSellUrl encodeURIComponent m query) as [u|] eqn:E.
  2:{ unfold makeSellUrl in E.
      destruct (id_truthy (releaseId m)); [discriminate|].
      destruct (id_truthy (masterId m)); discriminate. }
  exists u. split; [reflexivity|].
  destruct (makeSellUrl_has_query _ _ _ _ E) as [_ Q].
  unfold sorted_url, query_sep. rewrite Q.
  unfold makeSellUrl in E. unfold pricing_url.
  destruct (id_truthy (releaseId m)).
  - apply some_eq in E. subst u. rewrite <- !app_assoc. reflexivity.
  - destruct (id_truthy (masterId m)); [|discriminate].
    apply some_eq in E. subst u. rewrite <- !app_assoc. reflexivity.
Qed.

Lemma makeSellUrl_pricing_url_witness :
  let m := {| masterId := Some 5%Z; releaseId := None |} in
  id_truthy (releaseId m) || id_truthy (masterId m) = true
  /\ exists u, makeSellUrl (fun _ => None) m (js "a query") = Some u
               /\ pricing_url m = Some (sorted_url u).
Proof.
  cbv zeta. split; [reflexivity|].
  exact (makeSellUrl_pricing_url (fun _ => None)
           {| masterId := Some 5%Z; releaseId := None |} (js "a query")
           eq_refl).
Defined.

(** X23.  Every URL [makeSellUrl] returns already has a query string, so
    the popup's [buildFilteredUrl] appends the location parameter to it
    with an ampersand, and leaves it as it is when the location filter is
    off; the condition filter never changes the link. *)
Theorem buildFilteredUrl_sell_url (encodeURIComponent : str -> option str)
    (m : ReleaseRef) (query u : str) (vgPlus : bool) :
  makeSellUrl encodeURIComponent m query = Some u ->
  buildFilteredUrl (Str u) true vgPlus
  = Str (u ++ js "&ships_from=United+States")
  /\ buildFilteredUrl (Str u) false vgPlus = Str u.
Proof.
  intros E. destruct (makeSellUrl_has_query _ _ _ _ E) as [N Q].
  unfold buildFilteredUrl, includes. cbn [or_empty].
  assert (T : truthy (Str u) = true) by (destruct u; [contradiction|reflexivity]).
  rewrite T, Q. cbn [negb]. split; reflexivity.
Qed.

Lemma buildFilteredUrl_sell_url_witness :
  let u := js "https://www.discogs.com/search/?q=da%20funk&format=Vinyl" in
  makeSellUrl (fun _ => Some (js "da%20funk"))
    {| masterId := None; releaseId := Some 0%Z |} (js "da funk") = Some u
  /\ buildFilteredUrl (Str u) true true
     = Str (u ++ js "&ships_from=United+States")
  /\ buildFilteredUrl (Str u) false true = Str u.
Proof.
  cbv zeta.
  assert (E : makeSellUrl (fun _ => Some (js "da%20funk"))
                {| masterId := None; releaseId := Some 0%Z |} (js "da funk")
              = Some (js "https://www.discogs.com/search/?q=da%20funk&format=Vinyl"))
    by reflexivity.
  split; [exact E|].
  exact (buildFilteredUrl_sell_url _ _ _ _ true E).
Defined.

(** ** The grade of the lowest price *)



(** ** Vinyl formats *)

Lemma vinyl_scan_spec : forall formats,
  vinyl_scan formats = true
  <-> exists f, In f formats /\ test re_vinyl (or_empty f) = true.
Proof.
  induction formats as [|f formats IH]; cbn [vinyl_scan In].
  - split; [discriminate|]. intros (f & [] & _).
  - destruct (test re_vinyl (or_empty f)) eqn:T.
    + split; [|reflexivity]. intros _. exists f. split; [left; reflexivity|exact T].
    + rewrite IH. split.
      * intros (f' & I & H). exists f'. split; [right; exact I|exact H].
      * intros (f' & [<-|I] & H); [congruence|].
        exists f'. split; assumption.
Qed.

(** X25.  [isVinylFormat] answers [true] exactly when the array of formats
    exists and the name of one of its formats contains the word "vinyl",
    whatever the case of its letters. *)
Theorem isVinylFormat_spec (formats : option (list jsval)) :
  isVinylFormat formats = true
  <-> exists l f pre w post,
        formats = Some l /\ In f l
        /\ or_empty f = pre ++ w ++ post /\ same_fold (js "vinyl") w.
Proof.
  unfold isVinylFormat. destruct formats as [l|].
  2:{ split; [discriminate|]. intros (l & f & pre & w & post & E & _).
      discriminate. }
  assert (V : vinyl_scan l = true
              <-> exists f pre w post,
                    In f l /\ or_empty f = pre ++ w ++ post
                    /\ same_fold (js "vinyl") w).
  { rewrite vinyl_scan_spec. split.
    - intros (f & I & T). apply test_spec in T.
      destruct T as (pre & rest & E & M).
      unfold re_vinyl in M. rewrite liti_is_units, match_here_liti in M.
      destruct (is_prefix_ci (js "vinyl") rest) eqn:P; [|contradiction].
      apply is_prefix_ci_spec in P. destruct P as (w & post & -> & F).
      exists f, pre, w, post. repeat split; assumption.
    - intros (f & pre & w & post & I & E & F). exists f. split; [exact I|].
      apply test_spec. exists pre, (w ++ post). split; [exact E|].
      unfold re_vinyl. rewrite liti_is_units, match_here_liti.
      assert (P : is_prefix_ci (js "vinyl") (w ++ post) = true)
        by (apply is_prefix_ci_spec; exists w, post; split;
            [reflexivity|exact F]).
      rewrite P. discriminate. }
  destruct l as [|f0 l0].
  - cbn [length Nat.eqb]. split; [discriminate|].
    intros (l & f & pre & w & post & E & I & _).
    apply some_eq in E. subst l. destruct I.
  - cbn [length Nat.eqb]. rewrite V. split.
    + intros (f & pre & w & post & H). exists (f0 :: l0), f, pre, w, post.
      split; [reflexivity|exact H].
    + intros (l & f & pre & w & post & E & H). apply some_eq in E. subst l.
      exists f, pre, w, post. exact H.
Qed.

(** ** The disambiguation suffix of an artist name *)

Lemma match_here_disambiguation prev s :
  match_here re_disambiguation prev s
  = if disambiguation_at s then Some (length s, []) else None.
Proof.
  unfold match_here, re_disambiguation, white, digit, Plus. cbn [seq_of].
  rewrite !lit_is_units. change (js "(") with [40]. change (js ")") with [41].
  change (rmatch (Seq (Star (Chr is_space)) ?R) ?k (MState prev s []))
    with (star_loop (rmatch (Chr is_space)) (length s) (rmatch R k)
            (MState prev s [])).
  rewrite star_chr_then; [| |lia].
  2:{ intros b c t g Sc.
      change (rmatch (Seq ?x ?y) ?k ?st) with (rmatch x (rmatch y k) st).
      rewrite rmatch_lit_units. cbn [is_prefix].
      destruct (40 =? c) eqn:E; [|reflexivity].
      apply N.eqb_eq in E. subst c. discriminate Sc. }
  unfold disambiguation_at.
  change (rmatch (Seq ?x ?y) ?k ?st) with (rmatch x (rmatch y k) st).
  rewrite rmatch_lit_units.
  destruct (drop_while is_space s) as [|c [|d s3]]; cbn [is_prefix];
    [reflexivity| |].
  - rewrite andb_true_r. destruct (40 =? c); reflexivity.
  - rewrite andb_true_r, (N.eqb_sym c 40).
    destruct (40 =? c); [|reflexivity]. cbn [andb length skipn].
    change (rmatch (Seq (Seq ?x ?y) ?z) ?k ?st)
      with (rmatch x (rmatch y (rmatch z k)) st).
    rewrite rmatch_chr. destruct (is_digit d); [|reflexivity].
    change (rmatch (Star (Chr is_digit)) ?k (MState ?b s3 ?g))
      with (star_loop (rmatch (Chr is_digit)) (length s3) k (MState b s3 g)).
    rewrite star_chr_then; [| |lia].
    2:{ intros b c' t g Dc.
        change (rmatch (Seq ?x ?y) ?k ?st) with (rmatch x (rmatch y k) st).
        rewrite rmatch_lit_units. cbn [is_prefix].
        destruct (41 =? c') eqn:E; [|reflexivity].
        apply N.eqb_eq in E. subst c'. discriminate Dc. }
    change (rmatch (Seq ?x ?y) ?k ?st) with (rmatch x (rmatch y k) st).
    rewrite rmatch_lit_units.
    destruct (drop_while is_digit s3) as [|e s5]; cbn [is_prefix];
      [reflexivity|].
    rewrite andb_true_r, (N.eqb_sym e 41).
    destruct (41 =? e); [|reflexivity]. cbn [andb length skipn].
    destruct s5 as [|x s5]; [|reflexivity].
    cbn [rmatch rest caps length]. rewrite Nat.sub_0_r. reflexivity.
Qed.

Lemma disambiguation_hit (sp ds : str) :
  Forall (fun c => is_space c = true) sp -> ds <> [] ->
  Forall (fun c => is_digit c = true) ds ->
  disambiguation_at (sp ++ 40 :: ds ++ [41]) = true.
Proof.
  intros Fs N Fd. unfold disambiguation_at.
  rewrite (drop_while_app_all is_space sp _ Fs).
  destruct ds as [|d ds]; [contradiction|].
  apply Forall_cons_iff in Fd. destruct Fd as [Hd Fd].
  cbn [app drop_while]. change (is_space 40) with false. cbv iota.
  rewrite Hd. rewrite (drop_while_app_all is_digit ds _ Fd).
  reflexivity.
Qed.

Lemma disambiguation_shape (s : str) :
  disambiguation_at s = true ->
  exists sp ds,
    s = sp ++ 40 :: ds ++ [41]
    /\ Forall (fun c => is_space c = true) sp
    /\ ds <> [] /\ Forall (fun c => is_digit c = true) ds.
Proof.
  unfold disambiguation_at. intros H.
  pose proof (take_drop_while is_space s) as Es.
  destruct (drop_while is_space s) as [|c [|d s3]]; try discriminate.
  pose proof (take_drop_while is_digit s3) as Ed.
  destruct (drop_while is_digit s3) as [|e [|x s5]];
    rewrite ?andb_false_r in H; try discriminate.
  rewrite andb_true_r in H.
  apply andb_true_iff in H. destruct H as [H He].
  apply andb_true_iff in H. destruct H as [Hc Hd].
  apply N.eqb_eq in Hc, He. subst c e.
  exists (take_while is_space s), (d :: take_while is_digit s3).
  split; [|split; [apply take_while_all|split; [discriminate|]]].
  - rewrite <- Es at 1. rewrite <- Ed at 1. reflexivity.
  - constructor; [exact Hd|apply take_while_all].
Qed.

Lemma paren_digits_unique : forall (x x' ds ds' : str),
  x ++ 40 :: ds = x' ++ 40 :: ds' ->
  Forall (fun c => is_digit c = true) ds ->
  Forall (fun c => is_digit c = true) ds' -> x = x'.
Proof.
  assert (No : forall (y ds0 : str),
            Forall (fun c => is_digit c = true) (y ++ 40 :: ds0) -> False).
  { intros y ds0 F. apply Forall_app in F. destruct F as [_ F].
    apply Forall_cons_iff in F. destruct F as [F _]. discriminate F. }
  induction x as [|c x IH]; intros [|c' x'] ds ds' E Fd Fd'; cbn [app] in E.
  - reflexivity.
  - injection E as <- E. exfalso. rewrite E in Fd. exact (No _ _ Fd).
  - injection E as -> E. exfalso. rewrite <- E in Fd'. exact (No _ _ Fd').
  - injection E as -> E. f_equal. exact (IH _ _ _ E Fd Fd').
Qed.

Lemma hd_rev_suffix (p1 p2 : str) :
  p2 <> [] -> exists c, hd_error (rev (p1 ++ p2)) = Some c /\ In c p2.
Proof.
  intros Ne. rewrite rev_app_distr.
  destruct (rev p2) as [|c t] eqn:E.
  - apply (f_equal (@rev _)) in E. rewrite rev_involutive in E.
    cbn in E. contradiction.
  - exists c. split; [reflexivity|].
    apply in_rev. rewrite E. left. reflexivity.
Qed.

Lemma join_single sep a : join sep [a] = a.
Proof. cbn [join]. apply app_nil_r. Qed.

(** X26.  [extractArtistNames] removes the disambiguation number of
    Discogs.  A name made of a base that does not end in white space,
    followed by optional white space and a number in parentheses, becomes
    its base; a name that does not end in a closing parenthesis is left as
    it is; and the names of several artists are treated one by one and
    joined with a comma and a blank. *)
Theorem extractArtistNames_strips (base sp ds : str) :
  (forall c, hd_error (rev base) = Some c -> is_space c = false) ->
  Forall (fun c => is_space c = true) sp ->
  ds <> [] -> Forall (fun c => is_digit c = true) ds ->
  extractArtistNames (Some [Str (base ++ sp ++ js "(" ++ ds ++ js ")")])
  = base
  /\ (forall name, hd_error (rev name) <> Some 41 ->
        extractArtistNames (Some [Str name]) = name)
  /\ (forall artists,
        extractArtistNames (Some artists)
        = join (js ", ")
            (List.map (fun a => extractArtistNames (Some [a])) artists)).
Proof.
  intros Hb Fs Nd Fd. unfold extractArtistNames. split; [|split].
  - cbn [List.map or_empty]. rewrite join_single.
    change (js "(") with [40]. change (js ")") with [41]. cbn [app].
    rewrite <- (app_nil_r base) at 2.
    apply (replace_first_at _ _ _ _ []).
    + intros p1 p2 E K. rewrite match_here_disambiguation.
      destruct (disambiguation_at _) eqn:D; [|reflexivity]. exfalso.
      apply disambiguation_shape in D.
      destruct D as (sp' & ds' & E' & Fs' & _ & Fd').
      rewrite !app_comm_cons, !app_assoc in E'.
      apply app_inj_tail in E'. destruct E' as [E' _].
      rewrite <- !app_assoc in E'.
      rewrite app_assoc in E'.
      apply paren_digits_unique in E'; [|assumption|assumption].
      destruct (hd_rev_suffix p1 p2 K) as (c & Hc & Ic).
      rewrite <- E in Hc. apply Hb in Hc.
      assert (Sc : is_space c = true).
      { rewrite Forall_forall in Fs'. apply Fs'. rewrite <- E'.
        apply in_or_app. left. exact Ic. }
      congruence.
    + rewrite match_here_disambiguation, disambiguation_hit by assumption.
      reflexivity.
  - intros name Hn. cbn [List.map or_empty]. rewrite join_single.
    apply replace_first_none. intros pre post E.
    rewrite match_here_disambiguation.
    destruct (disambiguation_at post) eqn:D; [|reflexivity]. exfalso.
    apply disambiguation_shape in D. destruct D as (sp' & ds' & E' & _).
    apply Hn. rewrite E, E'.
    rewrite !app_comm_cons, !app_assoc, rev_app_distr. reflexivity.
  - intros artists. f_equal. apply map_ext.
    intros a. cbn [List.map]. rewrite join_single. reflexivity.
Qed.

Lemma extractArtistNames_strips_witness :
  (forall c, hd_error (rev (js "DJ Shadow")) = Some c -> is_space c = false)
  /\ Forall (fun c => is_space c = true) (js " ")
  /\ js "3" <> [] /\ Forall (fun c => is_digit c = true) (js "3")
  /\ extractArtistNames
       (Some [Str (js "DJ Shadow" ++ js " " ++ js "(" ++ js "3" ++ js ")")])
     = js "DJ Shadow".
Proof.
  assert (Hb : forall c, hd_error (rev (js "DJ Shadow")) = Some c ->
                         is_space c = false).
  { intros c H. vm_compute in H. apply some_eq in H. subst c. reflexivity. }
  assert (Fs : Forall (fun c => is_space c = true) (js " "))
    by (repeat constructor).
  assert (Nd : js "3" <> []) by discriminate.
  assert (Fd : Forall (fun c => is_digit c = true) (js "3"))
    by (repeat constructor).
  split; [exact Hb|]. split; [exact Fs|]. split; [exact Nd|].
  split; [exact Fd|].
  exact (proj1 (extractArtistNames_strips _ _ _ Hb Fs Nd Fd)).
Defined.

(** ** From search results to matches *)

Lemma versions_loop_spec mid : forall vs seen,
  let r := versions_loop mid vs seen in
  (length (fst r) <= length vs)%nat
  /\ Forall (fun m => masterId m = mid) (fst r)
  /\ NoDup (List.map release_key (fst r))
  /\ Forall (fun m => ~ In (release_key m) seen) (fst r)
  /\ Forall (fun m => In (release_key m) (snd r)) (fst r)
  /\ incl seen (snd r).
Proof.
  induction vs as [|v vs IH]; intros seen; cbv zeta; cbn [versions_loop].
  - cbn. repeat split; try constructor. intros x H. exact H.
  - destruct (IH seen) as (L & M & N & F & G & I). cbv zeta in *.
    destruct (negb (is_vinyl_version v));
      [repeat split; try assumption; cbn [length]; lia|].
    destruct (str_in (id_str (v_id v)) seen) eqn:E;
      [repeat split; try assumption; cbn [length]; lia|].
    clear L M N F G I.
    destruct (IH (seen ++ [id_str (v_id v)])) as (L & M & N & F & G & I).
    cbv zeta in *. cbn [fst snd length List.map].
    assert (K : ~ In (id_str (v_id v)) seen).
    { intros H. apply str_in_spec in H. congruence. }
    split; [lia|]. split; [constructor; [reflexivity|exact M]|].
    split; [|split; [|split]].
    + constructor; [|exact N]. unfold release_key at 1. cbn [releaseId].
      intros H. apply in_map_iff in H. destruct H as (m & Em & Im).
      rewrite Forall_forall in F. apply (F m Im). rewrite Em.
      apply in_or_app. right. left. reflexivity.
    + constructor; [exact K|].
      eapply Forall_impl; [|exact F]. cbn. intros m Hm H. apply Hm.
      apply in_or_app. left. exact H.
    + constructor; [|exact G]. unfold release_key. cbn [releaseId].
      apply I. apply in_or_app. right. left. reflexivity.
    + intros x H. apply I. apply in_or_app. left. exact H.
Qed.

Lemma expandMasterVersions_masters dg mid seen :
  let r := expandMasterVersions dg mid seen in
  (length (fst r) <= 10)%nat /\ Forall (fun m => masterId m = mid) (fst r).
Proof.
  cbv zeta. unfold expandMasterVersions.
  set (vList := match dg _ with ApiData _ => _ | _ => [] end).
  destruct (versions_loop_spec mid (firstn 10 vList) seen) as (L & M & _).
  cbv zeta in *.
  assert (L10 : (length (firstn 10 vList) <= 10)%nat)
    by (rewrite length_firstn; lia).
  destruct (fst (versions_loop mid (firstn 10 vList) seen)) as [|m ms] eqn:E.
  - cbn [fst length]. split; [lia|]. constructor; [reflexivity|constructor].
  - rewrite E. split; [cbn [length] in *; lia|exact M].
Qed.

(** X27.  [expandMasterVersions] never returns an empty list and never
    more than ten matches, all under the master it was called for; unless
    it is the single master-level match, no release is listed twice, none
    was seen before the call, and all are remembered in [seenReleases]
    afterwards. *)
Theorem expandMasterVersions_bounds (discogsGet : str -> api_result)
    (mid : option Z) (seenReleases : list str) :
  let r := expandMasterVersions discogsGet mid seenReleases in
  (1 <= length (fst r) <= 10)%nat
  /\ Forall (fun m => masterId m = mid) (fst r)
  /\ incl seenReleases (snd r)
  /\ (fst r = [ {| masterId := mid; releaseId := None |} ]
      \/ (NoDup (List.map release_key (fst r))
          /\ Forall (fun m => ~ In (release_key m) seenReleases) (fst r)
          /\ Forall (fun m => In (release_key m) (snd r)) (fst r))).
Proof.
  cbv zeta. unfold expandMasterVersions.
  set (vList := match discogsGet _ with ApiData _ => _ | _ => [] end).
  destruct (versions_loop_spec mid (firstn 10 vList) seenReleases)
    as (L & M & N & F & G & I).
  cbv zeta in *.
  assert (L10 : (length (firstn 10 vList) <= 10)%nat)
    by (rewrite length_firstn; lia).
  destruct (fst (versions_loop mid (firstn 10 vList) seenReleases))
    as [|m ms] eqn:E.
  - cbn [fst snd length]. split; [lia|].
    split; [constructor; [reflexivity|constructor]|].
    split; [exact I|]. left. reflexivity.
  - rewrite E. split; [cbn [length] in *; lia|]. split; [exact M|].
    split; [exact I|]. right. repeat split; assumption.
Qed.

Lemma add_versions_inv dg trackName n mid st o :
  dg (js "/masters/" ++ num_str mid) = ApiData o ->
  track_ok trackName o = true ->
  details_inv dg trackName n st ->
  details_inv dg trackName (S n) (add_versions dg mid st).
Proof.
  intros E T [V L]. unfold details_inv, add_versions. cbn [ds_matches].
  destruct (expandMasterVersions_masters dg mid (ds_seenReleases st))
    as (B & M). cbv zeta in *.
  split.
  - apply Forall_app. split; [exact V|].
    eapply Forall_impl; [|exact M]. cbn. intros m Hm. left.
    exists o. rewrite Hm. split; assumption.
  - rewrite length_app. lia.
Qed.

Lemma details_inv_weaken dg trackName n st :
  details_inv dg trackName n st -> details_inv dg trackName (S n) st.
Proof. intros [V L]. split; [exact V|lia]. Qed.

Lemma see_master_inv dg trackName n key st :
  details_inv dg trackName n st ->
  details_inv dg trackName n (see_master key st).
Proof. intros H. exact H. Qed.

Lemma release_itself_inv dg trackName n id rel st :
  dg (js "/releases/" ++ num_str id) = ApiData rel ->
  details_inv dg trackName n st ->
  details_inv dg trackName (S n) (release_itself trackName id rel st).
Proof.
  intros E H. unfold release_itself.
  destruct (isVinylFormat (o_formats rel)) eqn:F; cbn [negb];
    [|apply details_inv_weaken, H].
  destruct (track_ok trackName rel) eqn:T; cbn [negb];
    [|apply details_inv_weaken, H].
  destruct H as [V L]. split; cbn [ds_matches].
  - apply Forall_app. split; [exact V|]. constructor; [|constructor].
    right. cbn [masterId releaseId]. split; [reflexivity|].
    exists rel. repeat split; assumption.
  - rewrite length_app. cbn [length]. lia.
Qed.

Lemma details_step_inv dg trackName n st gr st' :
  details_inv dg trackName n st ->
  details_step dg trackName st gr = Some st' ->
  details_inv dg trackName (S n) st'.
Proof.
  intros H. unfold details_step. destruct (gr_type gr).
  - destruct (str_in _ (ds_seenMasters st)).
    { intros E. apply some_eq in E. subst st'. apply details_inv_weaken, H. }
    destruct (dg (js "/masters/" ++ num_str (gr_id gr))) as [| |o] eqn:E;
      [discriminate| |].
    { intros K. apply some_eq in K. subst st'.
      apply details_inv_weaken, see_master_inv, H. }
    destruct (track_ok trackName o) eqn:T; cbn [negb];
      intros K; apply some_eq in K; subst st'.
    + eapply add_versions_inv; [exact E|exact T|apply see_master_inv, H].
    + apply details_inv_weaken, see_master_inv, H.
  - destruct (dg (js "/releases/" ++ num_str (gr_id gr))) as [| |rel] eqn:E;
      [discriminate| |].
    { intros K. apply some_eq in K. subst st'. apply details_inv_weaken, H. }
    destruct (id_truthy (o_master_id rel)) eqn:I.
    2:{ intros K. apply some_eq in K. subst st'.
        eapply release_itself_inv; [exact E|exact H]. }
    destruct (str_in _ (ds_seenMasters st)).
    { intros K. apply some_eq in K. subst st'. apply details_inv_weaken, H. }
    assert (P : id_str (o_master_id rel) = num_str (o_master_id rel)).
    { destruct (o_master_id rel); [reflexivity|discriminate I]. }
    destruct (dg (js "/masters/" ++ id_str (o_master_id rel)))
      as [| |mst] eqn:Em; [discriminate| |].
    { intros K. apply some_eq in K. subst st'.
      eapply release_itself_inv; [exact E|apply see_master_inv, H]. }
    destruct (track_ok trackName mst) eqn:T;
      intros K; apply some_eq in K; subst st'.
    + rewrite P in Em.
      eapply add_versions_inv; [exact Em|exact T|apply see_master_inv, H].
    + eapply release_itself_inv; [exact E|apply see_master_inv, H].
Qed.

Lemma details_loop_inv dg trackName : forall grs n st st',
  details_inv dg trackName n st ->
  details_loop dg trackName grs st = Some st' ->
  details_inv dg trackName (length grs + n) st'.
Proof.
  induction grs as [|gr grs IH]; intros n st st' H; cbn [details_loop].
  - intros E. apply some_eq in E. subst st'. exact H.
  - destruct (details_step dg trackName st gr) as [st1|] eqn:E;
      [|discriminate].
    intros K. cbn [length].
    replace (S (length grs) + n)%nat with (length grs + S n)%nat by lia.
    eapply IH; [|exact K]. eapply details_step_inv; eassumption.
Qed.

Lemma fetchDiscogsDetails_inv dg googleResults trackName matches :
  fetchDiscogsDetails dg googleResults trackName = Some matches ->
  Forall (verified dg trackName) matches
  /\ (length matches <= 10 * Nat.min 5 (length googleResults))%nat.
Proof.
  unfold fetchDiscogsDetails.
  destruct (details_loop _ _ _ _) as [st|] eqn:E; [|discriminate].
  intros K. apply some_eq in K. subst matches.
  apply details_loop_inv with (n := 0%nat) in E.
  - destruct E as [V L]. split; [exact V|].
    rewrite length_firstn, Nat.add_0_r in L. exact L.
  - split; [constructor|cbn; lia].
Qed.

(** X28.  Every match of [fetchDiscogsDetails] is verified: it stands for a
    master, or for a vinyl release without a usable master, that
    [discogsGet] returned and whose tracklist contains the track name (when
    one was given).  Only the first five search results are looked at, and
    they yield at most ten matches each. *)
Theorem fetchDiscogsDetails_verified (discogsGet : str -> api_result)
    (googleResults : list GoogleResult) (trackName : str)
    (matches : list ReleaseRef) :
  fetchDiscogsDetails discogsGet googleResults trackName = Some matches ->
  Forall (verified discogsGet trackName) matches
  /\ (length matches <= 10 * Nat.min 5 (length googleResults))%nat
  /\ fetchDiscogsDetails discogsGet (firstn 5 googleResults) trackName
     = Some matches.
Proof.
  intros E. destruct (fetchDiscogsDetails_inv _ _ _ _ E) as [V L].
  split; [exact V|]. split; [exact L|].
  unfold fetchDiscogsDetails in *. rewrite firstn_firstn. exact E.
Qed.

Lemma fetchDiscogsDetails_verified_witness :
  let googleResults :=
    [ {| gr_type := Release; gr_id := Some 456%Z;
         gr_url := js "https://www.discogs.com/release/456" |};
      {| gr_type := Master; gr_id := Some 123%Z;
         gr_url := js "https://www.discogs.com/master/123" |} ] in
  let matches :=
    [ {| masterId := Some 123%Z; releaseId := Some 7%Z |};
      {| masterId := Some 123%Z; releaseId := Some 9%Z |} ] in
  fetchDiscogsDetails sample_api googleResults (js "Da Funk") = Some matches
  /\ Forall (verified sample_api (js "Da Funk")) matches.
Proof.
  cbv zeta.
  assert (E : fetchDiscogsDetails sample_api
                [ {| gr_type := Release; gr_id := Some 456%Z;
                     gr_url := js "https://www.discogs.com/release/456" |};
                  {| gr_type := Master; gr_id := Some 123%Z;
                     gr_url := js "https://www.discogs.com/master/123" |} ]
                (js "Da Funk")
              = Some [ {| masterId := Some 123%Z; releaseId := Some 7%Z |};
                       {| masterId := Some 123%Z; releaseId := Some 9%Z |} ])
    by (vm_compute; reflexivity).
  split; [exact E|].
  exact (proj1 (fetchDiscogsDetails_verified _ _ _ _ E)).
Defined.

(** X29.  What [findMatchingReleases] returns.  Either every match is
    verified for the track name taken from the query, or no match could be
    verified and the matches are those of the first search result alone,
    at most ten, taken without the check of the track. *)
Theorem findMatchingReleases_verified (fetch : str -> fetch_result)
    (encodeURIComponent decodeURIComponent : str -> option str)
    (discogsGet : str -> api_result) (query : str)
    (matches : list ReleaseRef) :
  findMatchingReleases fetch encodeURIComponent decodeURIComponent
    discogsGet query = Some matches ->
  Forall (verified discogsGet (track_of query)) matches
  \/ (exists googleResults,
        googleDiscogsSearch fetch encodeURIComponent decodeURIComponent query
        = Some googleResults
        /\ fetchDiscogsDetails discogsGet googleResults (track_of query)
           = Some []
        /\ fetchDiscogsDetails discogsGet (firstn 1 googleResults) []
           = Some matches
        /\ Forall (verified discogsGet []) matches
        /\ (length matches <= 10)%nat).
Proof.
  unfold findMatchingReleases.
  destruct (googleDiscogsSearch _ _ _ _) as [googleResults|]; [|discriminate].
  destruct googleResults as [|gr grs].
  { intros E. apply some_eq in E. subst matches. left. constructor. }
  destruct (fetchDiscogsDetails discogsGet (gr :: grs) (track_of query))
    as [[|m ms]|] eqn:E; [| |discriminate].
  - intros F. right. exists (gr :: grs).
    split; [reflexivity|]. split; [exact E|]. split; [exact F|].
    destruct (fetchDiscogsDetails_inv _ _ _ _ F) as [V L].
    split; [exact V|]. cbn [firstn length] in L. cbn in L. lia.
  - intros K. apply some_eq in K. subst matches. left.
    apply (fetchDiscogsDetails_inv _ _ _ _ E).
Qed.

Lemma findMatchingReleases_verified_witness :
  let matches :=
    [ {| masterId := Some 123%Z; releaseId := Some 7%Z |};
      {| masterId := Some 123%Z; releaseId := Some 9%Z |} ] in
  findMatchingReleases google_only Some Some sample_api
    (js "Daft Punk - Da Funk") = Some matches
  /\ track_of (js "Daft Punk - Da Funk") = js "Da Funk"
  /\ Forall (verified sample_api (js "Da Funk")) matches.
Proof.
  cbv zeta.
  assert (E : findMatchingReleases google_only Some Some sample_api
                (js "Daft Punk - Da Funk")
              = Some [ {| masterId := Some 123%Z; releaseId := Some 7%Z |};
                       {| masterId := Some 123%Z; releaseId := Some 9%Z |} ])
    by (vm_compute; reflexivity).
  assert (T : track_of (js "Daft Punk - Da Funk") = js "Da Funk")
    by (vm_compute; reflexivity).
  split; [exact E|]. split; [exact T|].
  destruct (findMatchingReleases_verified _ _ _ _ _ _ E) as [V|H].
  - rewrite T in V. exact V.
  - exfalso. destruct H as (rs & G & F & _).
    assert (G' : googleDiscogsSearch google_only Some Some
                   (js "Daft Punk - Da Funk")
                 = Some [ {| gr_type := Master; gr_id := Some 123%Z;
                             gr_url := js "https://www.discogs.com/master/123" |};
                          {| gr_type := Release; gr_id := Some 456%Z;
                             gr_url := js "https://www.discogs.com/release/456" |} ])
      by (vm_compute; reflexivity).
    rewrite G' in G. apply some_eq in G. subst rs. rewrite T in F.
    vm_compute in F. discriminate F.
Defined.

(** ** Filters on a scrape *)



(** ** The arithmetic of doubles *)

Section Doubles.
Local Open Scope Z_scope.
Local Open Scope Q_scope.

















(** Two quotients on which the rounding of the doubles shows: the exact
    values are 22.5 and 217.5. *)
Lemma round_ratio_examples :
  round_ratio 15 26 39 = 22%Z /\ round_ratio 29 50 375 = 217%Z
  /\ round_ratio 1 2 45 = 23%Z.
Proof. vm_compute. repeat split. Qed.

End Doubles.

